(** * Claim-based work queue of the Bunny -> Supabase migration

    A shallow embedding of the durable queue store ([db_setup.sql]), of the
    directory crawler ([discover-files.js]) and of the file migration worker
    ([migrate-files.js]), with the properties of the coordination model
    stated over it.

    Conventions
    - UUIDs are positive numbers, timestamps and durations are milliseconds
      in [Z], the numbers of [config.js] are integers.
    - A table is the list of its rows in insertion order.
    - [ORDER BY path] is byte-wise lexicographic order ([String.leb]), the
      "C" collation; [RETURNING] gives the rows in the order of the CTE.
    - The columns [created_at]/[updated_at]/[scan_time] of the frontier, the
      inventory and the log, which only the triggers and defaults write, are
      left out.
    - A process is a function of the state it runs in ([world]): the store,
      the clock, the answers of the environment, its timers and module-level
      variables, and the trace of what it did.  The clock advances in
      [sleep] only.  Logging and the signal handlers are left out.
    - The transfers of a batch run one after the other, in batch order. *)

From Stdlib Require Import ZArith String Ascii Bool Lia.
From stdpp Require Import base tactics option list sorting strings.

Local Open Scope Z_scope.

(** ** Data model (the tables of [db_setup.sql]) *)

Definition uuid := positive.
Definition timestamp := Z.
Bind Scope positive_scope with uuid.

Inductive job_kind := discover | migrate.
Inductive job_status := running | paused | stopped | completed | failed.
Inductive scan_status := queued | claimed | done | scan_failed.
Inductive file_status := pending | scanned | migrated | file_failed | in_progress.
Inductive log_status := log_pending | log_success | log_failed.

#[global] Instance job_kind_eq_dec : EqDecision job_kind.
Proof. solve_decision. Defined.
#[global] Instance job_status_eq_dec : EqDecision job_status.
Proof. solve_decision. Defined.
#[global] Instance scan_status_eq_dec : EqDecision scan_status.
Proof. solve_decision. Defined.
#[global] Instance file_status_eq_dec : EqDecision file_status.
Proof. solve_decision. Defined.
#[global] Instance log_status_eq_dec : EqDecision log_status.
Proof. solve_decision. Defined.

(** [migration_jobs]; [worker_id], [last_heartbeat] and [ended_at] are
    columns the crawler writes ([host], which it writes too and nothing
    reads, is left out). *)
Record job := mk_job {
  job_id : uuid;
  kind : job_kind;
  status : job_status;
  note : string;
  created_at : timestamp;
  worker_id : option uuid;
  last_heartbeat : option timestamp;
  ended_at : option timestamp
}.

#[global] Instance job_eq_dec : EqDecision job.
Proof. solve_decision. Defined.

(** [migration_progress] *)
Record progress := mk_progress {
  p_job_id : uuid;
  total_bytes : Z;
  total_files : Z;
  scanned_dirs : Z;
  migrated_files : Z;
  failed_files : Z;
  last_update : timestamp
}.

(** [scan_queue], the frontier *)
Record scan_row := mk_scan {
  sq_id : uuid;
  sq_path : string;
  sq_parent_path : option string;
  sq_status : scan_status;
  sq_claimed_at : option timestamp
}.

(** [bunny_file_map], the inventory; [claimed_at] and [claimed_by] are the
    claim metadata the worker and the control surface write. *)
Record file_row := mk_file {
  bf_id : uuid;
  bf_path : string;
  bf_is_dir : bool;
  bf_parent_path : option string;
  bf_size : option Z;
  bf_mime_type : option string;
  bf_bunny_url : option string;
  bf_status : file_status;
  bf_claimed_at : option timestamp;
  bf_claimed_by : option uuid
}.

(** [migration_logs] *)
Record log_row := mk_log {
  lg_id : uuid;
  lg_file_id : uuid;
  lg_job_id : uuid;
  lg_status : log_status;
  lg_error_msg : option string;
  lg_attempts : Z;
  lg_bunny_path : string;
  lg_supabase_path : string;
  lg_time_taken : Z
}.

Record store := mk_store {
  migration_jobs : list job;
  migration_progress : list progress;
  scan_queue : list scan_row;
  bunny_file_map : list file_row;
  migration_logs : list log_row
}.

(** ** The claim statements of [db_setup.sql]

    Both claim functions are one statement of the same shape:

      WITH cte AS (SELECT .. WHERE <claimable> ORDER BY path
                   FOR UPDATE SKIP LOCKED LIMIT n)
      UPDATE t SET <flip> FROM cte WHERE t.id = cte.id RETURNING cte.*

    The statement is split in the two phases the store runs it in: the
    locking select ([select_skip_locked], which sees the rows other
    transactions hold locked and skips them) and the update of the selected
    rows ([update_from_cte]). *)

Section ClaimStatement.
Context {R : Type}.
Variable row_id : R → uuid.
Variable row_path : R → string.
Variable claimable : R → bool.
Variable flip : R → R.

Definition by_path (a b : R) : Prop := String.leb (row_path a) (row_path b) = true.

#[global] Instance by_path_dec a b : Decision (by_path a b).
Proof. unfold by_path. apply _. Defined.

#[global] Instance by_path_total : Total by_path.
Proof. intros a b. apply String.leb_total. Qed.

Definition unlocked (locked : list uuid) (r : R) : bool :=
  negb (bool_decide (row_id r ∈ locked)).

(** WHERE <claimable> ORDER BY path FOR UPDATE SKIP LOCKED LIMIT n *)
Definition select_skip_locked (locked : list uuid) (n : nat) (tbl : list R) : list R :=
  take n (filter (λ r, unlocked locked r = true)
            (merge_sort by_path (filter (λ r, claimable r = true) tbl))).

(** UPDATE t SET <flip> FROM cte WHERE t.id = cte.id *)
Definition update_from_cte (cte : list R) (tbl : list R) : list R :=
  (λ r, if bool_decide (row_id r ∈ row_id <$> cte) then flip r else r) <$> tbl.
End ClaimStatement.

(** *** [claim_next_dir()] *)

Record claimed_dir := mk_claimed_dir {
  cd_id : uuid;
  cd_path : string;
  cd_parent_path : option string
}.

Definition is_queued (q : scan_row) : bool := bool_decide (sq_status q = queued).

Definition claim_dir_cte (locked : list uuid) (tbl : list scan_row) : list scan_row :=
  select_skip_locked sq_id sq_path is_queued locked 1 tbl.

(** SET status = 'claimed', claimed_at = now() *)
Definition set_claimed (now : timestamp) (q : scan_row) : scan_row :=
  mk_scan (sq_id q) (sq_path q) (sq_parent_path q) claimed (Some now).

Definition returning_dir (q : scan_row) : claimed_dir :=
  mk_claimed_dir (sq_id q) (sq_path q) (sq_parent_path q).

(** The whole statement, run with no other transaction in flight. *)
Definition claim_next_dir (now : timestamp) (tbl : list scan_row)
  : list claimed_dir * list scan_row :=
  let cte := claim_dir_cte [] tbl in
  (returning_dir <$> cte, update_from_cte sq_id (set_claimed now) cte tbl).

Arguments claim_next_dir : simpl never.

(** *** [claim_files_to_migrate(batch_size)] *)

Record claimed_file := mk_claimed_file {
  cf_id : uuid;
  cf_path : string;
  cf_bunny_url : option string;
  cf_mime_type : option string;
  cf_size : option Z
}.

Definition is_pending_file (b : file_row) : bool :=
  bool_decide (bf_status b = pending) && negb (bf_is_dir b).

Definition claim_files_cte (locked : list uuid) (batch_size : nat)
    (tbl : list file_row) : list file_row :=
  select_skip_locked bf_id bf_path is_pending_file locked batch_size tbl.

(** SET status = 'scanned' *)
Definition set_scanned (b : file_row) : file_row :=
  mk_file (bf_id b) (bf_path b) (bf_is_dir b) (bf_parent_path b) (bf_size b)
    (bf_mime_type b) (bf_bunny_url b) scanned (bf_claimed_at b) (bf_claimed_by b).

Definition returning_file (b : file_row) : claimed_file :=
  mk_claimed_file (bf_id b) (bf_path b) (bf_bunny_url b) (bf_mime_type b) (bf_size b).

(** The whole statement, run with no other transaction in flight.  The
    function has the single parameter [batch_size]; a negative LIMIT is an
    error of the store, which the caller models ([rpc_claim_files]). *)
Definition claim_files_to_migrate (batch_size : nat) (tbl : list file_row)
  : list claimed_file * list file_row :=
  let cte := claim_files_cte [] batch_size tbl in
  (returning_file <$> cte, update_from_cte bf_id set_scanned cte tbl).

Arguments claim_files_to_migrate : simpl never.

(** *** [increment_progress] *)

Definition increment_progress (now : timestamp) (_job_id : uuid)
    (_total_bytes_delta _total_files_delta _scanned_dirs_delta
     _migrated_files_delta _failed_files_delta : Z)
    (tbl : list progress) : list progress :=
  (λ p, if bool_decide (p_job_id p = _job_id)
        then mk_progress (p_job_id p)
               (total_bytes p + _total_bytes_delta)
               (total_files p + _total_files_delta)
               (scanned_dirs p + _scanned_dirs_delta)
               (migrated_files p + _migrated_files_delta)
               (failed_files p + _failed_files_delta)
               now
        else p) <$> tbl.

(** *** Inserts under the unique indexes on [path] *)

Record js_error := mk_error {
  err_code : option string;
  err_message : string
}.

(** SQLSTATE 23505, unique_violation *)
Definition unique_violation (index : string) : js_error :=
  mk_error (Some "23505")
    ("duplicate key value violates unique constraint " +:+ index).

Definition fresh_id {R} (row_id : R → uuid) (tbl : list R) : uuid :=
  Pos.succ (foldr Pos.max 1%positive (row_id <$> tbl)).

(** INSERT INTO scan_queue (path, parent_path, status) under
    [uniq_scan_queue_path] *)
Definition insert_scan_queue (path : string) (parent_path : option string)
    (st : scan_status) (tbl : list scan_row) : option js_error * list scan_row :=
  if bool_decide (path ∈ sq_path <$> tbl)
  then (Some (unique_violation "uniq_scan_queue_path"), tbl)
  else (None, tbl ++ [mk_scan (fresh_id sq_id tbl) path parent_path st None]).

(** The object the crawler inserts into [bunny_file_map]. *)
Record file_entry := mk_entry {
  e_path : string;
  e_is_dir : bool;
  e_parent_path : option string;
  e_size : option Z;
  e_mime_type : option string;
  e_bunny_url : option string;
  e_status : file_status
}.

(** INSERT INTO bunny_file_map under [uniq_bunny_file_map_path] *)
Definition insert_bunny_file_map (e : file_entry) (tbl : list file_row)
  : option js_error * list file_row :=
  if bool_decide (e_path e ∈ bf_path <$> tbl)
  then (Some (unique_violation "uniq_bunny_file_map_path"), tbl)
  else (None, tbl ++ [mk_file (fresh_id bf_id tbl) (e_path e) (e_is_dir e)
                        (e_parent_path e) (e_size e) (e_mime_type e)
                        (e_bunny_url e) (e_status e) None None]).

(** Whether an error names a uniqueness violation, as the insert helpers
    decide it:
    [error.code === '23505' || /duplicate|unique/i.test(error.message)] *)

Definition to_lower (c : ascii) : ascii :=
  let n := nat_of_ascii c in
  if ((65 <=? n) && (n <=? 90))%nat then ascii_of_nat (n + 32) else c.

Fixpoint lower (s : string) : string :=
  match s with
  | EmptyString => EmptyString
  | String c s' => String (to_lower c) (lower s')
  end.

Fixpoint contains (pat s : string) : bool :=
  String.prefix pat s ||
  match s with
  | EmptyString => false
  | String _ s' => contains pat s'
  end.

(** [/duplicate|unique/i.test(msg)] *)
Definition test_duplicate_unique (msg : string) : bool :=
  contains "duplicate" (lower msg) || contains "unique" (lower msg).

Definition is_duplicate_error (error : js_error) : bool :=
  bool_decide (err_code error = Some "23505")
  || test_duplicate_unique (err_message error).

(** ** The processes and their environment *)

(** An entry of a Bunny directory listing. *)
Record bunny_item := mk_item {
  ObjectName : string;
  IsDirectory : bool;
  Length : Z;
  ContentType : string
}.

(** [config.js] *)
Record config := mk_config {
  BUNNY_BASE : string;
  SMALL_FILE_THRESHOLD_BYTES : Z;
  CONCURRENCY : Z;
  MAX_RETRIES : Z;
  BATCH_SIZE : Z
}.

Inductive timer_callback := cb_heartbeat | cb_reclaim.

#[global] Instance timer_callback_eq_dec : EqDecision timer_callback.
Proof. solve_decision. Defined.

(** A timer registered with [setInterval]. *)
Record timer := mk_timer {
  t_handle : nat;
  t_callback : timer_callback;
  t_period : Z
}.

(** What a process does that the outside can observe. *)
Inductive event :=
| ev_rpc (fn : string)
| ev_insert (table : string)
| ev_update (table : string)
| ev_select (table : string)
| ev_sleep (ms : Z)
| ev_list_dir (path : string)
| ev_transfer (path : string) (response_type : string).

#[global] Instance event_eq_dec : EqDecision event.
Proof. solve_decision. Defined.

Definition is_sleep (e : event) : bool :=
  match e with ev_sleep _ => true | _ => false end.

Definition is_rpc (fn : string) (e : event) : bool :=
  match e with ev_rpc f => String.eqb f fn | _ => false end.

Definition is_insert (table : string) (e : event) : bool :=
  match e with ev_insert t => String.eqb t table | _ => false end.

Definition is_transfer (e : event) : bool :=
  match e with ev_transfer _ _ => true | _ => false end.

(** How many events of a trace satisfy a test. *)
Definition count (p : event → bool) (evs : list event) : nat :=
  length (filter (λ e, p e = true) evs).

(** The state a process runs in: the store, the clock, what the environment
    will answer (a failure injected into the n-th store request, the
    listings of the source, the outcome of the successive transfers), the
    timers and the module-level variables of the process, and the trace of
    what it did so far. *)
Record world := mk_world {
  db : store;
  now : timestamp;
  faults : list (option js_error);
  source : string → js_error + list bunny_item;
  transfers : list (option js_error);
  timers : list timer;
  HEARTBEAT_TIMER : option nat;
  CURRENT_JOB : option job;
  trace : list event
}.

Definition with_db (s : store) (w : world) : world :=
  mk_world s (now w) (faults w) (source w) (transfers w) (timers w)
    (HEARTBEAT_TIMER w) (CURRENT_JOB w) (trace w).
Definition with_now (t : timestamp) (w : world) : world :=
  mk_world (db w) t (faults w) (source w) (transfers w) (timers w)
    (HEARTBEAT_TIMER w) (CURRENT_JOB w) (trace w).
Definition with_faults (f : list (option js_error)) (w : world) : world :=
  mk_world (db w) (now w) f (source w) (transfers w) (timers w)
    (HEARTBEAT_TIMER w) (CURRENT_JOB w) (trace w).
Definition with_transfers (t : list (option js_error)) (w : world) : world :=
  mk_world (db w) (now w) (faults w) (source w) t (timers w)
    (HEARTBEAT_TIMER w) (CURRENT_JOB w) (trace w).
Definition with_timers (t : list timer) (w : world) : world :=
  mk_world (db w) (now w) (faults w) (source w) (transfers w) t
    (HEARTBEAT_TIMER w) (CURRENT_JOB w) (trace w).
Definition with_heartbeat_timer (h : option nat) (w : world) : world :=
  mk_world (db w) (now w) (faults w) (source w) (transfers w) (timers w)
    h (CURRENT_JOB w) (trace w).
Definition with_current_job (j : option job) (w : world) : world :=
  mk_world (db w) (now w) (faults w) (source w) (transfers w) (timers w)
    (HEARTBEAT_TIMER w) j (trace w).
Definition emit (e : event) (w : world) : world :=
  mk_world (db w) (now w) (faults w) (source w) (transfers w) (timers w)
    (HEARTBEAT_TIMER w) (CURRENT_JOB w) (trace w ++ [e]).

(** *** Computations that may throw *)

Inductive outcome (A : Type) :=
| Ret (a : A)
| Throw (e : js_error).
Arguments Ret {A} a.
Arguments Throw {A} e.

Definition M (A : Type) : Type := world → outcome A * world.

Definition ret {A} (a : A) : M A := λ w, (Ret a, w).
Definition throw {A} (e : js_error) : M A := λ w, (Throw e, w).
Definition bind {A B} (m : M A) (k : A → M B) : M B :=
  λ w, match m w with
       | (Ret a, w') => k a w'
       | (Throw e, w') => (Throw e, w')
       end.
(** [try { m } catch (e) { handler e }] *)
Definition try_catch {A} (m : M A) (handler : js_error → M A) : M A :=
  λ w, match m w with
       | (Ret a, w') => (Ret a, w')
       | (Throw e, w') => handler e w'
       end.

Declare Scope js_scope.
Delimit Scope js_scope with js.
Notation "x <- m ;; k" := (bind m (λ x, k))
  (at level 100, m at next level, right associativity) : js_scope.
Notation "m ;;; k" := (bind m (λ _, k))
  (at level 100, right associativity) : js_scope.
Local Open Scope js_scope.

Definition get {A} (f : world → A) : M A := λ w, (Ret (f w), w).
Definition modify (f : world → world) : M unit := λ w, (Ret tt, f w).

(** One request to the store (a [supabase.from(..)] query or a
    [supabase.rpc]): the environment either fails it, and the store is left
    as it was, or lets the store run it.  The answer is the [{ data, error }]
    of supabase-js, never an exception. *)
Definition request {A} (e : event)
    (run : timestamp → store → (js_error + A) * store) : M (js_error + A) :=
  λ w, let w1 := emit e w in
       match faults w1 with
       | Some err :: rest => (Ret (inl err), with_faults rest w1)
       | injected =>
           let '(r, s) := run (now w1) (db w1) in
           (Ret r, with_db s (with_faults (tail injected) w1))
       end.

(** [if (error) throw error; return data] *)
Definition or_throw {A} (r : js_error + A) : M A :=
  match r with
  | inl error => throw error
  | inr data => ret data
  end.

(** [await sleep(ms)] *)
Definition sleep (ms : Z) : M unit :=
  modify (λ w, with_now (now w + ms) (emit (ev_sleep ms) w)).

Definition type_error (msg : string) : js_error := mk_error None msg.

(** [s || null] *)
Definition or_null (s : string) : option string :=
  if String.eqb s "" then None else Some s.

(** [setInterval(callback, ms)] and [clearInterval(handle)] *)
Definition setInterval (cb : timer_callback) (ms : Z) : M nat :=
  λ w, let h := S (foldr Nat.max 0%nat (t_handle <$> timers w)) in
       (Ret h, with_timers (timers w ++ [mk_timer h cb ms]) w).

Definition clearInterval (h : nat) : M unit :=
  modify (λ w, with_timers (filter (λ t, t_handle t ≠ h) (timers w)) w).

(** [for (const x of xs) { acc = body(x, acc) }] *)
Fixpoint for_of {A B} (xs : list A) (body : A → B → M B) (acc : B) : M B :=
  match xs with
  | [] => ret acc
  | x :: rest => acc' <- body x acc ;; for_of rest body acc'
  end.

(** [while (true) { .. }]: the body says whether it reached [continue] (or
    its end) or [break].  The loop is cut after [fuel] iterations; it
    answers whether it left by [break]. *)
Inductive loop_ctl := Continue | Break.

Fixpoint while_true (fuel : nat) (body : M loop_ctl) : M bool :=
  match fuel with
  | O => ret false
  | S n => c <- body ;;
           match c with
           | Break => ret true
           | Continue => while_true n body
           end
  end.

(** *** Plain writes to the tables *)

Definition set_jobs (t : list job) (s : store) : store :=
  mk_store t (migration_progress s) (scan_queue s) (bunny_file_map s) (migration_logs s).
Definition set_progress (t : list progress) (s : store) : store :=
  mk_store (migration_jobs s) t (scan_queue s) (bunny_file_map s) (migration_logs s).
Definition set_scan_queue (t : list scan_row) (s : store) : store :=
  mk_store (migration_jobs s) (migration_progress s) t (bunny_file_map s) (migration_logs s).
Definition set_bunny_file_map (t : list file_row) (s : store) : store :=
  mk_store (migration_jobs s) (migration_progress s) (scan_queue s) t (migration_logs s).
Definition set_logs (t : list log_row) (s : store) : store :=
  mk_store (migration_jobs s) (migration_progress s) (scan_queue s) (bunny_file_map s) t.

Definition set_job_status (st : job_status) (j : job) : job :=
  mk_job (job_id j) (kind j) st (note j) (created_at j) (worker_id j)
    (last_heartbeat j) (ended_at j).
Definition set_job_ended (st : job_status) (t : timestamp) (j : job) : job :=
  mk_job (job_id j) (kind j) st (note j) (created_at j) (worker_id j)
    (last_heartbeat j) (Some t).
Definition set_job_heartbeat (t : timestamp) (j : job) : job :=
  mk_job (job_id j) (kind j) (status j) (note j) (created_at j) (worker_id j)
    (Some t) (ended_at j).

(** [UPDATE t SET .. WHERE id = ..] *)
Definition update_where {R} (row_id : R → uuid) (id : uuid) (f : R → R)
    (tbl : list R) : list R :=
  (λ r, if bool_decide (row_id r = id) then f r else r) <$> tbl.

Definition set_scan_status (st : scan_status) (q : scan_row) : scan_row :=
  mk_scan (sq_id q) (sq_path q) (sq_parent_path q) st (sq_claimed_at q).

(** [{ status, claimed_at: null, claimed_by: null }] *)
Definition set_file_final (st : file_status) (b : file_row) : file_row :=
  mk_file (bf_id b) (bf_path b) (bf_is_dir b) (bf_parent_path b) (bf_size b)
    (bf_mime_type b) (bf_bunny_url b) st None None.

Definition set_file_status (st : file_status) (b : file_row) : file_row :=
  mk_file (bf_id b) (bf_path b) (bf_is_dir b) (bf_parent_path b) (bf_size b)
    (bf_mime_type b) (bf_bunny_url b) st (bf_claimed_at b) (bf_claimed_by b).

(** INSERT INTO migration_progress (job_id), under its primary key *)
Definition insert_progress (now : timestamp) (id : uuid) (tbl : list progress)
  : option js_error * list progress :=
  if bool_decide (id ∈ p_job_id <$> tbl)
  then (Some (unique_violation "migration_progress_pkey"), tbl)
  else (None, tbl ++ [mk_progress id 0 0 0 0 0 now]).

(** [.select('*').eq('id', jobId).single()] *)
Definition no_single_row : js_error :=
  mk_error (Some "PGRST116") "JSON object requested, multiple (or no) rows returned".

Definition select_job (id : uuid) (tbl : list job) : js_error + job :=
  match filter (λ j, job_id j = id) tbl with
  | [j] => inr j
  | _ => inl no_single_row
  end.

(** *** The store functions the scripts call that [db_setup.sql] does not
    define *)

Definition minutes (m : Z) : Z := m * 60000.

(** Modelled from the spec: [touch_job(_job_id)], the heartbeat of section
    4.4, "updates last_heartbeat" of the job. *)
Definition touch_job (now : timestamp) (_job_id : uuid) (tbl : list job) : list job :=
  update_where job_id _job_id (set_job_heartbeat now) tbl.

(** Modelled from the spec: [reap_stale_jobs(_kind, minutes_threshold)],
    section 4.4: "scans for jobs of a given kind still marked running whose
    heartbeat is older than a staleness threshold and flips them to failed". *)
Definition stale_job (now : timestamp) (_kind : job_kind) (threshold : Z) (j : job) : bool :=
  bool_decide (kind j = _kind) && bool_decide (status j = running) &&
  match last_heartbeat j with
  | Some t => minutes threshold <? now - t
  | None => false
  end.

Definition reap_stale_jobs (now : timestamp) (_kind : job_kind) (threshold : Z)
    (tbl : list job) : list job :=
  (λ j, if stale_job now _kind threshold j then set_job_status failed j else j) <$> tbl.

(** Modelled from the spec: [reclaim_inprogress_to_pending(minutes_threshold)],
    section 4.4: "a reaper for in-progress inventory claims whose claim
    timestamp exceeds a threshold resets them to pending". *)
Definition stale_claim (now : timestamp) (threshold : Z) (b : file_row) : bool :=
  bool_decide (bf_status b = in_progress) &&
  match bf_claimed_at b with
  | Some t => minutes threshold <? now - t
  | None => false
  end.

Definition reclaim_inprogress_to_pending (now : timestamp) (threshold : Z)
    (tbl : list file_row) : list file_row :=
  (λ b, if stale_claim now threshold b then set_file_status pending b else b) <$> tbl.

(** ** The directory crawler, [discover-files.js] *)

Module Discover.

Definition HEARTBEAT_MS : Z := 15000.
Definition STALE_MINUTES : Z := 2.
Definition ALLOW_PARALLEL_DISCOVER : bool := false.

Section Crawler.
Variable cfg : config.
Variable WORKER_ID : uuid.

Definition insertDir (path : string) (parent_path : option string) : M unit :=
  r <- request (ev_insert "scan_queue") (λ _ s,
         let '(e, t) := insert_scan_queue path parent_path queued (scan_queue s) in
         (from_option inl (inr tt) e, set_scan_queue t s)) ;;
  match r with
  | inl error => if is_duplicate_error error then ret tt else throw error
  | inr _ => ret tt
  end.

Definition insertFileOrDir (entry : file_entry) : M unit :=
  r <- request (ev_insert "bunny_file_map") (λ _ s,
         let '(e, t) := insert_bunny_file_map entry (bunny_file_map s) in
         (from_option inl (inr tt) e, set_bunny_file_map t s)) ;;
  match r with
  | inl error => if is_duplicate_error error then ret tt else throw error
  | inr _ => ret tt
  end.

Definition ensureRootQueued : M unit := insertDir "/" None.

Definition createJob (note : string) : M job :=
  r <- request (ev_insert "migration_jobs") (λ now s,
         let j := mk_job (fresh_id job_id (migration_jobs s)) discover running
                    note now (Some WORKER_ID) (Some now) None in
         (inr j, set_jobs (migration_jobs s ++ [j]) s)) ;;
  data <- or_throw r ;;
  p <- request (ev_insert "migration_progress") (λ now s,
         let '(e, t) := insert_progress now (job_id data) (migration_progress s) in
         (from_option inl (inr tt) e, set_progress t s)) ;;
  match p with
  | inl pErr => if is_duplicate_error pErr then ret data else throw pErr
  | inr _ => ret data
  end.

Definition getJob (jobId : uuid) : M job :=
  r <- request (ev_select "migration_jobs") (λ _ s,
         (select_job jobId (migration_jobs s), s)) ;;
  or_throw r.

(** An error of the update is logged, not thrown. *)
Definition markJob (st : job_status) : M unit :=
  cur <- get CURRENT_JOB ;;
  match cur with
  | None => ret tt
  | Some j =>
      _ <- request (ev_update "migration_jobs") (λ now s,
             (inr tt, set_jobs (update_where job_id (job_id j)
                                  (set_job_ended st now) (migration_jobs s)) s)) ;;
      ret tt
  end.

(** An error of [touch_job] is logged, not thrown. *)
Definition heartbeat : M unit :=
  cur <- get CURRENT_JOB ;;
  match cur with
  | None => ret tt
  | Some j =>
      _ <- request (ev_rpc "touch_job") (λ now s,
             (inr tt, set_jobs (touch_job now (job_id j) (migration_jobs s)) s)) ;;
      ret tt
  end.

Definition startHeartbeat : M unit :=
  h <- get HEARTBEAT_TIMER ;;
  match h with Some t => clearInterval t | None => ret tt end ;;;
  t <- setInterval cb_heartbeat HEARTBEAT_MS ;;
  modify (with_heartbeat_timer (Some t)).

Definition stopHeartbeat : M unit :=
  h <- get HEARTBEAT_TIMER ;;
  match h with Some t => clearInterval t | None => ret tt end ;;;
  modify (with_heartbeat_timer None).

(** An error of [reap_stale_jobs] is logged, not thrown ("not fatal"). *)
Definition reapStale : M unit :=
  _ <- request (ev_rpc "reap_stale_jobs") (λ now s,
         (inr tt, set_jobs (reap_stale_jobs now discover STALE_MINUTES
                              (migration_jobs s)) s)) ;;
  ret tt.

(** [.order('created_at', { ascending: false })] *)
Definition newest_first (a b : job) : Prop := created_at b ≤ created_at a.

#[global] Instance newest_first_dec a b : Decision (newest_first a b).
Proof. unfold newest_first. apply _. Defined.

Definition running_discover (j : job) : Prop :=
  kind j = discover ∧ status j = running.

#[global] Instance running_discover_dec j : Decision (running_discover j).
Proof. unfold running_discover. apply _. Defined.

Definition select_running_discover (tbl : list job) : list job :=
  take 1 (merge_sort newest_first (filter running_discover tbl)).

Definition findHealthyRunningJob : M (option job) :=
  r <- request (ev_select "migration_jobs") (λ _ s,
         (inr (select_running_discover (migration_jobs s)), s)) ;;
  data <- or_throw r ;;
  match data with
  | [] => ret None
  | j :: _ =>
      let last := default (created_at j) (last_heartbeat j) in
      t <- get now ;;
      (* ageMin = (Date.now() - last) / 60000; ageMin <= STALE_MINUTES *)
      if bool_decide (t - last ≤ minutes STALE_MINUTES) then ret (Some j) else ret None
  end.

Definition claimNextDir : M (option claimed_dir) :=
  r <- request (ev_rpc "claim_next_dir") (λ now s,
         let '(rows, t) := claim_next_dir now (scan_queue s) in
         (inr rows, set_scan_queue t s)) ;;
  data <- or_throw r ;;
  ret (head data).

Definition markDirDone (id : uuid) (st : scan_status) : M unit :=
  r <- request (ev_update "scan_queue") (λ _ s,
         (inr tt, set_scan_queue (update_where sq_id id (set_scan_status st)
                                    (scan_queue s)) s)) ;;
  or_throw r.

Definition bumpProgress (jobId : uuid) (d_total_files d_total_bytes d_scanned_dirs : Z)
  : M unit :=
  r <- request (ev_rpc "increment_progress") (λ now s,
         (inr tt, set_progress (increment_progress now jobId d_total_bytes
                                  d_total_files d_scanned_dirs 0 0
                                  (migration_progress s)) s)) ;;
  or_throw r.

(** [listDir(path)] of [lib/bunny.js]: the listing, or the exception of
    the HTTP client. *)
Definition listDir (path : string) : M (list bunny_item) :=
  λ w, match source w path with
       | inl e => (Throw e, emit (ev_list_dir path) w)
       | inr items => (Ret items, emit (ev_list_dir path) w)
       end.

(** The body of [for (const item of items)]; the accumulator is
    [(filesDelta, bytesDelta)]. *)
Definition scan_item (path : string) (item : bunny_item) (acc : Z * Z) : M (Z * Z) :=
  let isDir := IsDirectory item in
  let itemPath := path +:+ ObjectName item +:+ (if isDir then "/" else "") in
  let entry := mk_entry itemPath isDir (Some path)
                 (if isDir then None else Some (Length item))
                 (if isDir then None else Some (ContentType item))
                 (if isDir then None else Some (BUNNY_BASE cfg +:+ itemPath))
                 pending in
  insertFileOrDir entry ;;;
  if isDir
  then insertDir itemPath (Some path) ;;; ret acc
  else ret (acc.1 + 1, acc.2 + Length item).

(** The [try { .. } catch (e) { .. }] of the main loop. *)
Definition scan_dir (cur : job) (claim : claimed_dir) : M unit :=
  try_catch
    (items <- listDir (cd_path claim) ;;
     deltas <- for_of items (scan_item (cd_path claim)) (0, 0) ;;
     bumpProgress (job_id cur) deltas.1 deltas.2 1 ;;;
     markDirDone (cd_id claim) done)
    (λ _, markDirDone (cd_id claim) scan_failed).

Definition is_terminal (st : job_status) : bool :=
  bool_decide (st ∈ [stopped; failed; completed]).

(** One turn of the [while (true)] of [run]. *)
Definition iteration : M loop_ctl :=
  heartbeat ;;;
  cur <- get CURRENT_JOB ;;
  match cur with
  | None => throw (type_error "Cannot read properties of null (reading 'id')")
  | Some cur =>
      fresh <- getJob (job_id cur) ;;
      if bool_decide (status fresh = paused) then sleep 2000 ;;; ret Continue
      else if is_terminal (status fresh) then ret Break
      else
        claim <- claimNextDir ;;
        match claim with
        | None => markJob completed ;;; ret Break
        | Some c => scan_dir cur c ;;; ret Continue
        end
  end.

(** [run] up to the main loop: reap, seed the root, choose the job. *)
Definition choose_job : M unit :=
  if negb ALLOW_PARALLEL_DISCOVER then
    healthy <- findHealthyRunningJob ;;
    match healthy with
    | Some j => modify (with_current_job (Some j))
    | None => j <- createJob "Concurrent-safe discovery" ;;
              modify (with_current_job (Some j))
    end
  else
    j <- createJob "Concurrent-safe discovery (parallel)" ;;
    modify (with_current_job (Some j)).

Definition start : M unit :=
  reapStale ;;;
  ensureRootQueued ;;;
  choose_job ;;;
  startHeartbeat.

(** The job [findHealthyRunningJob] looks at, said without the query:
    the running discover job that is newer than every other one, or
    none when no discover job is running. *)
Definition newest_running_discover (tbl : list job) (o : option job) : Prop :=
  match o with
  | Some j =>
      j ∈ tbl ∧ running_discover j ∧
      ∀ j', j' ∈ tbl → running_discover j' → j' ≠ j → created_at j' < created_at j
  | None => ∀ j, j ∈ tbl → ¬ running_discover j
  end.

(** Last heartbeat, or creation when there is none, at most
    [STALE_MINUTES] old. *)
Definition healthy (t : timestamp) (j : job) : Prop :=
  t - default (created_at j) (last_heartbeat j) ≤ minutes STALE_MINUTES.

#[global] Instance healthy_dec t j : Decision (healthy t j).
Proof. unfold healthy. apply _. Defined.

Definition run (fuel : nat) : M bool :=
  start ;;;
  left <- while_true fuel iteration ;;
  stopHeartbeat ;;;
  ret left.

(** [run().catch(..)]: a fault that escapes [run] stops the heartbeat and
    marks the job failed. *)
Definition main (fuel : nat) : M bool :=
  try_catch (run fuel)
    (λ e, stopHeartbeat ;;; markJob failed ;;; throw e).
End Crawler.
End Discover.

(** ** The file migration worker, [migrate-files.js] *)

Module Migrate.

Section Worker.
Variable cfg : config.
Variable WORKER_ID : uuid.

(** The insert leaves [status] to its default 'running' and writes no
    worker identity and no heartbeat; the result of the progress insert
    is not looked at. *)
Definition createJob (note : string) : M job :=
  r <- request (ev_insert "migration_jobs") (λ now s,
         let j := mk_job (fresh_id job_id (migration_jobs s)) migrate running
                    note now None None None in
         (inr j, set_jobs (migration_jobs s ++ [j]) s)) ;;
  data <- or_throw r ;;
  _ <- request (ev_insert "migration_progress") (λ now s,
         let '(e, t) := insert_progress now (job_id data) (migration_progress s) in
         (from_option inl (inr tt) e, set_progress t s)) ;;
  ret data.

Definition getJob (jobId : uuid) : M job :=
  r <- request (ev_select "migration_jobs") (λ _ s,
         (select_job jobId (migration_jobs s), s)) ;;
  or_throw r.

Definition negative_limit : js_error :=
  mk_error (Some "2201W") "LIMIT must not be negative".

(** The call [claim_files_to_migrate(batch_size, worker_id)] as the store
    runs it: the function of [db_setup.sql] has the single parameter
    [batch_size], nothing in it reads [worker_id]. *)
Definition rpc_claim_files_to_migrate (batch_size : Z) (worker_id : uuid)
    (s : store) : (js_error + list claimed_file) * store :=
  if batch_size <? 0 then (inl negative_limit, s)
  else
    let '(rows, t) := claim_files_to_migrate (Z.to_nat batch_size)
                        (bunny_file_map s) in
    (inr rows, set_bunny_file_map t s).

Definition claimBatch (batchSize : Z) : M (list claimed_file) :=
  r <- request (ev_rpc "claim_files_to_migrate") (λ _ s,
         rpc_claim_files_to_migrate batchSize WORKER_ID s) ;;
  or_throw r.

Definition logResult (file_id job_id : uuid) (st : log_status) (attempts : Z)
    (bunny_path supabase_path : string) (time_taken : Z)
    (error_msg : option string) : M unit :=
  r <- request (ev_insert "migration_logs") (λ _ s,
         (inr tt, set_logs (migration_logs s ++
                    [mk_log (fresh_id lg_id (migration_logs s)) file_id job_id st
                       error_msg attempts bunny_path supabase_path time_taken]) s)) ;;
  or_throw r.

Definition finalizeFile (id : uuid) (st : file_status) : M unit :=
  r <- request (ev_update "bunny_file_map") (λ _ s,
         (inr tt, set_bunny_file_map (update_where bf_id id (set_file_final st)
                                        (bunny_file_map s)) s)) ;;
  or_throw r.

Definition incProgress (job_id : uuid) (migrated failed : Z) : M unit :=
  r <- request (ev_rpc "increment_progress") (λ now s,
         (inr tt, set_progress (increment_progress now job_id 0 0 0 migrated failed
                                  (migration_progress s)) s)) ;;
  or_throw r.

(** [download] followed by [uploadSmall] or [uploadStream]: the
    environment says whether this attempt goes through. *)
Definition transfer (path : string) (responseType : string) : M unit :=
  λ w, let w1 := emit (ev_transfer path responseType) w in
       match transfers w1 with
       | Some e :: rest => (Throw e, with_transfers rest w1)
       | outcomes => (Ret tt, with_transfers (tail outcomes) w1)
       end.

(** [file.path.startsWith('/') ? file.path.slice(1) : file.path] *)
Definition dest_path (path : string) : string :=
  match path with
  | String "/" rest => rest
  | _ => path
  end.

(** [file.size > SMALL_FILE_THRESHOLD_BYTES ? 'stream' : 'arraybuffer'] *)
Definition response_type (file : claimed_file) : string :=
  match cf_size file with
  | Some size => if SMALL_FILE_THRESHOLD_BYTES cfg <? size then "stream" else "arraybuffer"
  | None => "arraybuffer"
  end.

(** The [while (attempt < MAX_RETRIES)] of [migrateOne]; [fuel] bounds
    the turns and [attempt] is the counter on entry of the turn. *)
Fixpoint attempts (fuel : nat) (job : job) (file : claimed_file)
    (start attempt : Z) : M unit :=
  match fuel with
  | O => ret tt
  | S fuel' =>
      if attempt <? MAX_RETRIES cfg then
        let attempt := attempt + 1 in
        let destPath := dest_path (cf_path file) in
        r <- try_catch
               (transfer (cf_path file) (response_type file) ;;;
                t <- get now ;;
                logResult (cf_id file) (job_id job) log_success attempt
                  (cf_path file) destPath (t - start) None ;;;
                finalizeFile (cf_id file) migrated ;;;
                incProgress (job_id job) 1 0 ;;;
                ret Break)
               (λ e,
                  let final := MAX_RETRIES cfg <=? attempt in
                  if final then
                    t <- get now ;;
                    logResult (cf_id file) (job_id job) log_failed attempt
                      (cf_path file) destPath (t - start) (or_null (err_message e)) ;;;
                    finalizeFile (cf_id file) file_failed ;;;
                    incProgress (job_id job) 0 1 ;;;
                    ret Break
                  else
                    let backoff := 1000 * attempt * attempt in
                    sleep backoff ;;;
                    ret Continue) ;;
        match r with
        | Break => ret tt
        | Continue => attempts fuel' job file start attempt
        end
      else ret tt
  end.

Definition migrateOne (job : job) (file : claimed_file) : M unit :=
  start <- get now ;;
  attempts (Z.to_nat (MAX_RETRIES cfg)) job file start 0.

(** [await Promise.all(batch.map(f => limit(() => migrateOne(job, f))))],
    in the schedule that runs the transfers one after the other in
    batch order. *)
Definition migrate_batch (job : job) (batch : list claimed_file) : M unit :=
  for_of batch (λ f _, migrateOne job f) tt.

Definition is_terminal (st : job_status) : bool :=
  bool_decide (st ∈ [stopped; failed; completed]).

(** One turn of the [while (true)] of [run]. *)
Definition iteration (job : job) : M loop_ctl :=
  fresh <- getJob (job_id job) ;;
  if bool_decide (status fresh = paused) then sleep 2000 ;;; ret Continue
  else if is_terminal (status fresh) then ret Break
  else
    batch <- claimBatch (BATCH_SIZE cfg) ;;
    match batch with
    | [] =>
        sleep 2000 ;;;
        again <- claimBatch (BATCH_SIZE cfg) ;;
        match again with
        | [] =>
            _ <- request (ev_update "migration_jobs") (λ _ s,
                   (inr tt, set_jobs (update_where job_id (job_id job)
                                        (set_job_status completed)
                                        (migration_jobs s)) s)) ;;
            ret Break
        | _ => migrate_batch job again ;;; ret Continue
        end
    | _ => migrate_batch job batch ;;; ret Continue
    end.

(** The callback of the reclaim timer: an exception of the call is
    logged, its answer is not looked at. *)
Definition reclaim : M unit :=
  _ <- request (ev_rpc "reclaim_inprogress_to_pending") (λ now s,
         (inr tt, set_bunny_file_map (reclaim_inprogress_to_pending now 30
                                        (bunny_file_map s)) s)) ;;
  ret tt.

Definition start : M job :=
  job <- createJob "Concurrent migration worker" ;;
  _ <- setInterval cb_reclaim (5 * 60 * 1000) ;;
  ret job.

Definition run (fuel : nat) : M bool :=
  job <- start ;;
  while_true fuel (iteration job).
End Worker.
End Migrate.

(** ** Timers

    What a timer registered by either script calls when it fires. *)
Definition run_callback (cb : timer_callback) : M unit :=
  match cb with
  | cb_heartbeat => Discover.heartbeat
  | cb_reclaim => Migrate.reclaim
  end.

(** ** Relations between the state before and after a computation *)

(** The part of the state that belongs to the process itself, its timers
    and its module-level variables, is as it was. *)
Definition same_process (w w' : world) : Prop :=
  timers w' = timers w ∧ HEARTBEAT_TIMER w' = HEARTBEAT_TIMER w ∧
  CURRENT_JOB w' = CURRENT_JOB w.

(** The trace has only been added to. *)
Definition trace_extends (w w' : world) : Prop :=
  ∃ evs, trace w' = trace w ++ evs.

(** No [touch_job] request has been made, and every timer that was
    registered since calls the reaper of stale claims. *)
Definition no_heartbeat (w w' : world) : Prop :=
  count (is_rpc "touch_job") (trace w') = count (is_rpc "touch_job") (trace w) ∧
  ∀ t, t ∈ timers w' → t ∈ timers w ∨ t_callback t = cb_reclaim.

(** A computation that keeps a relation between the state it starts in and
    the state it ends in, whatever its outcome. *)
Definition preserves (R : relation world) {A} (m : M A) : Prop :=
  ∀ w, R w (m w).2.

(** ** Concurrent callers of a claim statement

    Several transactions run the same claim statement against one table.
    A transaction runs its statement in two steps, between which the other
    transactions may take theirs: the locking select, which skips the rows
    another transaction holds locked and locks the rows it returns, and the
    commit, which writes the update of the rows it locked, releases the
    locks and hands the rows to the caller.  A row version written by an
    uncommitted transaction is not visible to the others, but its lock is. *)

Module Concurrent.

Definition txn := nat.

Inductive label (Arg : Type) :=
| begin_claim (t : txn) (a : Arg)
| commit_claim (t : txn) (now : timestamp).
Arguments begin_claim {Arg} t a.
Arguments commit_claim {Arg} t now.

Section Interleaving.
Context {R Arg : Type}.
Variable row_id : R → uuid.
Variable row_path : R → string.
Variable claimable : R → bool.
Variable flip : timestamp → R → R.
Variable limit : Arg → nat.

Record cstate := mk_cstate {
  table : list R;
  locks : list (txn * R);
  received : list (txn * uuid)
}.

Definition locked_ids (s : cstate) : list uuid := row_id <$> (locks s).*2.

Definition held_by (t : txn) (s : cstate) : list R :=
  (filter (λ p, p.1 = t) (locks s)).*2.

Definition step (l : label Arg) (s : cstate) : option cstate :=
  match l with
  | begin_claim t a =>
      if bool_decide (t ∈ (locks s).*1) then None
      else
        let cte := select_skip_locked row_id row_path claimable
                     (locked_ids s) (limit a) (table s) in
        Some (mk_cstate (table s) (locks s ++ ((λ r, (t, r)) <$> cte)) (received s))
  | commit_claim t now =>
      let cte := held_by t s in
      Some (mk_cstate (update_from_cte row_id (flip now) cte (table s))
              (filter (λ p, p.1 ≠ t) (locks s))
              (received s ++ ((λ r, (t, row_id r)) <$> cte)))
  end.

Fixpoint exec (sched : list (label Arg)) (s : cstate) : option cstate :=
  match sched with
  | [] => Some s
  | l :: rest => s' ← step l s; exec rest s'
  end.

Definition init (tbl : list R) : cstate := mk_cstate tbl [] [].
End Interleaving.

Definition dir_exec := exec sq_id sq_path is_queued set_claimed (λ _ : unit, 1%nat).
Definition file_exec := exec bf_id bf_path is_pending_file (λ _, set_scanned) (λ n : nat, n).
End Concurrent.


(** ** Sample data *)

Module Sample.
Import Concurrent.

Definition cfg : config :=
  mk_config "https://ny.storage.bunnycdn.com/zone" (25 * 1024 * 1024) 5 3 1000.

(** The source: the root holds a file and two directories, the listing
    of [/a/] fails, every other directory is empty. *)
Definition listing (path : string) : js_error + list bunny_item :=
  if String.eqb path "/" then
    inr [mk_item "a.txt" false 10 "text/plain"; mk_item "a" true 0 "";
         mk_item "b" true 0 ""]
  else if String.eqb path "/a/" then
    inl (mk_error None "Request failed with status code 500")
  else inr [].

Definition discover_job (st : job_status) : job :=
  mk_job 1 discover st "Concurrent-safe discovery" 0 (Some 9%positive) (Some 0) None.

Definition migrate_job (st : job_status) : job :=
  mk_job 2 migrate st "Concurrent migration worker" 0 None None None.

Definition counters : list progress :=
  [mk_progress 1 0 0 0 0 0 0; mk_progress 2 0 0 0 0 0 0].

Definition frontier : list scan_row :=
  [ mk_scan 1 "/" None done None;
    mk_scan 2 "/b/" (Some "/") queued None;
    mk_scan 3 "/a/" (Some "/") queued None ].

Definition inventory : list file_row :=
  [ mk_file 1 "/b.txt" false (Some "/") (Some 10) None None pending None None;
    mk_file 2 "/a.txt" false (Some "/") (Some 20) None None pending None None;
    mk_file 3 "/c/" true (Some "/") None None None pending None None;
    mk_file 4 "/0.txt" false (Some "/") (Some 5) None None migrated None None;
    mk_file 5 "/d.txt" false (Some "/") (Some 7) None None pending None None ].

(** The frontier while another crawler is still listing the root: the
    root is claimed and its children are not inserted yet. *)
Definition busy_frontier : list scan_row :=
  [ mk_scan 1 "/" None claimed (Some 40) ].

Definition store_of (jobs : list job) : store :=
  mk_store jobs counters frontier inventory [].

(** A process at time [t], with the store answering every request. *)
Definition world_of (s : store) (t : timestamp) (cur : option job) : world :=
  mk_world s t [] listing [] [] None cur [].

(** Two crawlers whose claims overlap, then a third claim. *)
Definition dir_schedule : list (label unit) :=
  [ begin_claim 1%nat (); begin_claim 2%nat ();
    commit_claim 2%nat 100; commit_claim 1%nat 101;
    begin_claim 3%nat (); commit_claim 3%nat 102 ].

(** Two workers whose batch claims overlap. *)
Definition file_schedule : list (label nat) :=
  [ begin_claim 1%nat 1%nat; begin_claim 2%nat 5%nat;
    commit_claim 2%nat 100; commit_claim 1%nat 101 ].
End Sample.

From Stdlib Require OrderedTypeEx.


(** ** The control surface, [control.js]

    A handler answers with a status code and a body; it never throws.  The
    [:id] of a route is taken to be a well-formed UUID. *)

Module Control.

Inductive payload :=
| ok_true
| error_body (msg : string)
| jobs_body (rows : list job)
| progress_body (row : progress).

Record response := mk_response {
  http_status : Z;
  body : payload
}.

(** The text of the [kind] and [status] columns. *)
Definition kind_text (k : job_kind) : string :=
  match k with discover => "discover" | migrate => "migrate" end.

Definition status_text (st : job_status) : string :=
  match st with
  | running => "running" | paused => "paused" | stopped => "stopped"
  | completed => "completed" | failed => "failed"
  end.

Definition file_status_text (st : file_status) : string :=
  match st with
  | pending => "pending" | scanned => "scanned" | migrated => "migrated"
  | file_failed => "failed" | in_progress => "in_progress"
  end.

(** [['running', 'paused', 'stopped'].includes(status)] *)
Definition operator_status (status : string) : option job_status :=
  if String.eqb status "running" then Some running
  else if String.eqb status "paused" then Some paused
  else if String.eqb status "stopped" then Some stopped
  else None.

(** [res.status(500).json({ error: error.message })] or [res.json(ok)] *)
Definition answer {A} (r : js_error + A) (ok : A → payload) : M response :=
  match r with
  | inl error => ret (mk_response 500 (error_body (err_message error)))
  | inr data => ret (mk_response 200 (ok data))
  end.

(** [POST /jobs/:id/status] *)
Definition post_job_status (id : uuid) (status : string) : M response :=
  match operator_status status with
  | None => ret (mk_response 400 (error_body "Invalid status"))
  | Some st =>
      r <- request (ev_update "migration_jobs") (λ _ s,
             (inr tt, set_jobs (update_where job_id id (set_job_status st)
                                  (migration_jobs s)) s)) ;;
      answer r (λ _, ok_true)
  end.

(** [POST /files/:id/retry] *)
Definition post_file_retry (id : uuid) : M response :=
  r <- request (ev_update "bunny_file_map") (λ _ s,
         (inr tt, set_bunny_file_map (update_where bf_id id (set_file_final pending)
                                        (bunny_file_map s)) s)) ;;
  answer r (λ _, ok_true).

(** [GET /progress/:jobId] *)
Definition get_progress (jobId : uuid) : M response :=
  r <- request (ev_select "migration_progress") (λ _ s,
         (match filter (λ p, p_job_id p = jobId) (migration_progress s) with
          | [p] => inr p
          | _ => inl no_single_row
          end, s)) ;;
  answer r progress_body.

(** [Math.max(1, Math.min(hi, Number(limit || dflt)))] *)
Definition clamp_limit (hi dflt : Z) (limit : option Z) : Z :=
  Z.max 1 (Z.min hi (default dflt limit)).

(** [if (x) q = q.eq(column, x)]: an absent or empty parameter does not
    filter. *)
Definition eq_filter {R} (column : R → string) (x : option string) (r : R) : bool :=
  match x with
  | None | Some "" => true
  | Some v => String.eqb (column r) v
  end.

Definition job_kind_text (j : job) : string := kind_text (kind j).
Definition job_status_text (j : job) : string := status_text (status j).

(** [GET /jobs] *)
Definition get_jobs (kind status : option string) (limit : option Z) : M response :=
  let n := clamp_limit 200 50 limit in
  r <- request (ev_select "migration_jobs") (λ _ s,
         (inr (take (Z.to_nat n)
                 (merge_sort Discover.newest_first
                    (filter (λ j, eq_filter job_kind_text kind j
                                  && eq_filter job_status_text status j
                                  = true)
                       (migration_jobs s)))), s)) ;;
  answer r jobs_body.

Section BulkRetry.
(** What the store does with an update that carries no filter. *)
Variable unfiltered_update :
  (file_row → file_row) → store → (js_error + unit) * store.

(** [POST /retry-bulk]; [ids] is the array of the body, when it has
    one. *)
Definition post_retry_bulk (status : option string) (ids : option (list uuid))
  : M response :=
  let no_status := match status with None | Some "" => true | _ => false end in
  if no_status && bool_decide (ids = None)
  then ret (mk_response 400 (error_body "Provide status or ids"))
  else
    r <- request (ev_update "bunny_file_map") (λ _ s,
           match ids, status with
           | Some (id :: more), _ =>
               (inr tt, set_bunny_file_map
                          ((λ b, if bool_decide (bf_id b ∈ id :: more)
                                 then set_file_final pending b else b)
                             <$> bunny_file_map s) s)
           | _, Some (String c v) =>
               (inr tt, set_bunny_file_map
                          ((λ b, if String.eqb (file_status_text (bf_status b))
                                      (String c v)
                                 then set_file_final pending b else b)
                             <$> bunny_file_map s) s)
           | _, _ => unfiltered_update (set_file_final pending) s
           end) ;;
    answer r (λ _, ok_true).
End BulkRetry.
End Control.

(** ** Readings of a trace and of a listing *)

(** The durations of the sleeps of a trace, in order. *)
Definition sleeps (evs : list event) : list Z :=
  omap (λ e, match e with ev_sleep ms => Some ms | _ => None end) evs.

(** [1000 * attempt * attempt] for the attempts [first], [first + 1], ..,
    [n] of them. *)
Definition backoffs (first n : Z) : list Z :=
  (λ attempt, 1000 * attempt * attempt) <$> seqZ first n.

(** ** What a run leaves in place *)

(** [l'] is [l] with rows changed in place, each of them within [ok], and
    with rows added at the end. *)
Definition evolves {R} (ok : relation R) (l l' : list R) : Prop :=
  ∃ l1 l2, l' = l1 ++ l2 ∧ Forall2 ok l l1.

(** A row of the frontier keeps its id, its path and its parent, and is not
    put back in the queue. *)
Definition scan_row_advances (q q' : scan_row) : Prop :=
  sq_id q' = sq_id q ∧ sq_path q' = sq_path q ∧
  sq_parent_path q' = sq_parent_path q ∧
  (sq_status q ≠ queued → sq_status q' ≠ queued).

(** A row of the inventory keeps what the crawler wrote of the object, and
    is not made pending again. *)
Definition file_row_advances (b b' : file_row) : Prop :=
  bf_id b' = bf_id b ∧ bf_path b' = bf_path b ∧ bf_is_dir b' = bf_is_dir b ∧
  bf_parent_path b' = bf_parent_path b ∧ bf_size b' = bf_size b ∧
  bf_mime_type b' = bf_mime_type b ∧ bf_bunny_url b' = bf_bunny_url b ∧
  (bf_status b ≠ pending → bf_status b' ≠ pending).

(** What the crawler keeps of the store: the inventory and the jobs are
    only added to, the log is as it was, and the frontier advances. *)
Definition crawler_keeps (s s' : store) : Prop :=
  bunny_file_map s `prefix_of` bunny_file_map s' ∧
  migration_logs s' = migration_logs s ∧
  evolves scan_row_advances (scan_queue s) (scan_queue s').

(** What the migration worker keeps of the store: the frontier is as it
    was, the log is only added to, and the inventory advances with no row
    added. *)
Definition worker_keeps (s s' : store) : Prop :=
  scan_queue s' = scan_queue s ∧
  migration_logs s `prefix_of` migration_logs s' ∧
  Forall2 file_row_advances (bunny_file_map s) (bunny_file_map s').

Definition on_store (S : relation store) : relation world :=
  λ w w', S (db w) (db w').

(** The path the crawler gives an entry of the listing of [path]:
    [`${path}${item.ObjectName}${isDir ? '/' : ''}`] *)
Definition item_path (path : string) (item : bunny_item) : string :=
  path +:+ ObjectName item +:+ (if IsDirectory item then "/" else "").

(** The files of a listing, and the bytes they hold. *)
Definition files_of (items : list bunny_item) : list bunny_item :=
  filter (λ i, IsDirectory i = false) items.

Definition bytes_of (items : list bunny_item) : Z :=
  foldr Z.add 0 (Length <$> files_of items).

(** The row the crawler inserts in the inventory for an entry of the
    listing of [path]. *)
Definition entry_of (cfg : config) (path : string) (x : bunny_item) : file_entry :=
  mk_entry (item_path path x) (IsDirectory x) (Some path)
    (if IsDirectory x then None else Some (Length x))
    (if IsDirectory x then None else Some (ContentType x))
    (if IsDirectory x then None else Some (BUNNY_BASE cfg +:+ item_path path x))
    pending.

(** ** The timers of a process *)

(** The timers and the handle of the heartbeat are as they were. *)
Definition same_timers (w w' : world) : Prop :=
  timers w' = timers w ∧ HEARTBEAT_TIMER w' = HEARTBEAT_TIMER w.

(** No heartbeat timer is registered: the timers are [T]. *)
Definition timers_clean (T : list timer) (w : world) : Prop :=
  HEARTBEAT_TIMER w = None ∧ timers w = T.

(** The heartbeat timer is registered, once, besides the timers [T]. *)
Definition timers_armed (T : list timer) (w : world) : Prop :=
  ∃ h, HEARTBEAT_TIMER w = Some h ∧
       timers w = T ++ [mk_timer h cb_heartbeat Discover.HEARTBEAT_MS] ∧
       h ∉ t_handle <$> T.

(** Clean or armed, carried from the state before to the state after. *)
Definition timers_kept (T : list timer) (w w' : world) : Prop :=
  timers_clean T w ∨ timers_armed T w → timers_clean T w' ∨ timers_armed T w'.

(** ** Readings of the inventory *)

(** How many files of the inventory a batch claim could take. *)
Definition pending_files (tbl : list file_row) : nat :=
  length (filter (λ b, is_pending_file b = true) tbl).

(** ** A run that transfers nothing *)

(** A row of the inventory has the status it had, or has been claimed. *)
Definition claimed_at_most (b b' : file_row) : Prop :=
  bf_id b' = bf_id b ∧ bf_path b' = bf_path b ∧ bf_is_dir b' = bf_is_dir b ∧
  (bf_status b' = bf_status b ∨ bf_status b' = scanned).

(** Nothing has been transferred and nothing recorded: the log and the
    number of transfers in the trace are as they were, and the files have
    at most been claimed. *)
Definition nothing_migrated (w w' : world) : Prop :=
  migration_logs (db w') = migration_logs (db w) ∧
  count is_transfer (trace w') = count is_transfer (trace w) ∧
  Forall2 claimed_at_most (bunny_file_map (db w)) (bunny_file_map (db w')).
(** * Properties *)

(** ** What the computations preserve *)

Section Preserves.
Context (R : relation world) `{!PreOrder R}.

Lemma preserves_ret {A} (a : A) : preserves R (ret a).
Proof. intros w. reflexivity. Qed.

Lemma preserves_throw {A} e : preserves R (@throw A e).
Proof. intros w. reflexivity. Qed.

Lemma preserves_get {A} (f : world → A) : preserves R (get f).
Proof. intros w. reflexivity. Qed.

Lemma preserves_or_throw {A} (r : js_error + A) : preserves R (or_throw r).
Proof. destruct r; [apply preserves_throw | apply preserves_ret]. Qed.

Lemma preserves_bind {A B} (m : M A) (k : A → M B) :
  preserves R m → (∀ a, preserves R (k a)) → preserves R (bind m k).
Proof.
  intros Hm Hk w. unfold bind. specialize (Hm w).
  destruct (m w) as [[a|e] w1]; simpl in *; [|done].
  etrans; [exact Hm|apply Hk].
Qed.

Lemma preserves_try_catch {A} (m : M A) (h : js_error → M A) :
  preserves R m → (∀ e, preserves R (h e)) → preserves R (try_catch m h).
Proof.
  intros Hm Hh w. unfold try_catch. specialize (Hm w).
  destruct (m w) as [[a|e] w1]; simpl in *; [done|].
  etrans; [exact Hm|apply Hh].
Qed.

Lemma preserves_for_of {A B} (xs : list A) (body : A → B → M B) acc :
  (∀ x b, preserves R (body x b)) → preserves R (for_of xs body acc).
Proof.
  intros Hb. revert acc. induction xs as [|x xs IH]; intros acc; simpl.
  - apply preserves_ret.
  - apply preserves_bind; [apply Hb | intros; apply IH].
Qed.

Lemma preserves_while_true n (body : M loop_ctl) :
  preserves R body → preserves R (while_true n body).
Proof.
  intros Hb. induction n as [|n IH]; simpl; [apply preserves_ret|].
  apply preserves_bind; [done|]. intros [|]; [done|apply preserves_ret].
Qed.
End Preserves.

#[local] Instance same_process_preorder : PreOrder same_process.
Proof.
  split.
  - intros w. by split_and!.
  - intros w1 w2 w3 (? & ? & ?) (? & ? & ?). split_and!; congruence.
Qed.

#[local] Instance trace_extends_preorder : PreOrder trace_extends.
Proof.
  split.
  - intros w. exists []. by rewrite app_nil_r.
  - intros w1 w2 w3 [e1 H1] [e2 H2]. exists (e1 ++ e2).
    by rewrite H2, H1, app_assoc.
Qed.

#[local] Instance no_heartbeat_preorder : PreOrder no_heartbeat.
Proof.
  split.
  - intros w. split; [done|]. intros t Ht. by left.
  - intros w1 w2 w3 [H1 T1] [H2 T2]. split; [congruence|].
    intros t Ht. destruct (T2 t Ht) as [Ht2|?]; [|by right]. by apply T1.
Qed.

Lemma count_app p l k : count p (l ++ k) = (count p l + count p k)%nat.
Proof. unfold count. by rewrite filter_app, length_app. Qed.

Lemma count_snoc p l e :
  count p (l ++ [e]) = (count p l + if p e then 1 else 0)%nat.
Proof.
  rewrite count_app. f_equal. unfold count.
  rewrite filter_cons, filter_nil. by destruct (p e).
Qed.

(** *** The requests and the other primitives *)

Lemma request_same_process {A} e (run : timestamp → store → (js_error + A) * store) :
  preserves same_process (request e run).
Proof.
  intros w. unfold request.
  destruct (faults (emit e w)) as [|[err|] rest]; simpl;
    try destruct (run _ _); by split_and!.
Qed.

Lemma request_trace_extends {A} e (run : timestamp → store → (js_error + A) * store) :
  preserves trace_extends (request e run).
Proof.
  intros w. exists [e]. unfold request.
  destruct (faults (emit e w)) as [|[err|] rest]; simpl;
    try destruct (run _ _); done.
Qed.

Lemma request_no_heartbeat {A} e (run : timestamp → store → (js_error + A) * store) :
  is_rpc "touch_job" e = false →
  preserves no_heartbeat (request e run).
Proof.
  intros He w. unfold request.
  destruct (faults (emit e w)) as [|[err|] rest]; simpl;
    try destruct (run _ _); (split; simpl; [|by left]);
    rewrite count_snoc, He; lia.
Qed.

Lemma sleep_same_process ms : preserves same_process (sleep ms).
Proof. intros w. by split_and!. Qed.

Lemma sleep_trace_extends ms : preserves trace_extends (sleep ms).
Proof. intros w. by exists [ev_sleep ms]. Qed.

Lemma sleep_no_heartbeat ms : preserves no_heartbeat (sleep ms).
Proof.
  intros w. split; simpl; [|by left]. rewrite count_snoc. simpl. lia.
Qed.

Lemma listDir_same_process path : preserves same_process (Discover.listDir path).
Proof. intros w. unfold Discover.listDir. destruct (source w path); by split_and!. Qed.

Lemma listDir_trace_extends path : preserves trace_extends (Discover.listDir path).
Proof.
  intros w. exists [ev_list_dir path]. unfold Discover.listDir.
  by destruct (source w path).
Qed.

Lemma transfer_same_process path rt : preserves same_process (Migrate.transfer path rt).
Proof.
  intros w. unfold Migrate.transfer.
  destruct (transfers (emit _ w)) as [|[err|] rest]; by split_and!.
Qed.

Lemma transfer_trace_extends path rt : preserves trace_extends (Migrate.transfer path rt).
Proof.
  intros w. exists [ev_transfer path rt]. unfold Migrate.transfer.
  by destruct (transfers (emit _ w)) as [|[err|] rest].
Qed.

Lemma transfer_no_heartbeat path rt : preserves no_heartbeat (Migrate.transfer path rt).
Proof.
  intros w. unfold Migrate.transfer.
  destruct (transfers (emit _ w)) as [|[err|] rest]; simpl;
    (split; simpl; [|by left]); rewrite count_snoc; simpl; lia.
Qed.

Lemma setInterval_reclaim_no_heartbeat ms :
  preserves no_heartbeat (setInterval cb_reclaim ms).
Proof.
  intros w. split; simpl; [done|].
  intros t [Ht|Ht]%elem_of_app; [by left|].
  apply list_elem_of_singleton in Ht as ->. by right.
Qed.

Create HintDb preserves discriminated.
#[local] Hint Resolve request_same_process request_trace_extends
  sleep_same_process sleep_trace_extends sleep_no_heartbeat
  listDir_same_process listDir_trace_extends
  transfer_same_process transfer_trace_extends transfer_no_heartbeat
  setInterval_reclaim_no_heartbeat : preserves.
#[local] Hint Extern 1 (preserves no_heartbeat (request _ _)) =>
  apply request_no_heartbeat; reflexivity : preserves.

(** Decomposes a goal [preserves R m] along the structure of [m]. *)
Ltac preserving :=
  repeat match goal with
    | |- preserves ?R (ret _) => apply (preserves_ret R)
    | |- preserves ?R (throw _) => apply (preserves_throw R)
    | |- preserves ?R (get _) => apply (preserves_get R)
    | |- preserves ?R (or_throw _) => apply (preserves_or_throw R)
    | |- preserves ?R (bind _ _) => apply (preserves_bind R); [|intros ?]
    | |- preserves ?R (try_catch _ _) => apply (preserves_try_catch R); [|intros ?]
    | |- preserves ?R (for_of _ _ _) => apply (preserves_for_of R); intros ? ?
    | |- preserves _ (match ?x with _ => _ end) => destruct x
    | |- preserves _ (let '(_, _) := ?x in _) => destruct x
    | |- preserves _ _ => progress auto with preserves
    end.

(** The crawler's turn leaves the timers and the current job alone. *)
Lemma discover_iteration_same_process cfg :
  preserves same_process (Discover.iteration cfg).
Proof.
  unfold Discover.iteration, Discover.heartbeat, Discover.getJob,
    Discover.claimNextDir, Discover.markJob, Discover.scan_dir,
    Discover.bumpProgress, Discover.markDirDone, Discover.scan_item,
    Discover.insertFileOrDir, Discover.insertDir.
  preserving.
Qed.

Lemma markJob_trace_extends st : preserves trace_extends (Discover.markJob st).
Proof. unfold Discover.markJob. preserving. Qed.

Lemma scan_dir_trace_extends cfg cur c :
  preserves trace_extends (Discover.scan_dir cfg cur c).
Proof.
  unfold Discover.scan_dir, Discover.bumpProgress, Discover.markDirDone,
    Discover.scan_item, Discover.insertFileOrDir, Discover.insertDir.
  preserving.
Qed.

Section MigrateBatch.
Variable cfg : config.
Variable R : relation world.
Context `{!PreOrder R}.
Hypothesis R_request :
  ∀ A e (run : timestamp → store → (js_error + A) * store),
    is_rpc "touch_job" e = false → preserves R (request e run).
Hypothesis R_sleep : ∀ ms, preserves R (sleep ms).
Hypothesis R_transfer : ∀ path rt, preserves R (Migrate.transfer path rt).

Lemma attempts_preserves fuel job file start a :
  preserves R (Migrate.attempts cfg fuel job file start a).
Proof.
  revert a. induction fuel as [|fuel IH]; intros a; simpl; [preserving|].
  unfold Migrate.logResult, Migrate.finalizeFile, Migrate.incProgress.
  destruct (a <? MAX_RETRIES cfg); preserving;
    try (apply R_request; reflexivity); try apply R_sleep; try apply R_transfer;
    try apply IH.
Qed.

Lemma migrate_batch_preserves job batch :
  preserves R (Migrate.migrate_batch cfg job batch).
Proof.
  unfold Migrate.migrate_batch, Migrate.migrateOne.
  apply (preserves_for_of R). intros f []. apply (preserves_bind R); [preserving|].
  intros start. apply attempts_preserves.
Qed.

Lemma migrate_iteration_preserves WORKER_ID job :
  preserves R (Migrate.iteration cfg WORKER_ID job).
Proof.
  unfold Migrate.iteration, Migrate.getJob, Migrate.claimBatch.
  preserving; try (apply R_request; reflexivity); try apply R_sleep;
    try apply migrate_batch_preserves.
Qed.
End MigrateBatch.

Lemma migrate_batch_trace_extends cfg job batch :
  preserves trace_extends (Migrate.migrate_batch cfg job batch).
Proof.
  apply (migrate_batch_preserves cfg trace_extends);
    [intros; apply request_trace_extends | apply sleep_trace_extends
    | apply transfer_trace_extends].
Qed.

(** The migration worker, from start to end, makes no [touch_job] request
    and registers no timer but the reaper of stale claims. *)
Lemma migrate_run_no_heartbeat cfg WORKER_ID fuel :
  preserves no_heartbeat (Migrate.run cfg WORKER_ID fuel).
Proof.
  unfold Migrate.run, Migrate.start, Migrate.createJob.
  preserving. apply (preserves_while_true no_heartbeat).
  apply (migrate_iteration_preserves cfg no_heartbeat);
    [intros; by apply request_no_heartbeat | apply sleep_no_heartbeat
    | apply transfer_no_heartbeat].
Qed.


(** ** Facts on the claim statement *)

Lemma submseteq_NoDup {A} (l k : list A) : l ⊆+ k → NoDup k → NoDup l.
Proof.
  intros [k' Hk]%submseteq_Permutation Hnd.
  rewrite Hk in Hnd. by apply NoDup_app in Hnd as [? _].
Qed.

Lemma NoDup_fmap_elem_eq {A B} (f : A → B) (l : list A) x y :
  NoDup (f <$> l) → x ∈ l → y ∈ l → f x = f y → x = y.
Proof.
  induction l as [|a l IH]; simpl; intros Hnd Hx Hy Hf.
  - by apply elem_of_nil in Hx.
  - apply NoDup_cons in Hnd as [Ha Hnd].
    apply elem_of_cons in Hx as [->|Hx]; apply elem_of_cons in Hy as [->|Hy];
      [done| | |by apply IH].
    + exfalso. apply Ha. rewrite Hf. by apply list_elem_of_fmap_2.
    + exfalso. apply Ha. rewrite <- Hf. by apply list_elem_of_fmap_2.
Qed.

Section ClaimFacts.
Context {R : Type}.
Variable row_id : R → uuid.
Variable row_path : R → string.
Variable claimable : R → bool.
Variable flip : R → R.

Local Abbreviation select := (select_skip_locked row_id row_path claimable).
Local Abbreviation update := (update_from_cte row_id flip).

Lemma select_submseteq locked n tbl : select locked n tbl ⊆+ tbl.
Proof.
  unfold select_skip_locked.
  etrans; [apply submseteq_take|].
  etrans; [apply sublist_submseteq, sublist_filter|].
  etrans; [apply Permutation_submseteq, merge_sort_Permutation|].
  apply sublist_submseteq, sublist_filter.
Qed.

Lemma select_elem_of locked n tbl r :
  r ∈ select locked n tbl →
  r ∈ tbl ∧ claimable r = true ∧ row_id r ∉ locked.
Proof.
  unfold select_skip_locked. intros Hr.
  pose proof (elem_of_submseteq _ _ _ Hr (submseteq_take _ _)) as Hr'.
  apply list_elem_of_filter in Hr' as [Hun Hr'].
  rewrite merge_sort_Permutation in Hr'.
  apply list_elem_of_filter in Hr' as [Hcl Hr'].
  split_and!; [done..|].
  unfold unlocked in Hun. apply negb_true_iff, bool_decide_eq_false in Hun. done.
Qed.

Lemma select_NoDup locked n tbl :
  NoDup (row_id <$> tbl) → NoDup (row_id <$> select locked n tbl).
Proof.
  intros Hnd. eapply submseteq_NoDup; [|exact Hnd].
  apply fmap_submseteq, select_submseteq.
Qed.

Lemma select_length_le locked n tbl : (length (select locked n tbl) ≤ n)%nat.
Proof. unfold select_skip_locked. rewrite length_take. lia. Qed.

Lemma update_elem_of cte tbl r' :
  r' ∈ update cte tbl ↔
  ∃ r, r ∈ tbl ∧ r' = if bool_decide (row_id r ∈ row_id <$> cte) then flip r else r.
Proof.
  unfold update_from_cte. rewrite list_elem_of_fmap.
  split; intros (r & ? & ?); eauto.
Qed.

Lemma update_ids cte tbl :
  (∀ r, row_id (flip r) = row_id r) →
  row_id <$> update cte tbl = row_id <$> tbl.
Proof.
  intros Hid. unfold update_from_cte. rewrite <- list_fmap_compose.
  apply list_fmap_ext. intros i r _. simpl. by case_bool_decide.
Qed.

Lemma update_length cte tbl : length (update cte tbl) = length tbl.
Proof. unfold update_from_cte. by rewrite length_fmap. Qed.
End ClaimFacts.

(** ** No double claim (C1) *)

Module ConcurrentFacts.
Import Concurrent.

Section Invariant.
Context {R Arg : Type}.
Variable row_id : R → uuid.
Variable row_path : R → string.
Variable claimable : R → bool.
Variable flip : timestamp → R → R.
Variable limit : Arg → nat.

Hypothesis flip_id : ∀ now r, row_id (flip now r) = row_id r.
Hypothesis flip_unclaimable : ∀ now r, claimable (flip now r) = false.

Local Abbreviation state := (@cstate R).
Local Abbreviation step := (Concurrent.step row_id row_path claimable flip limit).
Local Abbreviation exec := (Concurrent.exec row_id row_path claimable flip limit).
Local Abbreviation locked_ids := (Concurrent.locked_ids row_id).

(** What every reachable state satisfies: the primary key holds, no row
    is locked twice, a locked row is in the table as it was selected
    (still claimable), a row handed to a caller is no longer claimable,
    and no row was handed out twice. *)
Record inv (s : state) : Prop := mk_inv {
  inv_key : NoDup (row_id <$> table s);
  inv_locks : NoDup (locked_ids s);
  inv_locked : ∀ r, r ∈ (locks s).*2 → r ∈ table s ∧ claimable r = true;
  inv_received : ∀ id r, id ∈ (received s).*2 → r ∈ table s →
                         row_id r = id → claimable r = false;
  inv_once : NoDup (received s).*2
}.

Lemma inv_init tbl : NoDup (row_id <$> tbl) → inv (init tbl).
Proof.
  intros Hk. split; simpl; try done.
  - unfold Concurrent.locked_ids; simpl. constructor.
  - intros r Hr. by apply elem_of_nil in Hr.
  - intros id r Hid. by apply elem_of_nil in Hid.
  - constructor.
Qed.

Lemma inv_begin s t a s' :
  inv s → step (begin_claim t a) s = Some s' → inv s'.
Proof.
  intros [Hk Hl Hlk Hr Ho]. simpl. case_bool_decide; [done|].
  intros [= <-].
  set (cte := select_skip_locked _ _ _ _ _ _).
  assert (Hcte : ∀ r, r ∈ cte → r ∈ table s ∧ claimable r = true ∧
                        row_id r ∉ locked_ids s).
  { intros r. apply select_elem_of. }
  assert (Hsnd : ((λ r, (t, r)) <$> cte).*2 = cte).
  { rewrite <- list_fmap_compose. apply list_fmap_id. }
  split; simpl; try done.
  - unfold Concurrent.locked_ids; simpl.
    rewrite fmap_app, Hsnd, fmap_app. apply NoDup_app. split_and!.
    + exact Hl.
    + intros id Hid (r & -> & Hr')%list_elem_of_fmap.
      by apply Hcte in Hr' as (_ & _ & ?).
    + by apply select_NoDup.
  - intros r. rewrite fmap_app, Hsnd, elem_of_app. intros [?|Hr'].
    + by apply Hlk.
    + by destruct (Hcte r Hr') as (? & ? & _).
Qed.

Lemma held_by_elem_of t (s : state) r :
  r ∈ held_by t s ↔ (t, r) ∈ locks s.
Proof.
  unfold held_by. rewrite list_elem_of_fmap. split.
  - intros ([t' r'] & -> & [Ht ?]%list_elem_of_filter). simpl in *. by subst.
  - intros Hin. exists (t, r). split; [done|]. by apply list_elem_of_filter.
Qed.

Lemma inv_commit s t now s' :
  inv s → step (commit_claim t now) s = Some s' → inv s'.
Proof.
  intros [Hk Hl Hlk Hr Ho]. simpl. intros [= <-].
  set (cte := held_by t s).
  assert (Hcte : ∀ r, r ∈ cte → r ∈ table s ∧ claimable r = true).
  { intros r Hin%held_by_elem_of. apply Hlk.
    apply list_elem_of_fmap. by exists (t, r). }
  assert (Hrest : ∀ r, r ∈ (filter (λ p, p.1 ≠ t) (locks s)).*2 →
                       r ∈ (locks s).*2 ∧ row_id r ∉ row_id <$> cte).
  { intros r ([t' r'] & -> & [Hne Hin]%list_elem_of_filter)%list_elem_of_fmap.
    simpl in *. split; [apply list_elem_of_fmap; by exists (t', r')|].
    intros (r0 & Heq & Hr0%held_by_elem_of)%list_elem_of_fmap.
    assert ((t', r') = (t, r0)) as [= -> ->]; [|done].
    apply (NoDup_fmap_elem_eq (λ p, row_id p.2) (locks s)); [|done..].
    unfold Concurrent.locked_ids in Hl. by rewrite <- list_fmap_compose in Hl. }
  split; simpl.
  - by rewrite update_ids.
  - unfold Concurrent.locked_ids; simpl.
    eapply submseteq_NoDup; [|exact Hl].
    unfold Concurrent.locked_ids. do 2 apply fmap_submseteq.
    apply sublist_submseteq, sublist_filter.
  - intros r [Hin Hnot]%Hrest. destruct (Hlk r Hin) as [Htbl Hcl].
    split; [|done]. apply update_elem_of. exists r. split; [done|].
    by rewrite bool_decide_eq_false_2.
  - intros id r' Hid (r & Htbl & ->)%update_elem_of Hrid.
    case_bool_decide as Hc; [apply flip_unclaimable|].
    rewrite fmap_app, elem_of_app in Hid. destruct Hid as [Hid|Hid].
    + by eapply Hr.
    + exfalso. apply Hc. rewrite Hrid.
      rewrite <- list_fmap_compose in Hid. exact Hid.
  - rewrite fmap_app. apply NoDup_app. split_and!.
    + exact Ho.
    + intros id Hid Hnew. rewrite <- list_fmap_compose in Hnew.
      apply list_elem_of_fmap in Hnew as (r & -> & Hin). simpl in *.
      destruct (Hcte r Hin) as [Htbl Hcl].
      rewrite (Hr _ r Hid Htbl eq_refl) in Hcl. done.
    + rewrite <- list_fmap_compose.
      eapply submseteq_NoDup; [|exact Hl].
      unfold Concurrent.locked_ids, cte, held_by.
      change (λ r, row_id r) with row_id.
      do 2 apply fmap_submseteq. apply sublist_submseteq, sublist_filter.
Qed.

Lemma inv_step l s s' : inv s → step l s = Some s' → inv s'.
Proof. destruct l; [apply inv_begin | apply inv_commit]. Qed.

Lemma inv_exec sched s s' : inv s → exec sched s = Some s' → inv s'.
Proof.
  revert s. induction sched as [|l sched IH]; simpl; intros s Hinv.
  - by intros [= <-].
  - destruct (step l s) as [s1|] eqn:Hstep; simpl; [|done].
    apply IH. by eapply inv_step.
Qed.

Lemma exec_no_double_claim tbl sched s t1 t2 i1 i2 id :
  NoDup (row_id <$> tbl) →
  exec sched (init tbl) = Some s →
  received s !! i1 = Some (t1, id) →
  received s !! i2 = Some (t2, id) →
  i1 = i2.
Proof.
  intros Hk Hex H1 H2.
  pose proof (inv_once _ (inv_exec _ _ _ (inv_init _ Hk) Hex)) as Hnd.
  eapply NoDup_lookup; [exact Hnd| |].
  - rewrite list_lookup_fmap, H1. done.
  - rewrite list_lookup_fmap, H2. done.
Qed.

(** A statement that runs with no other transaction in flight does what
    the sequential reading of the statement says. *)
Lemma exec_alone t a now tbl rcv :
  exec [begin_claim t a; commit_claim t now] (mk_cstate tbl [] rcv) =
  let cte := select_skip_locked row_id row_path claimable [] (limit a) tbl in
  Some (mk_cstate (update_from_cte row_id (flip now) cte tbl) []
          (rcv ++ ((λ r, (t, row_id r)) <$> cte))).
Proof.
  simpl. unfold Concurrent.locked_ids, held_by; simpl.
  set (cte := select_skip_locked _ _ _ _ _ _).
  clearbody cte.
  assert (Hmine : filter (λ p : txn * R, p.1 = t) ((λ r, (t, r)) <$> cte)
                  = (λ r, (t, r)) <$> cte).
  { induction cte as [|r cte IH]; [done|]. rewrite fmap_cons.
    rewrite filter_cons_True by done. by rewrite IH. }
  assert (Hothers : filter (λ p : txn * R, p.1 ≠ t) ((λ r, (t, r)) <$> cte) = []).
  { clear Hmine. induction cte as [|r cte IH]; [done|]. rewrite fmap_cons.
    rewrite filter_cons_False by (simpl; tauto). exact IH. }
  assert (Hsnd : ((λ r, (t, r)) <$> cte).*2 = cte).
  { rewrite <- list_fmap_compose. apply list_fmap_id. }
  by rewrite Hmine, Hothers, Hsnd.
Qed.
End Invariant.
End ConcurrentFacts.

Section NoDoubleClaim.
Import Concurrent.

(** The statements the workers call are the two steps run back to back,
    with no other transaction in flight. *)
Lemma claim_next_dir_alone t now tbl :
  dir_exec [begin_claim t (); commit_claim t now] (init tbl) =
  Some (mk_cstate (claim_next_dir now tbl).2 []
          ((λ c, (t, cd_id c)) <$> (claim_next_dir now tbl).1)).
Proof.
  unfold dir_exec, init. rewrite ConcurrentFacts.exec_alone.
  unfold claim_next_dir, claim_dir_cte. simpl.
  by rewrite <- list_fmap_compose.
Qed.

Lemma claim_files_to_migrate_alone t n now tbl :
  file_exec [begin_claim t n; commit_claim t now] (init tbl) =
  Some (mk_cstate (claim_files_to_migrate n tbl).2 []
          ((λ c, (t, cf_id c)) <$> (claim_files_to_migrate n tbl).1)).
Proof.
  unfold file_exec, init. rewrite ConcurrentFacts.exec_alone.
  unfold claim_files_to_migrate, claim_files_cte. simpl.
  by rewrite <- list_fmap_compose.
Qed.

(** C1. Whatever the interleaving of the callers of [claim_next_dir] and
    of the callers of [claim_files_to_migrate], no row is handed out twice:
    the row ids all callers received are pairwise distinct, and a row that
    was handed out has left its claimable status ([queued], resp. a
    [pending] file) by the commit that handed it out. *)
Theorem no_double_claim (dirs : list scan_row) (files : list file_row)
    (sched_d : list (label unit)) (sched_f : list (label nat))
    (sd : cstate) (sf : cstate) :
  NoDup (sq_id <$> dirs) →
  NoDup (bf_id <$> files) →
  dir_exec sched_d (init dirs) = Some sd →
  file_exec sched_f (init files) = Some sf →
  NoDup (received sd).*2 ∧ NoDup (received sf).*2 ∧
  (∀ t id q, (t, id) ∈ received sd → q ∈ table sd → sq_id q = id →
             is_queued q = false) ∧
  (∀ t id b, (t, id) ∈ received sf → b ∈ table sf → bf_id b = id →
             is_pending_file b = false).
Proof.
  intros Hd Hf Hsd Hsf.
  assert (Id : ConcurrentFacts.inv sq_id is_queued sd).
  { eapply ConcurrentFacts.inv_exec; [| |apply ConcurrentFacts.inv_init, Hd|exact Hsd];
      done. }
  assert (If : ConcurrentFacts.inv bf_id is_pending_file sf).
  { eapply ConcurrentFacts.inv_exec; [| |apply ConcurrentFacts.inv_init, Hf|exact Hsf];
      done. }
  destruct Id as [_ _ _ Hrd Hod], If as [_ _ _ Hrf Hof].
  split_and!; [done..| |].
  - intros t id q Hin. apply Hrd.
    apply list_elem_of_fmap. by exists (t, id).
  - intros t id b Hin. apply Hrf.
    apply list_elem_of_fmap. by exists (t, id).
Qed.

Lemma no_double_claim_witness :
  ∃ sd sf,
    dir_exec Sample.dir_schedule (init Sample.frontier) = Some sd ∧
    file_exec Sample.file_schedule (init Sample.inventory) = Some sf ∧
    (received sd).*2 = [2; 3]%positive ∧
    (received sf).*2 = [1; 5; 2]%positive ∧
    NoDup (received sd).*2 ∧ NoDup (received sf).*2.
Proof.
  eexists _, _. split; [vm_compute; reflexivity|].
  split; [vm_compute; reflexivity|].
  split; [reflexivity|]. split; [reflexivity|].
  edestruct (no_double_claim Sample.frontier Sample.inventory
               Sample.dir_schedule Sample.file_schedule) as (H1 & H2 & _).
  - compute_done.
  - compute_done.
  - vm_compute; reflexivity.
  - vm_compute; reflexivity.
  - split; [exact H1 | exact H2].
Defined.
End NoDoubleClaim.

(** ** Facts on the store requests *)

Lemma filter_update_where {R} (row_id : R → uuid) (id id' : uuid) (f : R → R)
    (tbl : list R) :
  (∀ r, row_id (f r) = row_id r) →
  filter (λ r, row_id r = id) (update_where row_id id' f tbl) =
  update_where row_id id' f (filter (λ r, row_id r = id) tbl).
Proof.
  intros Hid. unfold update_where.
  induction tbl as [|r tbl IH]; [done|].
  rewrite fmap_cons, !filter_cons, IH.
  assert (row_id (if bool_decide (row_id r = id') then f r else r) = row_id r) as ->.
  { by case_bool_decide. }
  by destruct (decide (row_id r = id)).
Qed.

Lemma select_job_inv id tbl j :
  select_job id tbl = inr j → filter (λ j, job_id j = id) tbl = [j] ∧ job_id j = id.
Proof.
  unfold select_job. intros H.
  destruct (filter _ tbl) as [|j' [|]] eqn:Hf; try done.
  injection H as ->. split; [done|].
  assert (j ∈ filter (λ j, job_id j = id) tbl) as Hin by (rewrite Hf; left).
  by apply list_elem_of_filter in Hin as [? _].
Qed.

Lemma select_job_touch id now tbl j :
  select_job id tbl = inr j →
  select_job id (touch_job now id tbl) = inr (set_job_heartbeat now j).
Proof.
  intros [Hf Hid]%select_job_inv. unfold select_job, touch_job.
  rewrite filter_update_where by done. rewrite Hf. simpl.
  by rewrite bool_decide_eq_true_2.
Qed.

(** ** Job status is polled at every turn (C9) *)

Section StatusPoll.
Variable cfg : config.
Variable WORKER_ID : uuid.

Lemma discover_iteration_paused w cur fresh :
  faults w = [] →
  CURRENT_JOB w = Some cur →
  select_job (job_id cur) (migration_jobs (db w)) = inr fresh →
  status fresh = paused →
  let r := Discover.iteration cfg w in
  r.1 = Ret Continue ∧
  trace r.2 = trace w ++ [ev_rpc "touch_job"; ev_select "migration_jobs"; ev_sleep 2000] ∧
  scan_queue (db r.2) = scan_queue (db w) ∧
  bunny_file_map (db r.2) = bunny_file_map (db w).
Proof.
  destruct w as [s t fl src tr tm ht cj evs]; simpl.
  intros -> -> Hsel Hst.
  unfold Discover.iteration, Discover.heartbeat, Discover.getJob, bind, get,
    request, or_throw; simpl.
  rewrite (select_job_touch _ t _ _ Hsel); simpl. unfold ret; simpl.
  rewrite Hst; simpl.
  rewrite <- !app_assoc. done.
Qed.

Lemma discover_iteration_terminal w cur fresh :
  faults w = [] →
  CURRENT_JOB w = Some cur →
  select_job (job_id cur) (migration_jobs (db w)) = inr fresh →
  status fresh ∈ [stopped; failed; completed] →
  let r := Discover.iteration cfg w in
  r.1 = Ret Break ∧
  trace r.2 = trace w ++ [ev_rpc "touch_job"; ev_select "migration_jobs"] ∧
  scan_queue (db r.2) = scan_queue (db w) ∧
  bunny_file_map (db r.2) = bunny_file_map (db w).
Proof.
  destruct w as [s t fl src tr tm ht cj evs]; simpl.
  intros -> -> Hsel Hst.
  unfold Discover.iteration, Discover.heartbeat, Discover.getJob, bind, get,
    request, or_throw; simpl.
  rewrite (select_job_touch _ t _ _ Hsel); simpl. unfold ret; simpl.
  assert (Hnp : status fresh ≠ paused).
  { intros Hp. rewrite Hp, !elem_of_cons, elem_of_nil in Hst. by intuition. }
  rewrite (bool_decide_eq_false_2 _ Hnp).
  unfold Discover.is_terminal. rewrite (bool_decide_eq_true_2 _ Hst); simpl.
  rewrite <- !app_assoc. done.
Qed.

Lemma migrate_iteration_paused w job fresh :
  faults w = [] →
  select_job (job_id job) (migration_jobs (db w)) = inr fresh →
  status fresh = paused →
  let r := Migrate.iteration cfg WORKER_ID job w in
  r.1 = Ret Continue ∧
  trace r.2 = trace w ++ [ev_select "migration_jobs"; ev_sleep 2000] ∧
  bunny_file_map (db r.2) = bunny_file_map (db w) ∧
  scan_queue (db r.2) = scan_queue (db w).
Proof.
  destruct w as [s t fl src tr tm ht cj evs]; simpl.
  intros -> Hsel Hst.
  unfold Migrate.iteration, Migrate.getJob, bind, get, request, or_throw; simpl.
  rewrite Hsel; simpl. unfold ret; simpl. rewrite Hst; simpl.
  rewrite <- !app_assoc. done.
Qed.

Lemma migrate_iteration_terminal w job fresh :
  faults w = [] →
  select_job (job_id job) (migration_jobs (db w)) = inr fresh →
  status fresh ∈ [stopped; failed; completed] →
  let r := Migrate.iteration cfg WORKER_ID job w in
  r.1 = Ret Break ∧
  trace r.2 = trace w ++ [ev_select "migration_jobs"] ∧
  bunny_file_map (db r.2) = bunny_file_map (db w) ∧
  scan_queue (db r.2) = scan_queue (db w).
Proof.
  destruct w as [s t fl src tr tm ht cj evs]; simpl.
  intros -> Hsel Hst.
  unfold Migrate.iteration, Migrate.getJob, bind, get, request, or_throw; simpl.
  rewrite Hsel; simpl. unfold ret; simpl.
  assert (Hnp : status fresh ≠ paused).
  { intros Hp. rewrite Hp, !elem_of_cons, elem_of_nil in Hst. by intuition. }
  rewrite (bool_decide_eq_false_2 _ Hnp).
  unfold Migrate.is_terminal. rewrite (bool_decide_eq_true_2 _ Hst); simpl.
  done.
Qed.
End StatusPoll.

(** ** A directory whose listing fails (C8) *)

Section ListingError.
Variable cfg : config.

Lemma touch_job_status now id tbl :
  status <$> touch_job now id tbl = status <$> tbl.
Proof.
  unfold touch_job, update_where. rewrite <- list_fmap_compose.
  apply list_fmap_ext. intros i j _. simpl. by case_bool_decide.
Qed.

Lemma update_where_elem_of {R} (row_id : R → uuid) id (f : R → R) tbl r' :
  r' ∈ update_where row_id id f tbl ↔
  ∃ r, r ∈ tbl ∧ r' = if bool_decide (row_id r = id) then f r else r.
Proof.
  unfold update_where. rewrite list_elem_of_fmap.
  split; intros (r & ? & ?); eauto.
Qed.

(** C8. When the listing of the claimed directory raises an error, the
    turn of the crawler's loop marks that frontier entry failed, leaves
    the progress counters, the inventory and the status of every job as
    they were, and ends by going round the loop again: the loop continues
    from the state the turn left. *)
Theorem listing_error_marks_failed_and_continues w cur fresh c e :
  faults w = [] →
  CURRENT_JOB w = Some cur →
  select_job (job_id cur) (migration_jobs (db w)) = inr fresh →
  status fresh = running →
  head (claim_next_dir (now w) (scan_queue (db w))).1 = Some c →
  source w (cd_path c) = inl e →
  let r := Discover.iteration cfg w in
  r.1 = Ret Continue ∧
  scan_queue (db r.2) =
    update_where sq_id (cd_id c) (set_scan_status scan_failed)
      (claim_next_dir (now w) (scan_queue (db w))).2 ∧
  migration_progress (db r.2) = migration_progress (db w) ∧
  bunny_file_map (db r.2) = bunny_file_map (db w) ∧
  (∀ q, q ∈ scan_queue (db r.2) → sq_id q = cd_id c → sq_status q = scan_failed) ∧
  status <$> migration_jobs (db r.2) = status <$> migration_jobs (db w) ∧
  trace r.2 = trace w ++ [ev_rpc "touch_job"; ev_select "migration_jobs";
                          ev_rpc "claim_next_dir"; ev_list_dir (cd_path c);
                          ev_update "scan_queue"] ∧
  (∀ n, while_true (S n) (Discover.iteration cfg) w =
        while_true n (Discover.iteration cfg) r.2).
Proof.
  destruct w as [s t fl src tr tm ht cj evs]; simpl.
  intros -> -> Hsel Hst Hclaim Hsrc.
  unfold Discover.iteration, Discover.heartbeat, Discover.getJob, bind, get,
    request, or_throw; simpl.
  rewrite (select_job_touch _ t _ _ Hsel); simpl. unfold ret; simpl.
  rewrite Hst; simpl.
  unfold Discover.claimNextDir, bind, request, or_throw, ret; simpl.
  destruct (claim_next_dir t (scan_queue s)) as [rows tbl] eqn:Hc; simpl in *.
  rewrite Hclaim.
  unfold Discover.scan_dir, try_catch, bind, Discover.listDir; simpl.
  rewrite Hsrc; simpl.
  unfold Discover.markDirDone, bind, request, or_throw, ret; simpl.
  rewrite touch_job_status, <- !app_assoc.
  split_and!; try done.
  intros q (q0 & _ & ->)%update_where_elem_of.
  case_bool_decide; [done|]. intros; congruence.
Qed.
End ListingError.

Lemma listing_error_witness :
  let w := Sample.world_of (Sample.store_of [Sample.discover_job running]) 50
             (Some (Sample.discover_job running)) in
  let r := Discover.iteration Sample.cfg w in
  r.1 = Ret Continue ∧
  sq_status <$> scan_queue (db r.2) = [done; queued; scan_failed] ∧
  migration_progress (db r.2) = Sample.counters.
Proof.
  intros w r.
  destruct (listing_error_marks_failed_and_continues Sample.cfg w
              (Sample.discover_job running) (Sample.discover_job running)
              (mk_claimed_dir 3 "/a/" (Some "/"))
              (mk_error None "Request failed with status code 500"))
    as (H1 & H2 & H3 & _); try reflexivity.
  fold r in H1, H2, H3.
  split; [exact H1|]. split; [|exact H3].
  rewrite H2. reflexivity.
Defined.

Section StatusPollRunning.
Variable cfg : config.
Variable WORKER_ID : uuid.

#[local] Opaque claim_next_dir claim_files_to_migrate.
#[local] Opaque Discover.scan_dir Discover.markJob Migrate.migrate_batch.

Lemma discover_iteration_running w cur fresh :
  faults w = [] →
  CURRENT_JOB w = Some cur →
  select_job (job_id cur) (migration_jobs (db w)) = inr fresh →
  status fresh = running →
  ∃ rest,
    trace (Discover.iteration cfg w).2 =
    trace w ++ [ev_rpc "touch_job"; ev_select "migration_jobs";
                ev_rpc "claim_next_dir"] ++ rest.
Proof.
  destruct w as [s t fl src tr tm ht cj evs]; simpl.
  intros -> -> Hsel Hst.
  unfold Discover.iteration, Discover.heartbeat, Discover.getJob, bind, get,
    request, or_throw; simpl.
  rewrite (select_job_touch _ t _ _ Hsel); simpl. unfold ret; simpl.
  rewrite Hst; simpl.
  unfold Discover.claimNextDir, bind, request, or_throw, ret; simpl.
  destruct (claim_next_dir t (scan_queue s)) as [rows tbl]; simpl.
  destruct (head rows) as [c|].
  - match goal with |- context [Discover.scan_dir cfg cur c ?w3] =>
      destruct (scan_dir_trace_extends cfg cur c w3) as [rest Hrest];
      destruct (Discover.scan_dir cfg cur c w3) as [[|] w4]
    end; simpl in *; rewrite Hrest; exists rest; by rewrite <- !app_assoc.
  - match goal with |- context [Discover.markJob completed ?w3] =>
      destruct (markJob_trace_extends completed w3) as [rest Hrest];
      destruct (Discover.markJob completed w3) as [[|] w4]
    end; simpl in *; rewrite Hrest; exists rest; by rewrite <- !app_assoc.
Qed.

Lemma migrate_iteration_running w job fresh :
  faults w = [] →
  select_job (job_id job) (migration_jobs (db w)) = inr fresh →
  status fresh = running →
  ∃ rest,
    trace (Migrate.iteration cfg WORKER_ID job w).2 =
    trace w ++ [ev_select "migration_jobs"; ev_rpc "claim_files_to_migrate"] ++ rest.
Proof.
  destruct w as [s t fl src tr tm ht cj evs]; simpl.
  intros -> Hsel Hst.
  unfold Migrate.iteration, Migrate.getJob, bind at 1.
  unfold bind at 1. unfold request at 1. simpl.
  rewrite Hsel; simpl. rewrite Hst; simpl.
  match goal with |- context [trace (bind (Migrate.claimBatch ?wid ?n) ?k ?w1).2] =>
    pose proof (request_trace_extends (ev_rpc "claim_files_to_migrate")
                  (λ _ s, Migrate.rpc_claim_files_to_migrate n wid s) w1) as Hreq;
    unfold bind at 1; unfold Migrate.claimBatch at 1; unfold bind at 1;
    destruct (request (ev_rpc "claim_files_to_migrate") _ w1) as [[r|e] w2] eqn:Hr
  end.
  2: { exfalso. unfold request in Hr. simpl in Hr.
       by destruct (Migrate.rpc_claim_files_to_migrate _ _ _). }
  assert (Htr : trace w2 = (evs ++ [ev_select "migration_jobs"]) ++
                           [ev_rpc "claim_files_to_migrate"]).
  { unfold request in Hr. simpl in Hr.
    destruct (Migrate.rpc_claim_files_to_migrate _ _ _). by injection Hr as _ <-. }
  clear Hr Hreq.
  destruct r as [e|batch]; simpl.
  { exists []. by rewrite Htr, <- !app_assoc. }
  match goal with |- context [trace (?k ?w3).2] =>
    assert (Hg : preserves trace_extends k);
      [unfold Migrate.claimBatch; preserving; apply migrate_batch_trace_extends
      |destruct (Hg w3) as [rest ->]]
  end.
  exists rest. by rewrite Htr, <- !app_assoc.
Qed.

#[local] Transparent claim_next_dir claim_files_to_migrate.
#[local] Transparent Discover.scan_dir Discover.markJob Migrate.migrate_batch.
End StatusPollRunning.

(** C9. At every turn of its loop the crawler (per directory) and the
    migration worker (per batch) read the job's status first.  On [paused]
    the turn issues no claim, sleeps 2 s and goes round the loop again; on
    [stopped], [failed] or [completed] the turn leaves the loop and issues no
    claim.  In both cases the trace of the turn shows the requests made: the
    status read (after the crawler's heartbeat) and nothing else, and the
    frontier and the inventory are as they were.  On [running] the claim
    request comes right after the status read. *)
Theorem status_polled_before_claim (cfg : config) (WORKER_ID : uuid)
    (wd wm : world) (cur job fresh_d fresh_m : job) :
  faults wd = [] →
  CURRENT_JOB wd = Some cur →
  select_job (job_id cur) (migration_jobs (db wd)) = inr fresh_d →
  faults wm = [] →
  select_job (job_id job) (migration_jobs (db wm)) = inr fresh_m →
  let d := Discover.iteration cfg wd in
  let m := Migrate.iteration cfg WORKER_ID job wm in
  (status fresh_d = paused →
     d.1 = Ret Continue ∧
     trace d.2 = trace wd ++ [ev_rpc "touch_job"; ev_select "migration_jobs"; ev_sleep 2000] ∧
     scan_queue (db d.2) = scan_queue (db wd) ∧
     bunny_file_map (db d.2) = bunny_file_map (db wd)) ∧
  (status fresh_d ∈ [stopped; failed; completed] →
     d.1 = Ret Break ∧
     trace d.2 = trace wd ++ [ev_rpc "touch_job"; ev_select "migration_jobs"] ∧
     scan_queue (db d.2) = scan_queue (db wd) ∧
     bunny_file_map (db d.2) = bunny_file_map (db wd)) ∧
  (status fresh_m = paused →
     m.1 = Ret Continue ∧
     trace m.2 = trace wm ++ [ev_select "migration_jobs"; ev_sleep 2000] ∧
     bunny_file_map (db m.2) = bunny_file_map (db wm) ∧
     scan_queue (db m.2) = scan_queue (db wm)) ∧
  (status fresh_m ∈ [stopped; failed; completed] →
     m.1 = Ret Break ∧
     trace m.2 = trace wm ++ [ev_select "migration_jobs"] ∧
     bunny_file_map (db m.2) = bunny_file_map (db wm) ∧
     scan_queue (db m.2) = scan_queue (db wm)) ∧
  (status fresh_d = running →
     ∃ rest, trace d.2 = trace wd ++ [ev_rpc "touch_job"; ev_select "migration_jobs";
                                      ev_rpc "claim_next_dir"] ++ rest) ∧
  (status fresh_m = running →
     ∃ rest, trace m.2 = trace wm ++ [ev_select "migration_jobs";
                                      ev_rpc "claim_files_to_migrate"] ++ rest).
Proof.
  intros Hfd Hcur Hsd Hfm Hsm d m. split_and!.
  - intros. by eapply discover_iteration_paused.
  - intros. by eapply discover_iteration_terminal.
  - intros. by eapply migrate_iteration_paused.
  - intros. by eapply migrate_iteration_terminal.
  - intros. by eapply discover_iteration_running.
  - intros. by eapply migrate_iteration_running.
Qed.

Lemma status_polled_witness :
  let wd := Sample.world_of (Sample.store_of [Sample.discover_job paused]) 50
              (Some (Sample.discover_job running)) in
  let wm := Sample.world_of (Sample.store_of [Sample.migrate_job stopped]) 50 None in
  (Discover.iteration Sample.cfg wd).1 = Ret Continue ∧
  trace (Discover.iteration Sample.cfg wd).2 =
    [ev_rpc "touch_job"; ev_select "migration_jobs"; ev_sleep 2000] ∧
  (Migrate.iteration Sample.cfg 7 (Sample.migrate_job running) wm).1 = Ret Break ∧
  trace (Migrate.iteration Sample.cfg 7 (Sample.migrate_job running) wm).2 =
    [ev_select "migration_jobs"].
Proof.
  intros wd wm.
  destruct (status_polled_before_claim Sample.cfg 7 wd wm
              (Sample.discover_job running) (Sample.migrate_job running)
              (Sample.discover_job paused) (Sample.migrate_job stopped))
    as (Hp & _ & _ & Ht & _); try reflexivity.
  destruct Hp as (H1 & H2 & _); [reflexivity|].
  destruct Ht as (H3 & H4 & _); [compute_done|].
  split_and!; [exact H1 | exact H2 | exact H3 | exact H4].
Defined.

(** ** An empty claim in the crawler (C6) *)

Section EmptyClaim.
Variable cfg : config.
#[local] Opaque claim_next_dir.

(** What a turn of the crawler's loop does when the job is running and
    [claim_next_dir] returns no row: it marks the job completed and leaves
    the loop.  The turn makes one claim request and does not sleep. *)
Lemma discover_iteration_empty_claim w cur fresh :
  faults w = [] →
  CURRENT_JOB w = Some cur →
  select_job (job_id cur) (migration_jobs (db w)) = inr fresh →
  status fresh = running →
  (claim_next_dir (now w) (scan_queue (db w))).1 = [] →
  let r := Discover.iteration cfg w in
  r.1 = Ret Break ∧
  migration_jobs (db r.2) =
    update_where job_id (job_id cur) (set_job_ended completed (now w))
      (touch_job (now w) (job_id cur) (migration_jobs (db w))) ∧
  trace r.2 = trace w ++ [ev_rpc "touch_job"; ev_select "migration_jobs";
                          ev_rpc "claim_next_dir"; ev_update "migration_jobs"].
Proof.
  destruct w as [s t fl src tr tm ht cj evs]; simpl.
  intros -> -> Hsel Hst Hclaim.
  unfold Discover.iteration, Discover.heartbeat, Discover.getJob, bind, get,
    request, or_throw; simpl.
  rewrite (select_job_touch _ t _ _ Hsel); simpl. unfold ret; simpl.
  rewrite Hst; simpl.
  unfold Discover.claimNextDir, bind, request, or_throw, ret; simpl.
  destruct (claim_next_dir t (scan_queue s)) as [rows tbl] eqn:Hc; simpl in *.
  subst rows; simpl.
  unfold Discover.markJob, bind, get, request, ret; simpl.
  rewrite <- !app_assoc. done.
Qed.
#[local] Transparent claim_next_dir.
End EmptyClaim.

(** C6, on the code.  Another crawler holds the only frontier row claimed
    (it is still listing the root).  The first empty answer of
    [claim_next_dir] ends this crawler's loop and marks the job completed:
    the turn made a single claim request and no pause, where the claim asks
    for two empty answers in a row with a pause between them. *)
Theorem crawler_completes_on_first_empty_claim :
  let s := mk_store [Sample.discover_job running] Sample.counters
             Sample.busy_frontier [] [] in
  let w := Sample.world_of s 50 (Some (Sample.discover_job running)) in
  let r := Discover.iteration Sample.cfg w in
  r.1 = Ret Break ∧
  status <$> migration_jobs (db r.2) = [completed] ∧
  trace r.2 = [ev_rpc "touch_job"; ev_select "migration_jobs";
               ev_rpc "claim_next_dir"; ev_update "migration_jobs"] ∧
  count (is_rpc "claim_next_dir") (trace r.2) = 1%nat ∧
  count is_sleep (trace r.2) = 0%nat.
Proof. vm_compute. done. Qed.

(** The sibling loop, for comparison: the migration worker, on an empty
    batch, sleeps 2 s and claims a second time before it marks its job
    completed. *)
Example worker_rechecks_after_pause :
  let s := mk_store [Sample.migrate_job running] Sample.counters [] [] [] in
  let r := Migrate.iteration Sample.cfg 7 (Sample.migrate_job running)
             (Sample.world_of s 50 None) in
  r.1 = Ret Break ∧
  status <$> migration_jobs (db r.2) = [completed] ∧
  trace r.2 = [ev_select "migration_jobs"; ev_rpc "claim_files_to_migrate";
               ev_sleep 2000; ev_rpc "claim_files_to_migrate";
               ev_update "migration_jobs"].
Proof. vm_compute. done. Qed.

(** ** A file whose every transfer fails (C5) *)

Section AllAttemptsFail.
Variable cfg : config.
Variable job : job.
Variable file : claimed_file.

Lemma attempts_all_fail (errs : list js_error) :
  ∀ (fuel : nat) (start a : Z) (w : world) (rest : list (option js_error)),
    faults w = [] →
    transfers w = (Some <$> errs) ++ rest →
    errs ≠ [] →
    a + Z.of_nat (length errs) = MAX_RETRIES cfg →
    (length errs ≤ fuel)%nat →
    let r := Migrate.attempts cfg fuel job file start a w in
    r.1 = Ret tt ∧
    faults r.2 = [] ∧
    transfers r.2 = rest ∧
    count is_transfer (trace r.2) = (count is_transfer (trace w) + length errs)%nat ∧
    count (is_insert "migration_logs") (trace r.2) =
      S (count (is_insert "migration_logs") (trace w)) ∧
    count (is_rpc "increment_progress") (trace r.2) =
      S (count (is_rpc "increment_progress") (trace w)) ∧
    ∃ e, last errs = Some e ∧
      migration_logs (db r.2) =
        migration_logs (db w) ++
          [mk_log (fresh_id lg_id (migration_logs (db w))) (cf_id file) (job_id job)
             log_failed (or_null (err_message e)) (MAX_RETRIES cfg) (cf_path file)
             (Migrate.dest_path (cf_path file)) (now r.2 - start)] ∧
      bunny_file_map (db r.2) =
        update_where bf_id (cf_id file) (set_file_final file_failed)
          (bunny_file_map (db w)) ∧
      migration_progress (db r.2) =
        increment_progress (now r.2) (job_id job) 0 0 0 0 1
          (migration_progress (db w)) ∧
      migration_jobs (db r.2) = migration_jobs (db w) ∧
      scan_queue (db r.2) = scan_queue (db w).
Proof.
  induction errs as [|e errs IH]; [done|].
  intros fuel start a w rest Hf Ht _ Ha Hfuel.
  destruct fuel as [|fuel]; [simpl in Hfuel; lia|].
  destruct w as [s t fl src tr tm ht cj evs]; simpl in Hf, Ht. subst fl tr.
  simpl Migrate.attempts.
  assert ((a <? MAX_RETRIES cfg) = true) as -> by (simpl in Ha; lia).
  destruct errs as [|e' errs].
  - (* the last attempt *)
    simpl in Ha.
    unfold bind, try_catch, Migrate.transfer; simpl.
    assert ((MAX_RETRIES cfg <=? a + 1) = true) as -> by lia.
    unfold bind, get, Migrate.logResult, Migrate.finalizeFile, Migrate.incProgress,
      request, or_throw, ret; simpl.
    rewrite !count_snoc; simpl.
    split_and!; try done; try lia.
    exists e. split; [done|].
    by replace (a + 1) with (MAX_RETRIES cfg) by lia.
  - (* an attempt that is retried *)
    unfold bind at 1. unfold try_catch, Migrate.transfer, bind at 1; simpl.
    assert ((MAX_RETRIES cfg <=? a + 1) = false) as ->
      by (simpl length in Ha; lia).
    unfold bind at 1; unfold sleep, modify, ret; simpl.
    match goal with
    | |- context [Migrate.attempts cfg fuel job file start (a + 1) ?w1] =>
        specialize (IH fuel start (a + 1) w1 rest)
    end.
    destruct IH as (H1 & H2 & H3 & H4 & H5 & H6 & e0 & H7 & H8 & H9 & H10 & H11 & H12);
      [done|done|done|simpl length in *; lia|simpl length in *; lia|].
    simpl in H4, H5, H6, H8, H9, H10, H11, H12.
    rewrite !count_snoc in H4, H5, H6; simpl in H4, H5, H6.
    split_and!; try done; try (simpl length; lia).
    exists e0. by split_and!.
Qed.
End AllAttemptsFail.

Lemma increment_failed_files now id tbl :
  failed_files <$> increment_progress now id 0 0 0 0 1 tbl =
  (λ p, if bool_decide (p_job_id p = id) then failed_files p + 1 else failed_files p) <$> tbl.
Proof.
  unfold increment_progress. rewrite <- list_fmap_compose.
  apply list_fmap_ext. intros i p _. simpl. by case_bool_decide.
Qed.

Lemma increment_failed_only now id tbl :
  (λ p, (p_job_id p, total_bytes p, total_files p, scanned_dirs p, migrated_files p))
    <$> increment_progress now id 0 0 0 0 1 tbl =
  (λ p, (p_job_id p, total_bytes p, total_files p, scanned_dirs p, migrated_files p))
    <$> tbl.
Proof.
  unfold increment_progress. rewrite <- list_fmap_compose.
  apply list_fmap_ext. intros i p _. simpl. case_bool_decide; [|done].
  simpl. by rewrite !Z.add_0_r.
Qed.

(** C5. With [MAX_RETRIES >= 1] and a file whose transfer fails at each of
    the [MAX_RETRIES] attempts, [migrateOne] returns after exactly
    [MAX_RETRIES] transfer attempts; it has appended one record to the
    migration log, with status failed and [attempts = MAX_RETRIES]; the
    inventory entry of the file is failed with [claimed_at] and [claimed_by]
    cleared; and it has made a single progress increment, which adds 1 to
    [failed_files] of the job and leaves the other counters as they were. *)
Theorem exhausted_retries_recorded_once (cfg : config) (job : job) (file : claimed_file)
    (w : world) (errs : list js_error) (rest : list (option js_error)) :
  1 ≤ MAX_RETRIES cfg →
  faults w = [] →
  transfers w = (Some <$> errs) ++ rest →
  Z.of_nat (length errs) = MAX_RETRIES cfg →
  let r := Migrate.migrateOne cfg job file w in
  r.1 = Ret tt ∧
  Z.of_nat (count is_transfer (trace r.2)) =
    Z.of_nat (count is_transfer (trace w)) + MAX_RETRIES cfg ∧
  count (is_insert "migration_logs") (trace r.2) =
    S (count (is_insert "migration_logs") (trace w)) ∧
  count (is_rpc "increment_progress") (trace r.2) =
    S (count (is_rpc "increment_progress") (trace w)) ∧
  (∃ lg, migration_logs (db r.2) = migration_logs (db w) ++ [lg] ∧
         lg_status lg = log_failed ∧ lg_attempts lg = MAX_RETRIES cfg ∧
         lg_file_id lg = cf_id file ∧ lg_job_id lg = job_id job) ∧
  bunny_file_map (db r.2) =
    update_where bf_id (cf_id file) (set_file_final file_failed) (bunny_file_map (db w)) ∧
  (∀ b, b ∈ bunny_file_map (db r.2) → bf_id b = cf_id file →
        bf_status b = file_failed ∧ bf_claimed_at b = None ∧ bf_claimed_by b = None) ∧
  failed_files <$> migration_progress (db r.2) =
    (λ p, if bool_decide (p_job_id p = job_id job)
          then failed_files p + 1 else failed_files p) <$> migration_progress (db w) ∧
  (λ p, (p_job_id p, total_bytes p, total_files p, scanned_dirs p, migrated_files p))
    <$> migration_progress (db r.2) =
  (λ p, (p_job_id p, total_bytes p, total_files p, scanned_dirs p, migrated_files p))
    <$> migration_progress (db w).
Proof.
  intros Hmax Hf Ht Hlen r.
  assert (Hne : errs ≠ []) by (intros ->; simpl in Hlen; lia).
  pose proof (attempts_all_fail cfg job file errs (Z.to_nat (MAX_RETRIES cfg))
                (now w) 0 w rest Hf Ht Hne) as H.
  destruct H as (H1 & _ & _ & H4 & H5 & H6 & e & _ & H8 & H9 & H10 & _); [lia..|].
  assert (Hr : r = Migrate.attempts cfg (Z.to_nat (MAX_RETRIES cfg)) job file (now w) 0 w).
  { subst r. unfold Migrate.migrateOne, bind, get. done. }
  rewrite <- Hr in *.
  split_and!; try done.
  - rewrite H4. lia.
  - eexists. split; [exact H8|]. done.
  - intros b. rewrite H9. intros (b0 & _ & ->)%update_where_elem_of.
    case_bool_decide; [done|]. intros; congruence.
  - rewrite H10. apply increment_failed_files.
  - rewrite H10. apply increment_failed_only.
Qed.

Lemma exhausted_retries_witness :
  let e := mk_error None "timeout of 120000ms exceeded" in
  let file := mk_claimed_file 2 "/a.txt" None None (Some 20) in
  let s := mk_store [Sample.migrate_job running] Sample.counters []
             [mk_file 2 "/a.txt" false (Some "/") (Some 20) None None in_progress
                (Some 5) (Some 7%positive)] [] in
  let w := with_transfers [Some e; Some e; Some e] (Sample.world_of s 50 None) in
  let r := Migrate.migrateOne Sample.cfg (Sample.migrate_job running) file w in
  r.1 = Ret tt ∧
  Z.of_nat (count is_transfer (trace r.2)) = 3 ∧
  count (is_rpc "increment_progress") (trace r.2) = 1%nat ∧
  failed_files <$> migration_progress (db r.2) = [0; 1] ∧
  bunny_file_map (db r.2) =
    [mk_file 2 "/a.txt" false (Some "/") (Some 20) None None file_failed None None].
Proof.
  intros e file s w r.
  destruct (exhausted_retries_recorded_once Sample.cfg (Sample.migrate_job running)
              file w [e; e; e] [])
    as (H1 & H2 & _ & H4 & _ & H6 & _ & H8 & _).
  - vm_compute. discriminate.
  - reflexivity.
  - reflexivity.
  - reflexivity.
  - fold r in H1, H2, H4, H6, H8.
    split_and!; [exact H1 | exact H2 | exact H4 | exact H8 | exact H6].
Defined.


(** ** Insert-only writes (C4) *)

Lemma append_cons c (s t : string) : String c s +:+ t = String c (s +:+ t).
Proof. reflexivity. Qed.

Lemma prefix_app (pat s : string) :
  String.prefix pat s = true ↔ ∃ post, s = pat +:+ post.
Proof.
  revert s. induction pat as [|c pat IH]; intros s.
  - split; [intros _; by exists s | intros _; by destruct s].
  - destruct s as [|c' s]; simpl.
    + split; [done | intros [post H]; discriminate].
    + setoid_rewrite append_cons.
      destruct (Ascii.ascii_dec c c') as [->|Hne].
      * rewrite IH. split; intros [post H]; exists post; congruence.
      * split; [done | intros [post H]; congruence].
Qed.

(** [contains pat s] says that [pat] occurs in [s]. *)
Lemma contains_occurs (pat s : string) :
  contains pat s = true ↔ ∃ pre post, s = pre +:+ pat +:+ post.
Proof.
  induction s as [|c s IH].
  - change (contains pat "") with (String.prefix pat "" || false).
    rewrite orb_false_r, prefix_app. split.
    + intros [post H]. by exists "", post.
    + intros (pre & post & H). destruct pre; [by exists post|discriminate].
  - change (contains pat (String c s))
      with (String.prefix pat (String c s) || contains pat s).
    rewrite orb_true_iff, prefix_app, IH. split.
    + intros [[post H]|(pre & post & H)].
      * by exists "", post.
      * exists (String c pre), post. by rewrite append_cons, H.
    + intros (pre & post & H). destruct pre as [|c' pre].
      * left. by exists post.
      * right. exists pre, post. rewrite append_cons in H. congruence.
Qed.

Lemma insert_scan_queue_keeps_unique path parent st tbl :
  NoDup (sq_path <$> tbl) → NoDup (sq_path <$> (insert_scan_queue path parent st tbl).2).
Proof.
  intros Hnd. unfold insert_scan_queue. case_bool_decide as Hin; [done|]. simpl.
  rewrite fmap_app. apply NoDup_app. split_and!; [done| |apply NoDup_singleton].
  intros p Hp Hp'. simpl in Hp'. apply list_elem_of_singleton in Hp' as ->. done.
Qed.

Lemma insert_bunny_file_map_keeps_unique e tbl :
  NoDup (bf_path <$> tbl) → NoDup (bf_path <$> (insert_bunny_file_map e tbl).2).
Proof.
  intros Hnd. unfold insert_bunny_file_map. case_bool_decide as Hin; [done|]. simpl.
  rewrite fmap_app. apply NoDup_app. split_and!; [done| |apply NoDup_singleton].
  intros p Hp Hp'. simpl in Hp'. apply list_elem_of_singleton in Hp' as ->. done.
Qed.

(** C4, as the code has it.  Inserting a frontier or an inventory row whose
    path is already there returns without an error and leaves the store as
    it was, the existing row included.  An error of the insert is thrown to
    the caller when its code is not 23505 and its message holds neither
    "duplicate" nor "unique" in any letter case. *)
Theorem duplicate_insert_is_silent (wq wf we : world) (path : string)
    (parent_path : option string) (entry : file_entry)
    (e : js_error) (rest : list (option js_error)) :
  faults wq = [] →
  path ∈ sq_path <$> scan_queue (db wq) →
  faults wf = [] →
  e_path entry ∈ bf_path <$> bunny_file_map (db wf) →
  faults we = Some e :: rest →
  err_code e ≠ Some "23505" →
  test_duplicate_unique (err_message e) = false →
  ((Discover.insertDir path parent_path wq).1 = Ret tt ∧
   db (Discover.insertDir path parent_path wq).2 = db wq) ∧
  ((Discover.insertFileOrDir entry wf).1 = Ret tt ∧
   db (Discover.insertFileOrDir entry wf).2 = db wf) ∧
  ((Discover.insertDir path parent_path we).1 = Throw e ∧
   db (Discover.insertDir path parent_path we).2 = db we) ∧
  ((Discover.insertFileOrDir entry we).1 = Throw e ∧
   db (Discover.insertFileOrDir entry we).2 = db we).
Proof.
  intros Hq Hpath Hf Hentry He Hcode Hmsg.
  assert (Hnot : is_duplicate_error e = false).
  { unfold is_duplicate_error. by rewrite Hmsg, bool_decide_eq_false_2. }
  split; [|split; [|split]].
  - destruct wq as [[] ? ? ? ? ? ? ? ?]; simpl in *; subst.
    unfold Discover.insertDir, bind, request, insert_scan_queue; simpl.
    by rewrite (bool_decide_eq_true_2 _ Hpath).
  - destruct wf as [[] ? ? ? ? ? ? ? ?]; simpl in *; subst.
    unfold Discover.insertFileOrDir, bind, request, insert_bunny_file_map; simpl.
    by rewrite (bool_decide_eq_true_2 _ Hentry).
  - destruct we as [[] ? ? ? ? ? ? ? ?]; simpl in *; subst.
    unfold Discover.insertDir, bind, request; simpl. by rewrite Hnot.
  - destruct we as [[] ? ? ? ? ? ? ? ?]; simpl in *; subst.
    unfold Discover.insertFileOrDir, bind, request; simpl. by rewrite Hnot.
Qed.

Lemma duplicate_insert_witness :
  let s := Sample.store_of [Sample.discover_job running] in
  let w := Sample.world_of s 50 None in
  let e := mk_error (Some "57014") "canceling statement due to statement timeout" in
  (Discover.insertDir "/a/" (Some "/") w).1 = Ret tt ∧
  db (Discover.insertDir "/a/" (Some "/") w).2 = s ∧
  (Discover.insertDir "/a/" (Some "/") (with_faults [Some e] w)).1 = Throw e.
Proof.
  intros s w e.
  destruct (duplicate_insert_is_silent w w (with_faults [Some e] w) "/a/" (Some "/")
              (mk_entry "/a.txt" false (Some "/") (Some 20) None None pending) e [])
    as ((H1 & H2) & _ & (H3 & _) & _).
  - reflexivity.
  - compute_done.
  - reflexivity.
  - compute_done.
  - reflexivity.
  - discriminate.
  - reflexivity.
  - split_and!; [exact H1 | exact H2 | exact H3].
Defined.

(** C4 as stated fails on the code: an error that is no uniqueness
    violation (its code is P0001, not 23505) is swallowed because its
    message holds "duplicate"; the insert returns as if it had succeeded and
    no row is written. *)
Lemma duplicate_insert_counterexample :
  let e := mk_error (Some "P0001") "Duplicate scan rejected" in
  let w := with_faults [Some e] (Sample.world_of (Sample.store_of []) 50 None) in
  let r := Discover.insertDir "/c/" (Some "/") w in
  err_code e ≠ Some "23505" ∧
  r.1 ≠ Throw e ∧ r.1 = Ret tt ∧
  "/c/" ∉ sq_path <$> scan_queue (db r.2).
Proof.
  intros e w r. split_and!.
  - subst e. simpl. discriminate.
  - vm_compute. discriminate.
  - vm_compute. reflexivity.
  - subst r w e. apply (bool_decide_unpack _). vm_compute. exact I.
Qed.

(** ** Choosing the job at start-up (C10) *)

Lemma fresh_id_bound {R} (row_id : R → uuid) (tbl : list R) r :
  r ∈ tbl → (row_id r < fresh_id row_id tbl)%positive.
Proof.
  unfold fresh_id. induction tbl as [|x tbl IH]; simpl.
  - intros H. by apply elem_of_nil in H.
  - rewrite Pos.lt_succ_r.
    intros [->|Hin]%elem_of_cons; [apply Pos.le_max_l|].
    specialize (IH Hin). rewrite Pos.lt_succ_r in IH.
    etrans; [exact IH|apply Pos.le_max_r].
Qed.

Lemma fresh_id_fresh {R} (row_id : R → uuid) (tbl : list R) :
  fresh_id row_id tbl ∉ row_id <$> tbl.
Proof.
  intros (r & Heq & Hin)%list_elem_of_fmap.
  pose proof (fresh_id_bound row_id tbl r Hin). lia.
Qed.

#[local] Instance newest_first_total : Total Discover.newest_first.
Proof. intros a b. unfold Discover.newest_first. lia. Qed.

#[local] Instance newest_first_trans : Transitive Discover.newest_first.
Proof. intros a b c. unfold Discover.newest_first. lia. Qed.

(** The row the query of [findHealthyRunningJob] returns is a running
    discover job that no other running discover job is newer than. *)
Lemma select_running_discover_newest tbl j rest :
  Discover.select_running_discover tbl = j :: rest →
  rest = [] ∧ j ∈ tbl ∧ Discover.running_discover j ∧
  ∀ j', j' ∈ tbl → Discover.running_discover j' → created_at j' ≤ created_at j.
Proof.
  unfold Discover.select_running_discover.
  set (l := filter Discover.running_discover tbl).
  pose proof (StronglySorted_merge_sort Discover.newest_first l) as Hs.
  pose proof (merge_sort_Permutation Discover.newest_first l) as Hp.
  destruct (merge_sort Discover.newest_first l) as [|h sorted]; [done|].
  simpl. rewrite take_0. intros [= -> <-].
  assert (Hj : j ∈ l) by (rewrite <- Hp; left).
  apply list_elem_of_filter in Hj as [Hrd Hj].
  split_and!; [done..|].
  intros j' Hj' Hrd'.
  assert (Hin : j' ∈ j :: sorted).
  { rewrite Hp. by apply list_elem_of_filter. }
  apply StronglySorted_cons in Hs as [Hall _].
  apply elem_of_cons in Hin as [->|Hin]; [done|].
  rewrite Forall_forall in Hall. by apply Hall.
Qed.

Lemma select_running_discover_none tbl :
  Discover.select_running_discover tbl = [] →
  ∀ j, j ∈ tbl → ¬ Discover.running_discover j.
Proof.
  unfold Discover.select_running_discover.
  set (l := filter Discover.running_discover tbl).
  pose proof (merge_sort_Permutation Discover.newest_first l) as Hp.
  destruct (merge_sort Discover.newest_first l) as [|h sorted]; [|done].
  intros _ j Hj Hrd.
  assert (j ∈ l) as Hin by by apply list_elem_of_filter.
  rewrite <- Hp in Hin. by apply elem_of_nil in Hin.
Qed.

Lemma select_running_discover_strict tbl j :
  j ∈ tbl → Discover.running_discover j →
  (∀ j', j' ∈ tbl → Discover.running_discover j' → j' ≠ j →
         created_at j' < created_at j) →
  Discover.select_running_discover tbl = [j].
Proof.
  intros Hj Hrd Hnew.
  destruct (Discover.select_running_discover tbl) as [|h rest] eqn:Hsel.
  - by destruct (select_running_discover_none _ Hsel j Hj).
  - apply select_running_discover_newest in Hsel as (-> & Hh & Hrdh & Hmax).
    destruct (decide (h = j)) as [->|Hne]; [done|].
    specialize (Hnew h Hh Hrdh Hne). specialize (Hmax j Hj Hrd). lia.
Qed.

Section ChooseJob.
Variable WORKER_ID : uuid.

Lemma choose_job_creates w :
  faults w = [] →
  Discover.select_running_discover (migration_jobs (db w)) = [] ∨
  (∃ j, Discover.select_running_discover (migration_jobs (db w)) = [j] ∧
        ¬ Discover.healthy (now w) j) →
  let r := Discover.choose_job WORKER_ID w in
  r.1 = Ret tt ∧
  ∃ fresh, CURRENT_JOB r.2 = Some fresh ∧
    migration_jobs (db r.2) = migration_jobs (db w) ++ [fresh] ∧
    kind fresh = discover ∧ status fresh = running ∧
    last_heartbeat fresh = Some (now w) ∧
    job_id fresh ∉ job_id <$> migration_jobs (db w).
Proof.
  destruct w as [[jobs prog sq bfm logs] t fl src tr tm ht cj evs]; simpl.
  intros -> Hsel.
  unfold Discover.choose_job, Discover.findHealthyRunningJob, bind, request,
    or_throw, ret, get; simpl.
  assert (Hcreate :
    ∀ w0, faults w0 = [] → migration_jobs (db w0) = jobs → now w0 = t →
      let r := (bind (Discover.createJob WORKER_ID "Concurrent-safe discovery")
                  (λ j, modify (with_current_job (Some j)))) w0 in
      r.1 = Ret tt ∧
      ∃ fresh, CURRENT_JOB r.2 = Some fresh ∧
        migration_jobs (db r.2) = jobs ++ [fresh] ∧
        kind fresh = discover ∧ status fresh = running ∧
        last_heartbeat fresh = Some t ∧
        job_id fresh ∉ job_id <$> jobs).
  { intros [[jobs0 prog0 sq0 bfm0 logs0] t0 fl0 src0 tr0 tm0 ht0 cj0 evs0]; simpl.
    intros -> -> ->.
    unfold Discover.createJob, bind, request, or_throw, ret, modify,
      insert_progress; simpl.
    case_bool_decide; simpl;
      (split; [done|]; eexists; split_and!; try done; apply fresh_id_fresh). }
  destruct Hsel as [->|(j & -> & Hstale)]; simpl.
  - by apply Hcreate.
  - unfold Discover.healthy in Hstale. simpl in Hstale.
    rewrite (bool_decide_eq_false_2 _ Hstale). by apply Hcreate.
Qed.

Lemma choose_job_adopts w j :
  faults w = [] →
  Discover.select_running_discover (migration_jobs (db w)) = [j] →
  Discover.healthy (now w) j →
  let r := Discover.choose_job WORKER_ID w in
  r.1 = Ret tt ∧ CURRENT_JOB r.2 = Some j ∧
  migration_jobs (db r.2) = migration_jobs (db w).
Proof.
  destruct w as [[jobs prog sq bfm logs] t fl src tr tm ht cj evs]; simpl.
  intros -> Hsel Hh.
  unfold Discover.choose_job, Discover.findHealthyRunningJob, bind, request,
    or_throw, ret, get; simpl.
  rewrite Hsel; simpl. unfold Discover.healthy in Hh; simpl in Hh.
  by rewrite (bool_decide_eq_true_2 _ Hh).
Qed.
End ChooseJob.

(** C10, as the code has it.  At start-up, with parallel discovery
    disabled, the crawler looks at one job only, the most recently created
    discover job with status running.  When the last heartbeat of that job
    (its creation time when it has none) is at most 2 minutes old, the
    crawler adopts it and creates no job.  When it is older, or when no
    discover job is running, the crawler creates a fresh discover job. *)
Theorem adopts_newest_running_job_if_healthy (WORKER_ID : uuid) (w : world)
    (newest : option job) :
  faults w = [] →
  Discover.newest_running_discover (migration_jobs (db w)) newest →
  let r := Discover.choose_job WORKER_ID w in
  let adopted j :=
    CURRENT_JOB r.2 = Some j ∧ migration_jobs (db r.2) = migration_jobs (db w) in
  let created :=
    ∃ fresh, CURRENT_JOB r.2 = Some fresh ∧
      migration_jobs (db r.2) = migration_jobs (db w) ++ [fresh] ∧
      kind fresh = discover ∧ status fresh = running ∧
      last_heartbeat fresh = Some (now w) ∧
      job_id fresh ∉ job_id <$> migration_jobs (db w) in
  r.1 = Ret tt ∧
  match newest with
  | Some j => (Discover.healthy (now w) j → adopted j) ∧
              (¬ Discover.healthy (now w) j → created)
  | None => created
  end.
Proof.
  intros Hf Hnew r adopted created. destruct newest as [j|]; simpl in Hnew.
  - destruct Hnew as (Hj & Hrd & Hstrict).
    pose proof (select_running_discover_strict _ j Hj Hrd Hstrict) as Hsel.
    destruct (decide (Discover.healthy (now w) j)) as [Hh|Hs].
    + destruct (choose_job_adopts WORKER_ID w j Hf Hsel Hh) as (H1 & H2 & H3).
      split; [done|]. split; [done|]. intros Hs. by destruct Hs.
    + destruct (choose_job_creates WORKER_ID w Hf) as (H1 & H2); [right; eauto|].
      split; [done|]. split; [intros Hh; by destruct Hs|done].
  - destruct (Discover.select_running_discover (migration_jobs (db w)))
      as [|h rest] eqn:Hsel.
    + by apply choose_job_creates; [|left].
    + apply select_running_discover_newest in Hsel as (_ & Hh & Hrd & _).
      by destruct (Hnew h Hh).
Qed.

Lemma adopts_newest_witness :
  let j := Sample.discover_job running in
  let w := Sample.world_of (Sample.store_of [j; Sample.migrate_job running]) 50 None in
  let r := Discover.choose_job 7 w in
  r.1 = Ret tt ∧ CURRENT_JOB r.2 = Some j ∧
  migration_jobs (db r.2) = [j; Sample.migrate_job running].
Proof.
  intros j w r.
  destruct (adopts_newest_running_job_if_healthy 7 w (Some j)) as (H1 & H2 & _).
  - reflexivity.
  - split_and!; [compute_done | compute_done |].
    intros j' Hin [Hk _] Hne.
    apply elem_of_cons in Hin as [->|Hin]; [done|].
    apply list_elem_of_singleton in Hin as ->. discriminate.
  - destruct H2 as (H2 & H3); [compute_done|].
    split_and!; [exact H1 | exact H2 | exact H3].
Defined.

(** C10 as stated fails on the code.  Two discover jobs are running: the
    older one has sent a heartbeat 10 s ago, the more recently created one
    has been silent for more than 6 minutes.  The call of [reap_stale_jobs]
    fails (an error the crawler logs and goes on from; [db_setup.sql] does
    not define the function).  The crawler looks at the newest running job
    only, finds it stale and creates a third job, although a healthy running
    discover job exists. *)
Lemma adopt_counterexample :
  let alive := mk_job 1 discover running "alive" 0 (Some 9%positive) (Some 990000) None in
  let silent := mk_job 2 discover running "silent" 500000 (Some 8%positive) (Some 600000) None in
  let s := mk_store [alive; silent] Sample.counters Sample.frontier [] [] in
  let reap_error :=
    mk_error (Some "PGRST202")
      "Could not find the function public.reap_stale_jobs in the schema cache" in
  let w := with_faults [Some reap_error] (Sample.world_of s 1000000 None) in
  let r := Discover.start 7 w in
  alive ∈ migration_jobs (db w) ∧
  Discover.running_discover alive ∧
  Discover.healthy (now w) alive ∧
  r.1 = Ret tt ∧
  CURRENT_JOB r.2 ≠ Some alive ∧
  job_id <$> CURRENT_JOB r.2 = Some 3%positive ∧
  job_id <$> migration_jobs (db r.2) = [1; 2; 3]%positive.
Proof.
  intros alive silent s reap_error w r.
  split_and!; [compute_done | compute_done | compute_done | | | |];
    vm_compute; done.
Qed.

(** ** Heartbeats (C7) *)

Section CrawlerStart.
Variable WORKER_ID : uuid.

Lemma reapStale_ok w :
  faults w = [] →
  (Discover.reapStale w).1 = Ret tt ∧ faults (Discover.reapStale w).2 = [].
Proof.
  destruct w as [s t fl src tr tm ht cj evs]; simpl. intros ->. done.
Qed.

Lemma ensureRootQueued_ok w :
  faults w = [] →
  (Discover.ensureRootQueued w).1 = Ret tt ∧
  faults (Discover.ensureRootQueued w).2 = [].
Proof.
  destruct w as [s t fl src tr tm ht cj evs]; simpl. intros ->.
  unfold Discover.ensureRootQueued, Discover.insertDir, bind, request,
    insert_scan_queue; simpl.
  case_bool_decide; simpl; [|done].
  by replace (is_duplicate_error (unique_violation "uniq_scan_queue_path"))
    with true by (vm_compute; reflexivity).
Qed.

Lemma choose_job_ok w :
  faults w = [] →
  let r := Discover.choose_job WORKER_ID w in
  r.1 = Ret tt ∧ faults r.2 = [] ∧
  ∃ j, CURRENT_JOB r.2 = Some j ∧ kind j = discover.
Proof.
  destruct w as [[jobs prog sq bfm logs] t fl src tr tm ht cj evs]; simpl.
  intros ->.
  unfold Discover.choose_job, Discover.findHealthyRunningJob, bind, request,
    or_throw, ret, get; simpl.
  assert (Hcreate :
    ∀ w0, faults w0 = [] →
      let r := (bind (Discover.createJob WORKER_ID "Concurrent-safe discovery")
                  (λ j, modify (with_current_job (Some j)))) w0 in
      r.1 = Ret tt ∧ faults r.2 = [] ∧
      ∃ j, CURRENT_JOB r.2 = Some j ∧ kind j = discover).
  { intros [[jobs0 prog0 sq0 bfm0 logs0] t0 fl0 src0 tr0 tm0 ht0 cj0 evs0]; simpl.
    intros ->.
    unfold Discover.createJob, bind, request, or_throw, ret, modify,
      insert_progress; simpl.
    case_bool_decide; simpl.
    - replace (is_duplicate_error (unique_violation "migration_progress_pkey"))
        with true by (vm_compute; reflexivity).
      simpl. split_and!; [done..|]. by eexists.
    - split_and!; [done..|]. by eexists. }
  destruct (Discover.select_running_discover jobs) as [|j rest] eqn:Hsel; simpl.
  - by apply Hcreate.
  - case_bool_decide; simpl; [|by apply Hcreate].
    split_and!; [done..|]. exists j. split; [done|].
    by apply select_running_discover_newest in Hsel as (_ & _ & [? _] & _).
Qed.

Lemma startHeartbeat_registers w :
  let r := Discover.startHeartbeat w in
  r.1 = Ret tt ∧ CURRENT_JOB r.2 = CURRENT_JOB w ∧ faults r.2 = faults w ∧
  ∃ h, HEARTBEAT_TIMER r.2 = Some h ∧
       mk_timer h cb_heartbeat Discover.HEARTBEAT_MS ∈ timers r.2.
Proof.
  destruct w as [s t fl src tr tm ht cj evs]; simpl.
  unfold Discover.startHeartbeat, bind, get, setInterval, clearInterval, modify, ret.
  destruct ht as [h0|]; simpl; (split_and!; [done..|]);
    eexists; (split; [done|]); apply elem_of_app; right; left.
Qed.

Lemma start_registers_heartbeat w :
  faults w = [] →
  let r := Discover.start WORKER_ID w in
  r.1 = Ret tt ∧ faults r.2 = [] ∧
  ∃ h j, CURRENT_JOB r.2 = Some j ∧ kind j = discover ∧
         HEARTBEAT_TIMER r.2 = Some h ∧
         mk_timer h cb_heartbeat Discover.HEARTBEAT_MS ∈ timers r.2.
Proof.
  intros Hf. unfold Discover.start, bind.
  destruct (reapStale_ok w Hf) as [H1 Hf1].
  destruct (Discover.reapStale w) as [o1 w1]; simpl in *; subst o1.
  destruct (ensureRootQueued_ok w1 Hf1) as [H2 Hf2].
  destruct (Discover.ensureRootQueued w1) as [o2 w2]; simpl in *; subst o2.
  destruct (choose_job_ok w2 Hf2) as (H3 & Hf3 & j & Hj & Hk).
  destruct (Discover.choose_job WORKER_ID w2) as [o3 w3]; simpl in *; subst o3.
  destruct (startHeartbeat_registers w3) as (H4 & Hc & Hf4 & h & Hh & Ht).
  destruct (Discover.startHeartbeat w3) as [o4 w4]; simpl in *; subst o4.
  split_and!; [done|congruence|]. exists h, j. split_and!; congruence.
Qed.
End CrawlerStart.

Lemma heartbeat_touches_job w j :
  CURRENT_JOB w = Some j →
  faults w = [] →
  let r := run_callback cb_heartbeat w in
  r.1 = Ret tt ∧
  trace r.2 = trace w ++ [ev_rpc "touch_job"] ∧
  migration_jobs (db r.2) = touch_job (now w) (job_id j) (migration_jobs (db w)) ∧
  ∀ j', j' ∈ migration_jobs (db r.2) → job_id j' = job_id j →
        last_heartbeat j' = Some (now w).
Proof.
  destruct w as [s t fl src tr tm ht cj evs]; simpl. intros -> ->.
  unfold Discover.heartbeat, bind, get, request, ret; simpl.
  split_and!; [done..|].
  intros j' (j0 & _ & ->)%update_where_elem_of.
  case_bool_decide; [done|]. intros; congruence.
Qed.




(** ** The batch claim (C2) *)

Lemma Sorted_take {A} (R : relation A) n l : Sorted R l → Sorted R (take n l).
Proof.
  revert n. induction l as [|x l IH]; intros [|n] Hs; simpl; try constructor.
  - apply IH. by inv Hs.
  - inv Hs. destruct l as [|y l], n as [|n]; simpl; constructor.
    by inv H2.
Qed.

Section BatchFacts.
Context {R : Type}.
Variable row_id : R → uuid.
Variable row_path : R → string.
Variable claimable : R → bool.

Lemma filter_unlocked_nil (l : list R) :
  filter (λ r, unlocked row_id [] r = true) l = l.
Proof.
  induction l as [|r l IH]; [done|].
  rewrite filter_cons_True; [by rewrite IH|].
  unfold unlocked. rewrite bool_decide_eq_false_2; [done|apply not_elem_of_nil].
Qed.

(** With no row locked, the statement takes the first [n] claimable rows
    in path order. *)
Lemma select_alone n tbl :
  select_skip_locked row_id row_path claimable [] n tbl =
  take n (merge_sort (by_path row_path) (filter (λ r, claimable r = true) tbl)).
Proof. unfold select_skip_locked. by rewrite filter_unlocked_nil. Qed.

Lemma select_alone_length n tbl :
  length (select_skip_locked row_id row_path claimable [] n tbl) =
  (n `min` length (filter (λ r, claimable r = true) tbl))%nat.
Proof.
  rewrite select_alone, length_take.
  by rewrite (Permutation_length (merge_sort_Permutation _ _)).
Qed.

Lemma select_alone_sorted n tbl :
  Sorted (by_path row_path) (select_skip_locked row_id row_path claimable [] n tbl).
Proof. rewrite select_alone. apply Sorted_take, Sorted_merge_sort, _. Qed.

(** A batch at least as large as the number of claimable rows takes them
    all. *)
Lemma select_alone_all n tbl r :
  (length (filter (λ r, claimable r = true) tbl) ≤ n)%nat →
  r ∈ tbl → claimable r = true →
  r ∈ select_skip_locked row_id row_path claimable [] n tbl.
Proof.
  intros Hn Hin Hc. rewrite select_alone, take_ge.
  - rewrite merge_sort_Permutation. by apply list_elem_of_filter.
  - by rewrite (Permutation_length (merge_sort_Permutation _ _)).
Qed.
End BatchFacts.

(** What [claim_files_to_migrate] does hold of C2: with [k] pending files
    in the inventory, it returns [min n k] rows in path order, each of them
    a file that was pending. *)
Lemma claim_files_count_and_order (n : nat) (tbl : list file_row) :
  let r := claim_files_to_migrate n tbl in
  length r.1 = (n `min` length (filter (λ b, is_pending_file b = true) tbl))%nat ∧
  Sorted (λ a b, String.leb (cf_path a) (cf_path b) = true) r.1 ∧
  ∀ c, c ∈ r.1 → ∃ b, b ∈ tbl ∧ is_pending_file b = true ∧ c = returning_file b.
Proof.
  unfold claim_files_to_migrate, claim_files_cte; simpl. split_and!.
  - by rewrite length_fmap, select_alone_length.
  - eapply Sorted_fmap; [|apply select_alone_sorted]. done.
  - intros c (b & -> & Hb)%list_elem_of_fmap.
    apply select_elem_of in Hb as (? & ? & _). eauto.
Qed.

(** And what it does to the rows it returns: their status becomes
    [scanned], whatever the caller; [claimed_at] and [claimed_by] keep the
    value they had. *)
Lemma claim_files_sets_scanned (n : nat) (tbl : list file_row) (b' : file_row) :
  let r := claim_files_to_migrate n tbl in
  b' ∈ r.2 → bf_id b' ∈ cf_id <$> r.1 →
  bf_status b' = scanned ∧
  ∃ b, b ∈ tbl ∧ bf_id b = bf_id b' ∧
       bf_claimed_at b' = bf_claimed_at b ∧ bf_claimed_by b' = bf_claimed_by b.
Proof.
  unfold claim_files_to_migrate; simpl.
  intros (b & Hb & ->)%update_elem_of Hid.
  rewrite <- list_fmap_compose in Hid.
  case_bool_decide as Hc.
  - split; [done|]. by exists b.
  - destruct Hc. exact Hid.
Qed.


(** ** The stale-claim reaper (C3) *)

(** The reaper resets an [in_progress] row whose claim is older than the
    threshold, and the next batch claim of sufficient size returns it. *)
Lemma reaper_resets_in_progress now th tbl b t :
  b ∈ tbl → bf_status b = in_progress → bf_claimed_at b = Some t →
  minutes th < now - t →
  set_file_status pending b ∈ reclaim_inprogress_to_pending now th tbl.
Proof.
  intros Hb Hst Hat Hold. unfold reclaim_inprogress_to_pending.
  apply list_elem_of_fmap. exists b. split; [|done].
  unfold stale_claim. rewrite Hst, Hat. simpl.
  by replace (minutes th <? now - t) with true by lia.
Qed.

Lemma reaped_row_is_claimed_next now th tbl b t n :
  b ∈ tbl → bf_status b = in_progress → bf_claimed_at b = Some t →
  minutes th < now - t → bf_is_dir b = false →
  let tbl' := reclaim_inprogress_to_pending now th tbl in
  (length (filter (λ b, is_pending_file b = true) tbl') ≤ n)%nat →
  returning_file b ∈ (claim_files_to_migrate n tbl').1.
Proof.
  intros Hb Hst Hat Hold Hdir tbl' Hn.
  pose proof (reaper_resets_in_progress now th tbl b t Hb Hst Hat Hold) as Hin.
  unfold claim_files_to_migrate, claim_files_cte; simpl.
  apply list_elem_of_fmap. exists (set_file_status pending b). split; [done|].
  apply select_alone_all; [done..|].
  unfold is_pending_file; simpl. by rewrite Hdir.
Qed.

(** The reaper leaves a row with status [scanned] as it is, whatever the
    time and the threshold. *)
Lemma reaper_ignores_scanned now th tbl b :
  b ∈ tbl → bf_status b = scanned →
  b ∈ reclaim_inprogress_to_pending now th tbl.
Proof.
  intros Hb Hst. unfold reclaim_inprogress_to_pending.
  apply list_elem_of_fmap. exists b. split; [|done].
  unfold stale_claim. by rewrite Hst.
Qed.


(** * Further properties *)

(** ** Every outcome of [migrateOne] *)

Lemma sleeps_snoc evs e :
  sleeps (evs ++ [e]) = sleeps evs ++ match e with ev_sleep ms => [ms] | _ => [] end.
Proof.
  unfold sleeps. rewrite omap_app. f_equal. by destruct e.
Qed.

Lemma backoffs_nil first n : n ≤ 0 → backoffs first n = [].
Proof. intros Hn. unfold backoffs. by rewrite seqZ_nil. Qed.

Lemma backoffs_cons first n :
  0 < n → backoffs first n = 1000 * first * first :: backoffs (first + 1) (n - 1).
Proof. intros Hn. unfold backoffs. by rewrite seqZ_cons. Qed.

Section AttemptsOutcome.
Variable cfg : config.
Variable job : job.
Variable file : claimed_file.

(** What the retry loop does from attempt [a] on, when the store answers:
    it stops at an attempt [k], with the transfer of that attempt
    successful ([ok]) or with [k = MAX_RETRIES]; it has slept after each
    earlier attempt, and has written the outcome once. *)
Lemma attempts_outcome (fuel : nat) :
  ∀ (start a : Z) (w : world),
    faults w = [] →
    a < MAX_RETRIES cfg →
    (Z.to_nat (MAX_RETRIES cfg - a) ≤ fuel)%nat →
    let r := Migrate.attempts cfg fuel job file start a w in
    r.1 = Ret tt ∧ faults r.2 = [] ∧
    ∃ (k : Z) (ok : bool) (errs : list js_error) (tl : list (option js_error)),
      a < k ≤ MAX_RETRIES cfg ∧
      transfers w = (Some <$> errs) ++ tl ∧
      Z.of_nat (length errs) = k - a - 1 ∧
      transfers r.2 = tail tl ∧
      (if ok then ∀ e, head tl ≠ Some (Some e)
       else k = MAX_RETRIES cfg ∧ ∃ e, head tl = Some (Some e)) ∧
      count is_transfer (trace r.2) =
        (count is_transfer (trace w) + Z.to_nat (k - a))%nat ∧
      sleeps (trace r.2) = sleeps (trace w) ++ backoffs (a + 1) (k - a - 1) ∧
      (∃ lg, migration_logs (db r.2) = migration_logs (db w) ++ [lg] ∧
             lg_status lg = (if ok then log_success else log_failed) ∧
             lg_attempts lg = k ∧ lg_file_id lg = cf_id file ∧
             lg_job_id lg = job_id job ∧ lg_bunny_path lg = cf_path file ∧
             lg_supabase_path lg = Migrate.dest_path (cf_path file)) ∧
      bunny_file_map (db r.2) =
        update_where bf_id (cf_id file)
          (set_file_final (if ok then migrated else file_failed))
          (bunny_file_map (db w)) ∧
      migration_progress (db r.2) =
        increment_progress (now r.2) (job_id job) 0 0 0
          (if ok then 1 else 0) (if ok then 0 else 1)
          (migration_progress (db w)) ∧
      migration_jobs (db r.2) = migration_jobs (db w) ∧
      scan_queue (db r.2) = scan_queue (db w).
Proof.
  induction fuel as [|fuel IH]; intros start a w Hf Ha Hfuel; [lia|].
  destruct w as [s t fl src tr tm ht cj evs]; simpl in Hf; subst fl.
  simpl Migrate.attempts.
  assert ((a <? MAX_RETRIES cfg) = true) as -> by lia.
  destruct tr as [|[e|] tr'].
  - (* no outcome left in the stream: the transfer goes through *)
    unfold bind, try_catch, Migrate.transfer, get, Migrate.logResult,
      Migrate.finalizeFile, Migrate.incProgress, request, or_throw, ret; simpl.
    split_and!; [done..|].
    exists (a + 1), true, [], []. rewrite !count_snoc, !sleeps_snoc; simpl.
    rewrite ?app_nil_r.
    split_and!; try done; try lia.
    + rewrite backoffs_nil by lia. by rewrite app_nil_r.
    + by eexists.
  - (* the transfer fails *)
    destruct (decide (a + 1 = MAX_RETRIES cfg)) as [Hlast|Hmore].
    + unfold bind, try_catch, Migrate.transfer; simpl.
      assert ((MAX_RETRIES cfg <=? a + 1) = true) as -> by lia.
      unfold bind, get, Migrate.logResult, Migrate.finalizeFile,
        Migrate.incProgress, request, or_throw, ret; simpl.
      split_and!; [done..|].
      exists (a + 1), false, [], (Some e :: tr'). rewrite !count_snoc, !sleeps_snoc; simpl.
      rewrite ?app_nil_r.
      split_and!; try done; try lia.
      * by exists e.
      * rewrite backoffs_nil by lia. by rewrite app_nil_r.
      * by eexists.
    + unfold bind at 1. unfold try_catch, Migrate.transfer, bind at 1; simpl.
      assert ((MAX_RETRIES cfg <=? a + 1) = false) as -> by lia.
      unfold bind at 1; unfold sleep, modify, ret; simpl.
      match goal with
      | |- context [Migrate.attempts cfg fuel job file start (a + 1) ?w1] =>
          specialize (IH start (a + 1) w1)
      end.
      destruct IH as (H1 & H2 & k & ok & errs & tl & Hk & Htr & Hlen & Hrest & Hok
                      & Hcnt & Hsl & Hlog & Hbfm & Hprog & Hjobs & Hsq);
        [done|lia|lia|].
      simpl in Htr, Hcnt, Hsl, Hlog, Hbfm, Hprog, Hjobs, Hsq.
      split_and!; [done..|].
      exists k, ok, (e :: errs), tl.
      rewrite !count_snoc in Hcnt; simpl in Hcnt.
      rewrite !sleeps_snoc in Hsl; simpl in Hsl.
      split_and!; try done; try lia.
      * simpl. by rewrite Htr.
      * simpl length. lia.
      * rewrite Hsl, app_nil_r, <- app_assoc. f_equal.
        rewrite (backoffs_cons (a + 1)) by lia. simpl.
        do 2 f_equal; lia.
  - (* the transfer goes through *)
    unfold bind, try_catch, Migrate.transfer, get, Migrate.logResult,
      Migrate.finalizeFile, Migrate.incProgress, request, or_throw, ret; simpl.
    split_and!; [done..|].
    exists (a + 1), true, [], (None :: tr'). rewrite !count_snoc, !sleeps_snoc; simpl.
    rewrite ?app_nil_r.
    split_and!; try done; try lia.
    + rewrite backoffs_nil by lia. by rewrite app_nil_r.
    + by eexists.
Qed.
End AttemptsOutcome.

(** The failures at the head of a stream of transfer outcomes are
    determined by the stream. *)
Lemma failures_then_success (errs errs' : list js_error)
    (rest tl : list (option js_error)) :
  (Some <$> errs) ++ None :: rest = (Some <$> errs') ++ tl →
  (∀ e, head tl ≠ Some (Some e)) ∧ errs' = errs ∧ tl = None :: rest
  ∨ (∃ e, head tl = Some (Some e)) ∧ (length errs' < length errs)%nat.
Proof.
  revert errs'. induction errs as [|e errs IH]; intros [|e' errs'] H; simpl in H.
  - left. by subst tl.
  - discriminate.
  - right. subst tl. split; [by exists e | simpl; lia].
  - injection H as -> H. destruct (IH _ H) as [(? & -> & ?)|(? & ?)].
    + by left.
    + right. split; [done | simpl; lia].
Qed.

(** X1. Whatever the transfers do, [migrateOne] settles the file once: it
    appends one record to the log, for this file and job, whose [attempts]
    is the number of transfers it tried (between 1 and [MAX_RETRIES]); the
    row of the file goes to [migrated] or [failed] as the record says, with
    its claim columns cleared; and the progress of the job gets one
    increment, of [migrated_files] or of [failed_files]. *)
Theorem migrateOne_settles_file (cfg : config) (job : job) (file : claimed_file)
    (w : world) :
  faults w = [] →
  0 < MAX_RETRIES cfg →
  let r := Migrate.migrateOne cfg job file w in
  r.1 = Ret tt ∧
  ∃ (ok : bool) (lg : log_row),
    migration_logs (db r.2) = migration_logs (db w) ++ [lg] ∧
    lg_file_id lg = cf_id file ∧ lg_job_id lg = job_id job ∧
    lg_status lg = (if ok then log_success else log_failed) ∧
    1 ≤ lg_attempts lg ≤ MAX_RETRIES cfg ∧
    count is_transfer (trace r.2) =
      (count is_transfer (trace w) + Z.to_nat (lg_attempts lg))%nat ∧
    bunny_file_map (db r.2) =
      update_where bf_id (cf_id file)
        (set_file_final (if ok then migrated else file_failed))
        (bunny_file_map (db w)) ∧
    migration_progress (db r.2) =
      increment_progress (now r.2) (job_id job) 0 0 0
        (if ok then 1 else 0) (if ok then 0 else 1) (migration_progress (db w)).
Proof.
  intros Hf Hmax r.
  destruct (attempts_outcome cfg job file (Z.to_nat (MAX_RETRIES cfg)) (now w) 0 w)
    as (H1 & _ & k & ok & errs & tl & Hk & _ & _ & _ & _ & Hcnt & _
        & (lg & Hlog & Hst & Hatt & Hfile & Hjob & _) & Hbfm & Hprog & _);
    [done | lia | lia |].
  split; [exact H1|]. exists ok, lg.
  rewrite Hatt, Z.sub_0_r in *. split_and!; try done; lia.
Qed.

Lemma migrateOne_settles_file_witness :
  let e := mk_error None "socket hang up" in
  let file := mk_claimed_file 2 "/a.txt" None None (Some 20) in
  let w := with_transfers [Some e; None]
             (Sample.world_of (Sample.store_of [Sample.migrate_job running]) 50 None) in
  let r := Migrate.migrateOne Sample.cfg (Sample.migrate_job running) file w in
  r.1 = Ret tt ∧ length (migration_logs (db r.2)) = 1%nat.
Proof.
  intros e file w r.
  destruct (migrateOne_settles_file Sample.cfg (Sample.migrate_job running) file w)
    as (H1 & ok & lg & Hlog & _); [reflexivity | reflexivity |].
  fold r in H1, Hlog. split; [exact H1 | by rewrite Hlog].
Defined.

(** X2. The pauses of [migrateOne]: when it has tried [k] transfers it has
    slept [k - 1] times, 1000, 4000, 9000, ... milliseconds after the
    first, second, third ... failure, and not after the last attempt. *)
Theorem migrateOne_backoff_schedule (cfg : config) (job : job)
    (file : claimed_file) (w : world) :
  faults w = [] →
  0 < MAX_RETRIES cfg →
  let r := Migrate.migrateOne cfg job file w in
  ∃ k : Z,
    1 ≤ k ≤ MAX_RETRIES cfg ∧
    count is_transfer (trace r.2) = (count is_transfer (trace w) + Z.to_nat k)%nat ∧
    sleeps (trace r.2) = sleeps (trace w) ++ backoffs 1 (k - 1).
Proof.
  intros Hf Hmax r.
  destruct (attempts_outcome cfg job file (Z.to_nat (MAX_RETRIES cfg)) (now w) 0 w)
    as (_ & _ & k & ok & errs & tl & Hk & _ & _ & _ & _ & Hcnt & Hsl & _);
    [done | lia | lia |].
  exists k. rewrite Z.sub_0_r in *. split_and!; try done; lia.
Qed.

Lemma migrateOne_backoff_schedule_witness :
  let e := mk_error None "socket hang up" in
  let file := mk_claimed_file 2 "/a.txt" None None (Some 20) in
  let w := with_transfers [Some e; Some e; Some e]
             (Sample.world_of (Sample.store_of [Sample.migrate_job running]) 50 None) in
  let r := Migrate.migrateOne Sample.cfg (Sample.migrate_job running) file w in
  ∃ k : Z,
    1 ≤ k ≤ 3 ∧
    count is_transfer (trace r.2) = Z.to_nat k ∧
    sleeps (trace r.2) = backoffs 1 (k - 1).
Proof.
  intros e file w r.
  apply (migrateOne_backoff_schedule Sample.cfg (Sample.migrate_job running) file w);
    reflexivity.
Defined.

(** X3. The first transfer that goes through ends the retries: after
    [n < MAX_RETRIES] failures and a success the file is [migrated], the
    record says [success] with [attempts = n + 1], and the outcomes after
    the success are left for the next file. *)
Theorem migrateOne_first_success (cfg : config) (job : job) (file : claimed_file)
    (w : world) (errs : list js_error) (rest : list (option js_error)) :
  faults w = [] →
  transfers w = (Some <$> errs) ++ None :: rest →
  Z.of_nat (length errs) < MAX_RETRIES cfg →
  let r := Migrate.migrateOne cfg job file w in
  r.1 = Ret tt ∧
  transfers r.2 = rest ∧
  (∃ lg, migration_logs (db r.2) = migration_logs (db w) ++ [lg] ∧
         lg_status lg = log_success ∧
         lg_attempts lg = Z.of_nat (length errs) + 1) ∧
  bunny_file_map (db r.2) =
    update_where bf_id (cf_id file) (set_file_final migrated) (bunny_file_map (db w)) ∧
  sleeps (trace r.2) = sleeps (trace w) ++ backoffs 1 (Z.of_nat (length errs)).
Proof.
  intros Hf Htr Hmax r.
  destruct (attempts_outcome cfg job file (Z.to_nat (MAX_RETRIES cfg)) (now w) 0 w)
    as (H1 & _ & k & ok & errs' & tl & Hk & Htr' & Hlen & Hrest & Hok & _ & Hsl
        & (lg & Hlog & Hst & Hatt & _) & Hbfm & _);
    [done | lia | lia |].
  rewrite Htr in Htr'.
  destruct (failures_then_success _ _ _ _ Htr') as [(_ & -> & ->)|((e & He) & Hlt)].
  - destruct ok; [|by destruct Hok as (_ & ? & ?)].
    assert (k = Z.of_nat (length errs) + 1) as -> by lia.
    split_and!; try done.
    + by exists lg.
    + etransitivity; [exact Hsl|]. do 2 f_equal. lia.
  - destruct ok; [by destruct (Hok e)|]. lia.
Qed.

Lemma migrateOne_first_success_witness :
  let e := mk_error None "socket hang up" in
  let file := mk_claimed_file 2 "/a.txt" None None (Some 20) in
  let w := with_transfers [Some e; None; Some e]
             (Sample.world_of (Sample.store_of [Sample.migrate_job running]) 50 None) in
  let r := Migrate.migrateOne Sample.cfg (Sample.migrate_job running) file w in
  r.1 = Ret tt ∧ transfers r.2 = [Some e].
Proof.
  intros e file w r.
  destruct (migrateOne_first_success Sample.cfg (Sample.migrate_job running) file w
              [e] [Some e])
    as (H1 & H2 & _); [reflexivity | reflexivity | reflexivity |].
  split; [exact H1 | exact H2].
Defined.

(** ** The statements of [db_setup.sql] *)

(** The path order is transitive. *)
Lemma leb_le (a b : string) :
  String.leb a b = true ↔ OrderedTypeEx.String_as_OT.lt a b ∨ a = b.
Proof.
  unfold String.leb.
  rewrite <- OrderedTypeEx.String_as_OT.cmp_lt, <- OrderedTypeEx.String_as_OT.cmp_eq.
  unfold OrderedTypeEx.String_as_OT.cmp.
  destruct (String.compare a b); intuition discriminate.
Qed.

Lemma leb_trans (a b c : string) :
  String.leb a b = true → String.leb b c = true → String.leb a c = true.
Proof.
  rewrite !leb_le. intros [Hab| ->] [Hbc| ->]; auto.
  left. eapply OrderedTypeEx.String_as_OT.lt_trans; eauto.
Qed.

#[global] Instance by_path_trans {R} (row_path : R → string) :
  Transitive (by_path row_path).
Proof. intros a b c. apply leb_trans. Qed.

Lemma by_path_refl {R} (row_path : R → string) (a : R) : by_path row_path a a.
Proof. apply leb_le. by right. Qed.

(** The first row of a sorted selection is below every claimable row. *)
Lemma merge_sort_head_least {R} (row_path : R → string) (l : list R) (q : R)
    (rest : list R) :
  merge_sort (by_path row_path) l = q :: rest →
  ∀ q', q' ∈ l → by_path row_path q q'.
Proof.
  intros Hs q' Hq'.
  pose proof (StronglySorted_merge_sort (by_path row_path) l) as Hss.
  rewrite Hs in Hss. apply StronglySorted_inv in Hss as [_ Hall].
  rewrite <- (merge_sort_Permutation (by_path row_path)), Hs in Hq'.
  apply elem_of_cons in Hq' as [->|Hq']; [apply by_path_refl|].
  rewrite Forall_forall in Hall. by apply Hall.
Qed.


(** X5. [claim_next_dir] hands out the frontier in path order: it returns
    nothing and changes nothing when no row is queued; otherwise it returns
    one queued row whose path is below the path of every queued row, and
    sets the rows of that id to [claimed] at the time of the call. *)
Theorem claim_next_dir_least_path (now : timestamp) (tbl : list scan_row) :
  let r := claim_next_dir now tbl in
  (r.1 = [] ∧ r.2 = tbl ∧ ∀ q, q ∈ tbl → sq_status q ≠ queued)
  ∨ ∃ q, r.1 = [returning_dir q] ∧
         q ∈ tbl ∧ sq_status q = queued ∧
         (∀ q', q' ∈ tbl → sq_status q' = queued →
                String.leb (sq_path q) (sq_path q') = true) ∧
         r.2 = update_where sq_id (sq_id q) (set_claimed now) tbl.
Proof.
  unfold claim_next_dir, claim_dir_cte. simpl. rewrite select_alone.
  destruct (merge_sort (by_path sq_path) (filter (λ r, is_queued r = true) tbl))
    as [|q rest] eqn:Hs.
  - left. simpl. split_and!; [done| |].
    + unfold update_from_cte. rewrite <- (list_fmap_id tbl) at 2.
      apply list_fmap_ext. intros _ r _. simpl.
      done.
    + intros q Hq Hst.
      assert (q ∈ merge_sort (by_path sq_path) (filter (λ r, is_queued r = true) tbl))
        as Hin.
      { rewrite merge_sort_Permutation. apply list_elem_of_filter. split; [|done].
        unfold is_queued. by apply bool_decide_eq_true_2. }
      rewrite Hs in Hin. by apply elem_of_nil in Hin.
  - right. exists q. simpl take.
    assert (q ∈ filter (λ r, is_queued r = true) tbl) as Hq.
    { rewrite <- (merge_sort_Permutation (by_path sq_path)), Hs. apply elem_of_cons; auto. }
    apply list_elem_of_filter in Hq as [Hqueued Hq].
    apply bool_decide_eq_true in Hqueued.
    split_and!; [done..| |].
    + intros q' Hq' Hst.
      apply (merge_sort_head_least sq_path _ q rest Hs).
      apply list_elem_of_filter. split; [|done].
      unfold is_queued. by apply bool_decide_eq_true_2.
    + unfold update_from_cte, update_where. apply list_fmap_ext. intros _ r _. simpl.
      repeat case_bool_decide; try done.
      * exfalso. apply H0. by apply list_elem_of_singleton in H.
      * exfalso. apply H. by apply list_elem_of_singleton.
Qed.

(** ** What the crawler and the worker never do *)

#[local] Instance scan_row_advances_preorder : PreOrder scan_row_advances.
Proof.
  split.
  - intros q. by split_and!.
  - intros a b c (? & ? & ? & Hab) (? & ? & ? & Hbc).
    split_and!; [congruence..|auto].
Qed.

#[local] Instance file_row_advances_preorder : PreOrder file_row_advances.
Proof.
  split.
  - intros b. by split_and!.
  - intros a b c (? & ? & ? & ? & ? & ? & ? & Hab) (? & ? & ? & ? & ? & ? & ? & Hbc).
    split_and!; [congruence..|auto].
Qed.

#[local] Instance evolves_preorder {R} (ok : relation R) `{!PreOrder ok} :
  PreOrder (evolves ok).
Proof.
  split.
  - intros l. exists l, []. split; [by rewrite app_nil_r|]. reflexivity.
  - intros l l' l'' (l1 & l2 & -> & H1) (m1 & m2 & -> & H2).
    apply Forall2_app_inv_l in H2 as (m1a & m1b & Ha & Hb & ->).
    exists m1a, (m1b ++ m2). split; [by rewrite app_assoc|].
    by etrans.
Qed.

#[local] Instance crawler_keeps_preorder : PreOrder crawler_keeps.
Proof.
  split.
  - intros s. by split_and!.
  - intros a b c (? & ? & ?) (? & ? & ?). split_and!; [by etrans|congruence|by etrans].
Qed.

#[local] Instance worker_keeps_preorder : PreOrder worker_keeps.
Proof.
  split.
  - intros s. by split_and!.
  - intros a b c (? & ? & ?) (? & ? & ?). split_and!; [congruence|by etrans..].
Qed.

#[local] Instance on_store_preorder (S : relation store) `{!PreOrder S} :
  PreOrder (on_store S).
Proof.
  split.
  - intros w. unfold on_store. reflexivity.
  - intros a b c. unfold on_store. apply transitivity.
Qed.

Section OnStore.
Context (S : relation store) `{!PreOrder S}.

Lemma request_on_store {A} e (run : timestamp → store → (js_error + A) * store) :
  (∀ now s, S s (run now s).2) → preserves (on_store S) (request e run).
Proof.
  intros Hrun w. unfold request, on_store.
  destruct (faults (emit e w)) as [|[err|] rest]; simpl;
    try (specialize (Hrun (now w) (db w)); destruct (run _ _); exact Hrun).
  reflexivity.
Qed.

Lemma same_db_on_store {A} (m : M A) :
  (∀ w, db (m w).2 = db w) → preserves (on_store S) m.
Proof. intros Hm w. unfold on_store. rewrite Hm. reflexivity. Qed.

Lemma sleep_on_store ms : preserves (on_store S) (sleep ms).
Proof. by apply same_db_on_store. Qed.

Lemma modify_on_store f : (∀ w, db (f w) = db w) → preserves (on_store S) (modify f).
Proof. intros Hf. by apply same_db_on_store. Qed.

Lemma setInterval_on_store cb ms : preserves (on_store S) (setInterval cb ms).
Proof. by apply same_db_on_store. Qed.

Lemma clearInterval_on_store h : preserves (on_store S) (clearInterval h).
Proof. by apply same_db_on_store. Qed.

Lemma listDir_on_store path : preserves (on_store S) (Discover.listDir path).
Proof.
  apply same_db_on_store. intros w. unfold Discover.listDir.
  by destruct (source w path).
Qed.

Lemma transfer_on_store path rt : preserves (on_store S) (Migrate.transfer path rt).
Proof.
  apply same_db_on_store. intros w. unfold Migrate.transfer.
  by destruct (transfers (emit _ w)) as [|[err|] rest].
Qed.
End OnStore.

(** The writes of the crawler, one by one. *)
Lemma evolves_update {R} (ok : relation R) (f : R → R) (l : list R) :
  (∀ r, ok r (f r)) → evolves ok l (f <$> l).
Proof.
  intros Hf. exists (f <$> l), []. split; [by rewrite app_nil_r|].
  apply Forall2_fmap_r, Forall_Forall2_diag, Forall_forall. auto.
Qed.

Lemma evolves_snoc {R} (ok : relation R) `{!Reflexive ok} (l : list R) (r : R) :
  evolves ok l (l ++ [r]).
Proof. exists l, [r]. split; [done|reflexivity]. Qed.

Lemma crawler_keeps_jobs t s : crawler_keeps s (set_jobs t s).
Proof. by split_and!. Qed.

Lemma crawler_keeps_progress t s : crawler_keeps s (set_progress t s).
Proof. by split_and!. Qed.

Lemma crawler_keeps_insert_scan path parent s :
  crawler_keeps s (set_scan_queue (insert_scan_queue path parent queued (scan_queue s)).2 s).
Proof.
  unfold insert_scan_queue. case_bool_decide; simpl; split_and!; try done.
  apply evolves_snoc, _.
Qed.

Lemma crawler_keeps_insert_file entry s :
  crawler_keeps s (set_bunny_file_map (insert_bunny_file_map entry (bunny_file_map s)).2 s).
Proof.
  unfold insert_bunny_file_map. case_bool_decide; simpl; split_and!; try done.
  by apply prefix_app_r.
Qed.

Lemma crawler_keeps_claim now s :
  crawler_keeps s (set_scan_queue (claim_next_dir now (scan_queue s)).2 s).
Proof.
  unfold claim_next_dir; simpl. split_and!; try done.
  apply evolves_update. intros q. case_bool_decide; by split_and!.
Qed.

Lemma crawler_keeps_mark id st s :
  st ≠ queued →
  crawler_keeps s
    (set_scan_queue (update_where sq_id id (set_scan_status st) (scan_queue s)) s).
Proof.
  intros Hst. split_and!; try done.
  apply evolves_update. intros q. case_bool_decide; by split_and!.
Qed.

#[local] Hint Extern 1 (preserves (on_store _) (sleep _)) =>
  apply sleep_on_store; apply _ : preserves.
#[local] Hint Extern 1 (preserves (on_store _) (setInterval _ _)) =>
  apply setInterval_on_store; apply _ : preserves.
#[local] Hint Extern 1 (preserves (on_store _) (clearInterval _)) =>
  apply clearInterval_on_store; apply _ : preserves.
#[local] Hint Extern 1 (preserves (on_store _) (Discover.listDir _)) =>
  apply listDir_on_store; apply _ : preserves.
#[local] Hint Extern 1 (preserves (on_store _) (Migrate.transfer _ _)) =>
  apply transfer_on_store; apply _ : preserves.
#[local] Hint Extern 1 (preserves (on_store _) (modify _)) =>
  apply modify_on_store; [apply _|done] : preserves.
#[local] Hint Resolve crawler_keeps_jobs crawler_keeps_progress : preserves.

(** Closes the obligation of one write of the crawler. *)
Ltac crawler_write :=
  lazymatch goal with
  | |- crawler_keeps ?s (let '(_, _) := insert_bunny_file_map ?e _ in _).2 =>
      generalize (crawler_keeps_insert_file e s);
      by destruct (insert_bunny_file_map _ _)
  | |- crawler_keeps ?s (let '(_, _) := insert_scan_queue ?p ?pp _ _ in _).2 =>
      generalize (crawler_keeps_insert_scan p pp s);
      by destruct (insert_scan_queue _ _ _ _)
  | |- crawler_keeps ?s (set_scan_queue (update_where _ _ _ _) _) =>
      by apply crawler_keeps_mark
  | |- crawler_keeps ?s (set_scan_queue (update_from_cte _ (set_claimed ?t) _ _) _) =>
      apply (crawler_keeps_claim t s)
  | |- crawler_keeps ?s (set_jobs _ _) => apply crawler_keeps_jobs
  | |- crawler_keeps ?s (set_progress _ _) => apply crawler_keeps_progress
  | |- crawler_keeps ?s (let '(_, _) := insert_progress _ _ _ in _).2 =>
      destruct (insert_progress _ _ _); apply crawler_keeps_progress
  | |- crawler_keeps ?s ?s => reflexivity
  end.

Ltac crawler_keeping :=
  preserving; try (apply (request_on_store crawler_keeps); intros ? ?; simpl; crawler_write).

Lemma discover_iteration_keeps cfg :
  preserves (on_store crawler_keeps) (Discover.iteration cfg).
Proof.
  unfold Discover.iteration, Discover.heartbeat, Discover.getJob,
    Discover.claimNextDir, Discover.markJob, Discover.scan_dir,
    Discover.bumpProgress, Discover.markDirDone, Discover.scan_item,
    Discover.insertFileOrDir, Discover.insertDir.
  crawler_keeping.
Qed.

Lemma discover_main_keeps cfg WORKER_ID fuel :
  preserves (on_store crawler_keeps) (Discover.main cfg WORKER_ID fuel).
Proof.
  unfold Discover.main, Discover.run, Discover.start, Discover.reapStale,
    Discover.ensureRootQueued, Discover.choose_job, Discover.findHealthyRunningJob,
    Discover.createJob, Discover.startHeartbeat, Discover.stopHeartbeat,
    Discover.markJob, Discover.insertDir.
  crawler_keeping.
  apply (preserves_while_true (on_store crawler_keeps)), discover_iteration_keeps.
Qed.

(** The writes of the migration worker, one by one. *)
Lemma worker_keeps_jobs t s : worker_keeps s (set_jobs t s).
Proof. by split_and!. Qed.

Lemma worker_keeps_progress t s : worker_keeps s (set_progress t s).
Proof. by split_and!. Qed.

Lemma worker_keeps_log lg s :
  worker_keeps s (set_logs (migration_logs s ++ [lg]) s).
Proof. split_and!; [done|by apply prefix_app_r|done]. Qed.

Lemma Forall2_update {R} (ok : relation R) (f : R → R) (l : list R) :
  (∀ r, ok r (f r)) → Forall2 ok l (f <$> l).
Proof.
  intros Hf. apply Forall2_fmap_r, Forall_Forall2_diag, Forall_forall. auto.
Qed.

Lemma worker_keeps_claim n s :
  worker_keeps s (set_bunny_file_map (claim_files_to_migrate n (bunny_file_map s)).2 s).
Proof.
  unfold claim_files_to_migrate; simpl. split_and!; try done.
  apply Forall2_update. intros b. case_bool_decide; by split_and!.
Qed.

Lemma worker_keeps_finalize id st s :
  st ≠ pending →
  worker_keeps s
    (set_bunny_file_map (update_where bf_id id (set_file_final st) (bunny_file_map s)) s).
Proof.
  intros Hst. split_and!; try done.
  apply Forall2_update. intros b. case_bool_decide; by split_and!.
Qed.

(** Closes the obligation of one write of the worker. *)
Ltac worker_write :=
  lazymatch goal with
  | |- worker_keeps ?s (set_bunny_file_map (update_where _ _ _ _) _) =>
      by apply worker_keeps_finalize
  | |- worker_keeps ?s (Migrate.rpc_claim_files_to_migrate ?n _ _).2 =>
      unfold Migrate.rpc_claim_files_to_migrate;
      destruct (n <? 0); [reflexivity|];
      generalize (worker_keeps_claim (Z.to_nat n) s);
      by destruct (claim_files_to_migrate _ _)
  | |- worker_keeps ?s (set_logs _ _) => apply worker_keeps_log
  | |- worker_keeps ?s (set_jobs _ _) => apply worker_keeps_jobs
  | |- worker_keeps ?s (set_progress _ _) => apply worker_keeps_progress
  | |- worker_keeps ?s (let '(_, _) := insert_progress _ _ _ in _).2 =>
      destruct (insert_progress _ _ _); apply worker_keeps_progress
  | |- worker_keeps ?s ?s => reflexivity
  end.

Ltac worker_keeping :=
  preserving;
  try (apply (request_on_store worker_keeps); intros ? ?; simpl; worker_write).

Lemma attempts_keeps cfg fuel job file start a :
  preserves (on_store worker_keeps) (Migrate.attempts cfg fuel job file start a).
Proof.
  revert a. induction fuel as [|fuel IH]; intros a; simpl; [preserving|].
  unfold Migrate.logResult, Migrate.finalizeFile, Migrate.incProgress.
  destruct (a <? MAX_RETRIES cfg); worker_keeping; apply IH.
Qed.

Lemma migrate_iteration_keeps cfg WORKER_ID job :
  preserves (on_store worker_keeps) (Migrate.iteration cfg WORKER_ID job).
Proof.
  unfold Migrate.iteration, Migrate.getJob, Migrate.claimBatch,
    Migrate.migrate_batch, Migrate.migrateOne.
  worker_keeping; apply attempts_keeps.
Qed.

Lemma migrate_run_keeps cfg WORKER_ID fuel :
  preserves (on_store worker_keeps) (Migrate.run cfg WORKER_ID fuel).
Proof.
  unfold Migrate.run, Migrate.start, Migrate.createJob.
  worker_keeping.
  apply (preserves_while_true (on_store worker_keeps)), migrate_iteration_keeps.
Qed.

(** X6. The crawler only adds to the inventory: whatever the store and the
    source answer and however long it runs, the rows the inventory had are
    still there, unchanged and in place, when it ends, and it has written
    nothing to the log. *)
Theorem crawler_inventory_insert_only (cfg : config) (WORKER_ID : uuid)
    (fuel : nat) (w : world) :
  let w' := (Discover.main cfg WORKER_ID fuel w).2 in
  bunny_file_map (db w) `prefix_of` bunny_file_map (db w') ∧
  migration_logs (db w') = migration_logs (db w).
Proof.
  destruct (discover_main_keeps cfg WORKER_ID fuel w) as (Hinv & Hlog & _).
  by split.
Qed.

(** X7. The crawler never puts a directory back in the queue: a row of the
    frontier keeps its place, its id and its path, and once it is claimed,
    done or failed it is not [queued] again. *)
Theorem crawler_never_requeues (cfg : config) (WORKER_ID : uuid) (fuel : nat)
    (w : world) (i : nat) (q : scan_row) :
  scan_queue (db w) !! i = Some q →
  ∃ q', scan_queue (db (Discover.main cfg WORKER_ID fuel w).2) !! i = Some q' ∧
        sq_id q' = sq_id q ∧ sq_path q' = sq_path q ∧
        (sq_status q ≠ queued → sq_status q' ≠ queued).
Proof.
  intros Hq.
  destruct (discover_main_keeps cfg WORKER_ID fuel w) as (_ & _ & l1 & l2 & Hl & Hall).
  destruct (Forall2_lookup_l _ _ _ _ _ Hall Hq) as (q' & Hq' & Hid & Hpath & _ & Hst).
  exists q'. split_and!; try done.
  rewrite Hl. by apply lookup_app_l_Some.
Qed.

Lemma crawler_never_requeues_witness :
  let w := Sample.world_of (Sample.store_of []) 100 None in
  ∃ q', scan_queue (db (Discover.main Sample.cfg 9 5 w).2) !! 0%nat = Some q' ∧
        sq_id q' = 1%positive ∧ sq_path q' = "/" ∧
        (done ≠ queued → sq_status q' ≠ queued).
Proof.
  intros w.
  apply (crawler_never_requeues Sample.cfg 9 5 w 0 (mk_scan 1 "/" None done None)).
  reflexivity.
Defined.

(** X8. The migration worker leaves the frontier alone, only adds to the
    log, and neither adds a row to the inventory nor removes one, whatever
    the store and the transfers answer. *)
Theorem worker_leaves_frontier_and_log (cfg : config) (WORKER_ID : uuid)
    (fuel : nat) (w : world) :
  let w' := (Migrate.run cfg WORKER_ID fuel w).2 in
  scan_queue (db w') = scan_queue (db w) ∧
  migration_logs (db w) `prefix_of` migration_logs (db w') ∧
  length (bunny_file_map (db w')) = length (bunny_file_map (db w)).
Proof.
  destruct (migrate_run_keeps cfg WORKER_ID fuel w) as (Hq & Hlog & Hall).
  split_and!; [done..|]. symmetry. by eapply Forall2_length.
Qed.



(** ** The control surface *)

Lemma operator_status_Some text st :
  Control.operator_status text = Some st →
  st ∈ [running; paused; stopped] ∧ Control.status_text st = text.
Proof.
  unfold Control.operator_status.
  destruct (String.eqb_spec text "running") as [->|_];
    [intros [= <-]; split; [by left|done]|].
  destruct (String.eqb_spec text "paused") as [->|_];
    [intros [= <-]; split; [by right; left|done]|].
  destruct (String.eqb_spec text "stopped") as [->|_];
    [intros [= <-]; split; [by right; right; left|done]|].
  done.
Qed.


Lemma select_job_set_status id st tbl j :
  select_job id tbl = inr j →
  select_job id (update_where job_id id (set_job_status st) tbl)
  = inr (set_job_status st j).
Proof.
  intros [Hf Hid]%select_job_inv. unfold select_job.
  rewrite filter_update_where by done. rewrite Hf. simpl.
  by rewrite bool_decide_eq_true_2.
Qed.

(** What a call of [POST /jobs/:id/status] that the store answers leaves. *)
Lemma post_job_status_ok id text st w :
  Control.operator_status text = Some st →
  faults w = [] →
  Control.post_job_status id text w =
  (Ret (Control.mk_response 200 Control.ok_true),
   with_db (set_jobs (update_where job_id id (set_job_status st)
                        (migration_jobs (db w))) (db w))
     (emit (ev_update "migration_jobs") w)).
Proof.
  intros Hst Hf. unfold Control.post_job_status. rewrite Hst.
  destruct w as [s t fl src tr tm ht cj evs]; simpl in *; subst fl.
  done.
Qed.

(** X11. Pausing a job through the control surface holds the migration
    worker: at its next turn the worker of that job reads the status,
    sleeps two seconds and claims nothing. *)
Theorem control_pause_holds_worker (cfg : config) (WORKER_ID : uuid)
    (job fresh : job) (w : world) :
  faults w = [] →
  select_job (job_id job) (migration_jobs (db w)) = inr fresh →
  let w1 := (Control.post_job_status (job_id job) "paused" w).2 in
  let r := Migrate.iteration cfg WORKER_ID job w1 in
  r.1 = Ret Continue ∧
  trace r.2 = trace w ++ [ev_update "migration_jobs"; ev_select "migration_jobs";
                           ev_sleep 2000] ∧
  bunny_file_map (db r.2) = bunny_file_map (db w).
Proof.
  intros Hf Hsel w1 r.
  assert (w1 = with_db (set_jobs (update_where job_id (job_id job)
                                    (set_job_status paused) (migration_jobs (db w)))
                          (db w)) (emit (ev_update "migration_jobs") w)) as Hw1.
  { unfold w1. by rewrite (post_job_status_ok _ _ paused). }
  destruct (migrate_iteration_paused cfg WORKER_ID w1 job (set_job_status paused fresh))
    as (H1 & H2 & H3 & _).
  - by rewrite Hw1.
  - rewrite Hw1. simpl. by apply select_job_set_status.
  - done.
  - fold r in H1, H2, H3. split_and!; [done| |].
    + rewrite H2, Hw1. simpl. by rewrite <- app_assoc.
    + rewrite H3, Hw1. done.
Qed.

Lemma control_pause_holds_worker_witness :
  let job := Sample.migrate_job running in
  let w := Sample.world_of (Sample.store_of [job]) 100 None in
  let w1 := (Control.post_job_status 2 "paused" w).2 in
  let r := Migrate.iteration Sample.cfg 7 job w1 in
  r.1 = Ret Continue ∧ bunny_file_map (db r.2) = Sample.inventory.
Proof.
  intros job w w1 r.
  destruct (control_pause_holds_worker Sample.cfg 7 job job w) as (H1 & _ & H3);
    [reflexivity | reflexivity |].
  split; [exact H1 | exact H3].
Defined.

(** X12. Stopping a job through the control surface ends the crawler: at
    its next turn the crawler of that job reads the status and leaves its
    loop; it claims no directory and does not write the job again, which
    stays [stopped]. *)
Theorem control_stop_ends_crawler (cfg : config) (cur fresh : job) (w : world) :
  faults w = [] →
  CURRENT_JOB w = Some cur →
  select_job (job_id cur) (migration_jobs (db w)) = inr fresh →
  let w1 := (Control.post_job_status (job_id cur) "stopped" w).2 in
  let r := Discover.iteration cfg w1 in
  r.1 = Ret Break ∧
  trace r.2 = trace w ++ [ev_update "migration_jobs"; ev_rpc "touch_job";
                           ev_select "migration_jobs"] ∧
  scan_queue (db r.2) = scan_queue (db w) ∧
  bunny_file_map (db r.2) = bunny_file_map (db w).
Proof.
  intros Hf Hcur Hsel w1 r.
  assert (w1 = with_db (set_jobs (update_where job_id (job_id cur)
                                    (set_job_status stopped) (migration_jobs (db w)))
                          (db w)) (emit (ev_update "migration_jobs") w)) as Hw1.
  { unfold w1. by rewrite (post_job_status_ok _ _ stopped). }
  destruct (discover_iteration_terminal cfg w1 cur (set_job_status stopped fresh))
    as (H1 & H2 & H3 & H4).
  - by rewrite Hw1.
  - by rewrite Hw1.
  - rewrite Hw1. simpl. by apply select_job_set_status.
  - simpl. by left.
  - fold r in H1, H2, H3, H4.
    split_and!; [done| |by rewrite H3, Hw1|by rewrite H4, Hw1].
    rewrite H2, Hw1. simpl. by rewrite <- app_assoc.
Qed.

Lemma control_stop_ends_crawler_witness :
  let cur := Sample.discover_job running in
  let w := Sample.world_of (Sample.store_of [cur]) 100 (Some cur) in
  let w1 := (Control.post_job_status 1 "stopped" w).2 in
  let r := Discover.iteration Sample.cfg w1 in
  r.1 = Ret Break ∧ scan_queue (db r.2) = Sample.frontier.
Proof.
  intros cur w w1 r.
  destruct (control_stop_ends_crawler Sample.cfg cur cur w) as (H1 & _ & H3 & _);
    [reflexivity | reflexivity | reflexivity |].
  split; [exact H1 | exact H3].
Defined.



(** X14. A retry makes a file claimable whatever became of it: after
    [POST /files/:id/retry] a file of that id, be it failed, claimed or
    already migrated, is handed out again by the next batch claim that is
    large enough to take every pending file. *)
Theorem retried_file_is_claimed_next (id : uuid) (n : nat) (w : world)
    (b : file_row) :
  faults w = [] →
  b ∈ bunny_file_map (db w) →
  bf_id b = id →
  bf_is_dir b = false →
  let w1 := (Control.post_file_retry id w).2 in
  (length (filter (λ b, is_pending_file b = true) (bunny_file_map (db w1))) ≤ n)%nat →
  returning_file b ∈ (claim_files_to_migrate n (bunny_file_map (db w1))).1.
Proof.
  intros Hf Hb Hid Hdir w1 Hn.
  assert (bunny_file_map (db w1) =
          update_where bf_id id (set_file_final pending) (bunny_file_map (db w))) as Hw1.
  { unfold w1, Control.post_file_retry.
    destruct w as [s t fl src tr tm ht cj evs]; simpl in *; by subst fl. }
  rewrite Hw1 in *.
  unfold claim_files_to_migrate, claim_files_cte; simpl.
  apply list_elem_of_fmap. exists (set_file_final pending b). split; [done|].
  apply select_alone_all; [done| |].
  - apply list_elem_of_fmap. exists b. split; [|done].
    by rewrite bool_decide_eq_true_2.
  - unfold is_pending_file; simpl. by rewrite Hdir.
Qed.

Lemma retried_file_is_claimed_next_witness :
  let w := Sample.world_of (Sample.store_of []) 100 None in
  let w1 := (Control.post_file_retry 4 w).2 in
  mk_claimed_file 4 "/0.txt" None None (Some 5)
    ∈ (claim_files_to_migrate 10 (bunny_file_map (db w1))).1.
Proof.
  intros w w1.
  apply (retried_file_is_claimed_next 4 10 w
           (mk_file 4 "/0.txt" false (Some "/") (Some 5) None None migrated None None)).
  - reflexivity.
  - vm_compute. do 3 right. left.
  - reflexivity.
  - reflexivity.
  - vm_compute. lia.
Defined.

(** X15. [POST /retry-bulk] turns a request down only when it has neither
    a status nor an [ids] field: it then answers 400 and sends nothing.
    Every other request reaches the store, and one whose [ids] is the
    empty array, with no status, reaches it as an update without a
    filter. *)
Theorem retry_bulk_guard
    (unfiltered_update : (file_row → file_row) → store → (js_error + unit) * store)
    (status : option string) (ids : option (list uuid)) (w : world) :
  let r := Control.post_retry_bulk unfiltered_update status ids w in
  let no_status := status = None ∨ status = Some "" in
  (no_status ∧ ids = None →
   r = (Ret (Control.mk_response 400 (Control.error_body "Provide status or ids")), w)) ∧
  (¬ (no_status ∧ ids = None) → trace r.2 = trace w ++ [ev_update "bunny_file_map"]) ∧
  (no_status ∧ ids = Some [] → faults w = [] →
   db r.2 = (unfiltered_update (set_file_final pending) (db w)).2).
Proof.
  unfold Control.post_retry_bulk.
  destruct w as [s t fl src tr tm ht cj evs].
  destruct status as [[|c v]|], ids as [[|i more]|]; simpl;
    (split_and!;
     [ intros [[?|?] ?]; done
     | intros Hno; try (destruct Hno; by auto);
       unfold bind, request; simpl;
       destruct fl as [|[e|] fl]; simpl; try done;
       try (by destruct (unfiltered_update _ _) as [[?|?] ?])
     | intros [[?|?] ?] Hf; try done; simpl in Hf; subst fl;
       unfold bind, request; simpl;
       by destruct (unfiltered_update _ _) as [[?|?] ?] ]).
Qed.

(** X16. [GET /jobs] answers at most [limit] rows, never more than 200 and
    by default 50; the rows are jobs of the table that pass the filters
    given, newest first. *)
Theorem get_jobs_bounded_sorted (kind status : option string) (limit : option Z)
    (w : world) (rows : list job) :
  (Control.get_jobs kind status limit w).1
    = Ret (Control.mk_response 200 (Control.jobs_body rows)) →
  Z.of_nat (length rows) ≤ Z.max 1 (default 50 limit) ∧
  (length rows ≤ 200)%nat ∧
  Sorted Discover.newest_first rows ∧
  ∀ j, j ∈ rows →
       j ∈ migration_jobs (db w) ∧
       (∀ k, kind = Some k → k ≠ "" → Control.job_kind_text j = k) ∧
       (∀ st, status = Some st → st ≠ "" → Control.job_status_text j = st).
Proof.
  unfold Control.get_jobs, bind, request.
  destruct w as [s t fl src tr tm ht cj evs]; simpl.
  set (sel := take _ _).
  assert (Z.of_nat (length sel) ≤ Z.max 1 (default 50 limit) ∧
          (length sel ≤ 200)%nat ∧ Sorted Discover.newest_first sel ∧
          ∀ j, j ∈ sel →
               j ∈ migration_jobs s ∧
               (∀ k, kind = Some k → k ≠ "" → Control.job_kind_text j = k) ∧
               (∀ st, status = Some st → st ≠ "" → Control.job_status_text j = st))
    as Hsel.
  { unfold sel, Control.clamp_limit. rewrite length_take. split_and!; [lia|lia| |].
    - apply Sorted_take, Sorted_merge_sort, _.
    - intros j Hj. apply subseteq_take in Hj.
      rewrite merge_sort_Permutation in Hj.
      apply list_elem_of_filter in Hj as [Hj ?].
      apply andb_true_iff in Hj as [Hk Hst]. split_and!; [done| |].
      + intros k -> Hk'. destruct k; [done|]. by apply String.eqb_eq in Hk.
      + intros st -> Hst'. destruct st; [done|]. by apply String.eqb_eq in Hst. }
  destruct fl as [|[e|] fl]; simpl; intros [= <-]; exact Hsel.
Qed.

Lemma get_jobs_bounded_sorted_witness :
  let w := Sample.world_of
             (Sample.store_of [Sample.discover_job running; Sample.migrate_job paused])
             100 None in
  Z.of_nat (length [Sample.migrate_job paused]) ≤ Z.max 1 (default 50 (Some 0)).
Proof.
  intros w.
  apply (get_jobs_bounded_sorted (Some "migrate") None (Some 0) w
           [Sample.migrate_job paused]).
  reflexivity.
Defined.

(** ** What scanning a directory records *)

Lemma insert_bunny_file_map_path e tbl :
  e_path e ∈ bf_path <$> (insert_bunny_file_map e tbl).2.
Proof.
  unfold insert_bunny_file_map. case_bool_decide; simpl; [done|].
  rewrite fmap_app. apply elem_of_app. right. simpl. left.
Qed.

Lemma insert_bunny_file_map_prefix e tbl :
  tbl `prefix_of` (insert_bunny_file_map e tbl).2.
Proof.
  unfold insert_bunny_file_map. case_bool_decide; simpl; [done|].
  by apply prefix_app_r.
Qed.

Lemma insert_bunny_file_map_present e tbl :
  e_path e ∈ bf_path <$> tbl → (insert_bunny_file_map e tbl).2 = tbl.
Proof. intros H. unfold insert_bunny_file_map. by rewrite bool_decide_eq_true_2. Qed.

Lemma insert_scan_queue_path path parent st tbl :
  path ∈ sq_path <$> (insert_scan_queue path parent st tbl).2.
Proof.
  unfold insert_scan_queue. case_bool_decide; simpl; [done|].
  rewrite fmap_app. apply elem_of_app. right. simpl. left.
Qed.

Lemma insert_scan_queue_prefix path parent st tbl :
  tbl `prefix_of` (insert_scan_queue path parent st tbl).2.
Proof.
  unfold insert_scan_queue. case_bool_decide; simpl; [done|].
  by apply prefix_app_r.
Qed.

Lemma insert_scan_queue_present path parent st tbl :
  path ∈ sq_path <$> tbl → (insert_scan_queue path parent st tbl).2 = tbl.
Proof. intros H. unfold insert_scan_queue. by rewrite bool_decide_eq_true_2. Qed.

Lemma prefix_elem_of_fmap {A B} (f : A → B) (l k : list A) (x : B) :
  l `prefix_of` k → x ∈ f <$> l → x ∈ f <$> k.
Proof.
  intros [m ->] Hx. rewrite fmap_app. apply elem_of_app. by left.
Qed.

Lemma insertFileOrDir_ok entry w :
  faults w = [] →
  Discover.insertFileOrDir entry w =
  (Ret tt, with_db (set_bunny_file_map
                      (insert_bunny_file_map entry (bunny_file_map (db w))).2 (db w))
             (emit (ev_insert "bunny_file_map") w)).
Proof.
  destruct w as [s t fl src tr tm ht cj evs]; simpl. intros ->.
  unfold Discover.insertFileOrDir, bind, request, insert_bunny_file_map; simpl.
  case_bool_decide; simpl; [|done].
  by replace (is_duplicate_error (unique_violation "uniq_bunny_file_map_path"))
    with true by (vm_compute; reflexivity).
Qed.

Lemma insertDir_ok path parent w :
  faults w = [] →
  Discover.insertDir path parent w =
  (Ret tt, with_db (set_scan_queue
                      (insert_scan_queue path parent queued (scan_queue (db w))).2 (db w))
             (emit (ev_insert "scan_queue") w)).
Proof.
  destruct w as [s t fl src tr tm ht cj evs]; simpl. intros ->.
  unfold Discover.insertDir, bind, request, insert_scan_queue; simpl.
  case_bool_decide; simpl; [|done].
  by replace (is_duplicate_error (unique_violation "uniq_scan_queue_path"))
    with true by (vm_compute; reflexivity).
Qed.

Section ScanItems.
Variable cfg : config.
Variable path : string.

Lemma scan_item_ok (x : bunny_item) (acc : Z * Z) (w : world) :
  faults w = [] →
  let r := Discover.scan_item cfg path x acc w in
  r.1 = Ret (if IsDirectory x then acc else (acc.1 + 1, acc.2 + Length x)) ∧
  faults r.2 = [] ∧ now r.2 = now w ∧
  migration_progress (db r.2) = migration_progress (db w) ∧
  bunny_file_map (db r.2) =
    (insert_bunny_file_map (entry_of cfg path x) (bunny_file_map (db w))).2 ∧
  scan_queue (db r.2) =
    (if IsDirectory x
     then (insert_scan_queue (item_path path x) (Some path) queued
             (scan_queue (db w))).2
     else scan_queue (db w)).
Proof.
  intros Hf. unfold Discover.scan_item, bind.
  fold (item_path path x). fold (entry_of cfg path x).
  rewrite insertFileOrDir_ok by done.
  destruct (IsDirectory x) eqn:Hdir.
  - rewrite insertDir_ok by done. simpl. by rewrite Hf.
  - simpl. by rewrite Hf.
Qed.

Lemma scan_items_ok (items : list bunny_item) :
  ∀ (acc : Z * Z) (w : world),
    faults w = [] →
    let r := for_of items (Discover.scan_item cfg path) acc w in
    r.1 = Ret (acc.1 + Z.of_nat (length (files_of items)), acc.2 + bytes_of items) ∧
    faults r.2 = [] ∧ now r.2 = now w ∧
    migration_progress (db r.2) = migration_progress (db w) ∧
    bunny_file_map (db w) `prefix_of` bunny_file_map (db r.2) ∧
    scan_queue (db w) `prefix_of` scan_queue (db r.2) ∧
    (∀ x, x ∈ items → item_path path x ∈ bf_path <$> bunny_file_map (db r.2)) ∧
    (∀ x, x ∈ items → IsDirectory x = true →
          item_path path x ∈ sq_path <$> scan_queue (db r.2)) ∧
    ((∀ x, x ∈ items → item_path path x ∈ bf_path <$> bunny_file_map (db w)) →
     bunny_file_map (db r.2) = bunny_file_map (db w)) ∧
    ((∀ x, x ∈ items → IsDirectory x = true →
           item_path path x ∈ sq_path <$> scan_queue (db w)) →
     scan_queue (db r.2) = scan_queue (db w)).
Proof.
  induction items as [|x items IH]; intros acc w Hf.
  - simpl. unfold files_of, bytes_of; simpl. rewrite !Z.add_0_r.
    destruct acc. split_and!; try done.
    + intros x Hx. by apply elem_of_nil in Hx.
    + intros x Hx. by apply elem_of_nil in Hx.
  - simpl for_of. unfold bind.
    destruct (scan_item_ok x acc w Hf) as (H1 & Hf1 & Hn1 & Hp1 & Hb1 & Hq1).
    destruct (Discover.scan_item cfg path x acc w) as [o1 w1]; simpl in *.
    subst o1.
    specialize (IH (if IsDirectory x then acc else (acc.1 + 1, acc.2 + Length x))
                  w1 Hf1).
    destruct IH as (I1 & If & In & Ip & Ib & Iq & Iall & Idirs & Isame & Iqsame).
    assert (bunny_file_map (db w) `prefix_of` bunny_file_map (db w1)) as Hpre.
    { rewrite Hb1. apply insert_bunny_file_map_prefix. }
    assert (scan_queue (db w) `prefix_of` scan_queue (db w1)) as Hqpre.
    { rewrite Hq1. destruct (IsDirectory x); [apply insert_scan_queue_prefix|done]. }
    split_and!.
    + rewrite I1. f_equal. unfold bytes_of, files_of. rewrite !filter_cons.
      destruct (IsDirectory x) eqn:Hd; simpl.
      * done.
      * rewrite Nat2Z.inj_succ. f_equal; [lia|].
        rewrite <- Z.add_assoc. reflexivity.
    + done.
    + congruence.
    + congruence.
    + by etrans.
    + by etrans.
    + intros y [->|Hy]%elem_of_cons; [|by apply Iall].
      eapply prefix_elem_of_fmap; [exact Ib|].
      rewrite Hb1. apply (insert_bunny_file_map_path (entry_of cfg path x)).
    + intros y [->|Hy]%elem_of_cons Hd; [|by apply Idirs].
      eapply prefix_elem_of_fmap; [exact Iq|].
      rewrite Hq1, Hd. apply insert_scan_queue_path.
    + intros Hall.
      assert (bunny_file_map (db w1) = bunny_file_map (db w)) as Heq.
      { rewrite Hb1. apply insert_bunny_file_map_present. apply Hall. left. }
      rewrite <- Heq. apply Isame. intros y Hy. rewrite Heq. apply Hall. by right.
    + intros Hall.
      assert (scan_queue (db w1) = scan_queue (db w)) as Heq.
      { rewrite Hq1. destruct (IsDirectory x) eqn:Hd; [|done].
        apply insert_scan_queue_present. apply Hall; [left|done]. }
      rewrite <- Heq. apply Iqsame. intros y Hy Hd. rewrite Heq. apply Hall; [by right|done].
Qed.
End ScanItems.

Lemma update_where_paths id st (tbl : list scan_row) :
  sq_path <$> update_where sq_id id (set_scan_status st) tbl = sq_path <$> tbl.
Proof.
  unfold update_where. rewrite <- list_fmap_compose.
  apply list_fmap_ext. intros _ q _. simpl. by case_bool_decide.
Qed.

(** What [scan_dir] leaves when the listing and the store answer. *)
Lemma scan_dir_ok (cfg : config) (cur : job) (c : claimed_dir)
    (items : list bunny_item) (w : world) :
  faults w = [] →
  source w (cd_path c) = inr items →
  let r := Discover.scan_dir cfg cur c w in
  ∃ w1,
    let r1 := for_of items (Discover.scan_item cfg (cd_path c)) (0, 0)
                (emit (ev_list_dir (cd_path c)) w) in
    w1 = r1.2 ∧
    r.1 = Ret tt ∧
    migration_progress (db r.2) =
      increment_progress (now w) (job_id cur) (bytes_of items)
        (Z.of_nat (length (files_of items))) 1 0 0 (migration_progress (db w)) ∧
    bunny_file_map (db r.2) = bunny_file_map (db w1) ∧
    scan_queue (db r.2) =
      update_where sq_id (cd_id c) (set_scan_status done) (scan_queue (db w1)).
Proof.
  intros Hf Hsrc r. eexists. split; [reflexivity|].
  destruct (scan_items_ok cfg (cd_path c) items (0, 0)
              (emit (ev_list_dir (cd_path c)) w) Hf)
    as (H1 & Hf1 & Hn1 & Hp1 & _).
  subst r.
  unfold Discover.scan_dir, try_catch, bind, Discover.listDir. rewrite Hsrc.
  destruct (for_of items _ _ _) as [o1 w1]; simpl in *. subst o1.
  destruct w1 as [s t fl src tr tm ht cj evs]; simpl in *. subst fl t.
  unfold Discover.bumpProgress, Discover.markDirDone, bind, request, or_throw, ret;
    simpl.
  split_and!; try done. by rewrite Hp1.
Qed.

(** X17. A directory whose listing succeeds is recorded in full: every
    entry of the listing has its row in the inventory, every subdirectory
    its row in the frontier, the directory itself is [done], and the
    progress of the job goes up by one directory, by the number of files
    listed and by their sizes. *)
Theorem scan_dir_records_listing (cfg : config) (cur : job) (c : claimed_dir)
    (items : list bunny_item) (w : world) :
  faults w = [] →
  source w (cd_path c) = inr items →
  let r := Discover.scan_dir cfg cur c w in
  r.1 = Ret tt ∧
  (∀ x, x ∈ items → item_path (cd_path c) x ∈ bf_path <$> bunny_file_map (db r.2)) ∧
  (∀ x, x ∈ items → IsDirectory x = true →
        item_path (cd_path c) x ∈ sq_path <$> scan_queue (db r.2)) ∧
  (∀ q, q ∈ scan_queue (db r.2) → sq_id q = cd_id c → sq_status q = done) ∧
  migration_progress (db r.2) =
    increment_progress (now w) (job_id cur) (bytes_of items)
      (Z.of_nat (length (files_of items))) 1 0 0 (migration_progress (db w)).
Proof.
  intros Hf Hsrc r.
  destruct (scan_dir_ok cfg cur c items w Hf Hsrc) as (w1 & Hw1 & H1 & Hp & Hb & Hq).
  destruct (scan_items_ok cfg (cd_path c) items (0, 0)
              (emit (ev_list_dir (cd_path c)) w) Hf)
    as (_ & _ & _ & _ & _ & _ & Hall & Hdirs & _).
  simpl in Hw1. rewrite <- Hw1 in Hall, Hdirs. fold r in H1, Hp, Hb, Hq.
  split_and!; try done.
  - by rewrite Hb.
  - rewrite Hq, update_where_paths. exact Hdirs.
  - rewrite Hq. intros q (q0 & -> & _)%list_elem_of_fmap Hid.
    case_bool_decide; [done|]. by destruct H.
Qed.

Lemma scan_dir_records_listing_witness :
  let cur := Sample.discover_job running in
  let w := Sample.world_of (Sample.store_of [cur]) 100 (Some cur) in
  let r := Discover.scan_dir Sample.cfg cur (mk_claimed_dir 1 "/" None) w in
  r.1 = Ret tt ∧
  total_files <$> migration_progress (db r.2) = [1; 0] ∧
  total_bytes <$> migration_progress (db r.2) = [10; 0].
Proof.
  intros cur w r.
  destruct (scan_dir_records_listing Sample.cfg cur (mk_claimed_dir 1 "/" None)
              [mk_item "a.txt" false 10 "text/plain"; mk_item "a" true 0 "";
               mk_item "b" true 0 ""] w)
    as (H1 & _ & _ & _ & Hp); [reflexivity | reflexivity |].
  fold r in H1, Hp. split; [exact H1|]. rewrite Hp. split; reflexivity.
Defined.

(** X18. Listing a directory again counts its files again: when every
    entry of the listing is in the inventory already (and every
    subdirectory in the frontier), the scan adds no row, and yet the
    progress of the job goes up by the files and the bytes of the
    listing. *)
Theorem rescan_counts_again (cfg : config) (cur : job) (c : claimed_dir)
    (items : list bunny_item) (w : world) :
  faults w = [] →
  source w (cd_path c) = inr items →
  (∀ x, x ∈ items → item_path (cd_path c) x ∈ bf_path <$> bunny_file_map (db w)) →
  (∀ x, x ∈ items → IsDirectory x = true →
        item_path (cd_path c) x ∈ sq_path <$> scan_queue (db w)) →
  let r := Discover.scan_dir cfg cur c w in
  bunny_file_map (db r.2) = bunny_file_map (db w) ∧
  length (scan_queue (db r.2)) = length (scan_queue (db w)) ∧
  migration_progress (db r.2) =
    increment_progress (now w) (job_id cur) (bytes_of items)
      (Z.of_nat (length (files_of items))) 1 0 0 (migration_progress (db w)).
Proof.
  intros Hf Hsrc Hfiles Hdirs r.
  destruct (scan_dir_ok cfg cur c items w Hf Hsrc) as (w1 & Hw1 & H1 & Hp & Hb & Hq).
  destruct (scan_items_ok cfg (cd_path c) items (0, 0)
              (emit (ev_list_dir (cd_path c)) w) Hf)
    as (_ & _ & _ & _ & _ & _ & _ & _ & Hsame & Hqsame).
  simpl in Hw1. rewrite <- Hw1 in Hsame, Hqsame. fold r in H1, Hp, Hb, Hq.
  split_and!; [| |done].
  - rewrite Hb. by apply Hsame.
  - rewrite Hq. unfold update_where. rewrite length_fmap. f_equal. by apply Hqsame.
Qed.

Lemma rescan_counts_again_witness :
  let cur := Sample.discover_job running in
  let s := mk_store [cur] Sample.counters Sample.frontier
             [ mk_file 1 "/a.txt" false (Some "/") (Some 10) None None migrated None None;
               mk_file 2 "/a/" true (Some "/") None None None pending None None;
               mk_file 3 "/b/" true (Some "/") None None None pending None None ] [] in
  let w := Sample.world_of s 100 (Some cur) in
  let r := Discover.scan_dir Sample.cfg cur (mk_claimed_dir 1 "/" None) w in
  bunny_file_map (db r.2) = bunny_file_map (db w) ∧
  total_files <$> migration_progress (db r.2) = [1; 0].
Proof.
  intros cur s w r.
  destruct (rescan_counts_again Sample.cfg cur (mk_claimed_dir 1 "/" None)
              [mk_item "a.txt" false 10 "text/plain"; mk_item "a" true 0 "";
               mk_item "b" true 0 ""] w)
    as (Hb & _ & Hp).
  - reflexivity.
  - reflexivity.
  - intros x Hx. rewrite !elem_of_cons, elem_of_nil in Hx.
    destruct Hx as [->|[->|[->|[]]]]; compute_done.
  - intros x Hx Hd. rewrite !elem_of_cons, elem_of_nil in Hx.
    destruct Hx as [->|[->|[->|[]]]]; try discriminate Hd; compute_done.
  - fold r in Hb, Hp. split; [exact Hb|]. rewrite Hp. reflexivity.
Defined.

(** ** Creating the job of a run *)

Lemma increment_progress_no_row now id b f d m x tbl :
  id ∉ p_job_id <$> tbl → increment_progress now id b f d m x tbl = tbl.
Proof.
  intros Hid. unfold increment_progress. rewrite <- (list_fmap_id tbl) at 2.
  apply list_fmap_ext. intros i p Hp. simpl.
  rewrite bool_decide_eq_false_2; [done|].
  intros <-. apply Hid, list_elem_of_fmap. exists p. split; [done|].
  by eapply list_elem_of_lookup_2.
Qed.

(** X19. The migration worker does not look at the answer of the insert of
    its progress row: when that insert fails the job is created all the
    same, with no progress row, and from then on the increments of the
    files it migrates change nothing. *)
Theorem migrate_job_without_progress (note : string) (e : js_error)
    (rest : list (option js_error)) (w : world) :
  faults w = None :: Some e :: rest →
  (∀ p, p ∈ migration_progress (db w) →
        p_job_id p ∈ job_id <$> migration_jobs (db w)) →
  let r := Migrate.createJob note w in
  ∃ j, r.1 = Ret j ∧
       migration_jobs (db r.2) = migration_jobs (db w) ++ [j] ∧
       kind j = migrate ∧ status j = running ∧
       migration_progress (db r.2) = migration_progress (db w) ∧
       ∀ now migrated failed,
         increment_progress now (job_id j) 0 0 0 migrated failed
           (migration_progress (db r.2)) = migration_progress (db r.2).
Proof.
  destruct w as [[jobs prog sq bfm logs] t fl src tr tm ht cj evs]; simpl.
  intros -> Hfk.
  unfold Migrate.createJob, bind, request, or_throw, ret; simpl.
  eexists. split_and!; try done.
  intros now migrated failed. apply increment_progress_no_row.
  intros (p & Hid & Hp)%list_elem_of_fmap.
  specialize (Hfk p Hp). rewrite <- Hid in Hfk. simpl in Hfk.
  by apply fresh_id_fresh in Hfk.
Qed.

Lemma migrate_job_without_progress_witness :
  let e := mk_error None "fetch failed" in
  let s := mk_store [Sample.discover_job running] [mk_progress 1 0 0 0 0 0 0]
             Sample.frontier Sample.inventory [] in
  let w := with_faults [None; Some e] (Sample.world_of s 100 None) in
  let r := Migrate.createJob "Concurrent migration worker" w in
  ∃ j, r.1 = Ret j ∧ migration_progress (db r.2) = [mk_progress 1 0 0 0 0 0 0].
Proof.
  intros e s w r.
  destruct (migrate_job_without_progress "Concurrent migration worker" e [] w)
    as (j & H1 & _ & _ & _ & Hp & _).
  - reflexivity.
  - intros p Hp. apply list_elem_of_singleton in Hp as ->. compute_done.
  - exists j. split; [exact H1 | exact Hp].
Defined.

(** ** The heartbeat timer of the crawler *)

#[local] Instance same_timers_preorder : PreOrder same_timers.
Proof.
  split.
  - intros w. by split.
  - intros a b c [? ?] [? ?]. split; congruence.
Qed.

#[local] Instance timers_kept_preorder T : PreOrder (timers_kept T).
Proof.
  split.
  - intros w. unfold timers_kept. auto.
  - intros a b c Hab Hbc. unfold timers_kept in *. auto.
Qed.

Lemma same_timers_kept T {A} (m : M A) :
  preserves same_timers m → preserves (timers_kept T) m.
Proof.
  intros Hm w. destruct (Hm w) as [Ht Hh]. unfold timers_kept, timers_clean, timers_armed.
  rewrite Ht, Hh. auto.
Qed.

Lemma request_same_timers {A} e (run : timestamp → store → (js_error + A) * store) :
  preserves same_timers (request e run).
Proof.
  intros w. unfold request.
  destruct (faults (emit e w)) as [|[err|] rest]; simpl;
    try destruct (run _ _); by split.
Qed.

Lemma modify_current_job_same_timers j :
  preserves same_timers (modify (with_current_job j)).
Proof. intros w. by split. Qed.

Lemma same_process_same_timers {A} (m : M A) :
  preserves same_process m → preserves same_timers m.
Proof. intros Hm w. destruct (Hm w) as (? & ? & ?). by split. Qed.

Lemma fresh_handle (T : list timer) :
  S (foldr Nat.max 0%nat (t_handle <$> T)) ∉ t_handle <$> T.
Proof.
  assert (∀ h, h ∈ t_handle <$> T → (h ≤ foldr Nat.max 0 (t_handle <$> T))%nat) as Hle.
  { induction (t_handle <$> T) as [|x l IH]; intros h Hh; [by apply elem_of_nil in Hh|].
    simpl. apply elem_of_cons in Hh as [->|Hh]; [lia|]. specialize (IH h Hh). lia. }
  intros Hin. specialize (Hle _ Hin). lia.
Qed.

Lemma filter_handle_fresh (T : list timer) h :
  h ∉ t_handle <$> T → filter (λ t, t_handle t ≠ h) T = T.
Proof.
  intros Hh. induction T as [|t T IH]; [done|].
  rewrite fmap_cons, not_elem_of_cons in Hh. destruct Hh as [Hne Hh].
  rewrite filter_cons_True by done. by rewrite IH.
Qed.

Lemma clear_armed (T : list timer) h cb ms :
  h ∉ t_handle <$> T → filter (λ t, t_handle t ≠ h) (T ++ [mk_timer h cb ms]) = T.
Proof.
  intros Hh. rewrite filter_app, filter_handle_fresh by done.
  rewrite filter_cons_False, filter_nil; [by rewrite app_nil_r|]. simpl. auto.
Qed.

(** [stopHeartbeat] leaves no heartbeat timer. *)
Lemma stopHeartbeat_cleans T w :
  timers_clean T w ∨ timers_armed T w →
  (Discover.stopHeartbeat w).1 = Ret tt ∧ timers_clean T (Discover.stopHeartbeat w).2.
Proof.
  destruct w as [s t fl src tr tm ht cj evs].
  unfold Discover.stopHeartbeat, bind, get, clearInterval, modify, ret, timers_clean,
    timers_armed; simpl.
  intros [[-> ->]|(h & -> & -> & Hh)]; simpl; [done|].
  split; [done|]. split; [done|]. by apply clear_armed.
Qed.

(** [startHeartbeat] leaves one heartbeat timer, also when one was
    registered. *)
Lemma startHeartbeat_arms T w :
  timers_clean T w ∨ timers_armed T w →
  (Discover.startHeartbeat w).1 = Ret tt ∧ timers_armed T (Discover.startHeartbeat w).2.
Proof.
  destruct w as [s t fl src tr tm ht cj evs].
  unfold Discover.startHeartbeat, bind, get, clearInterval, setInterval, modify, ret,
    timers_clean, timers_armed; simpl.
  intros [[-> ->]|(h & -> & -> & Hh)]; simpl.
  - split; [done|]. eexists. split_and!; [done..|]. apply fresh_handle.
  - split; [done|]. rewrite clear_armed by done.
    eexists. split_and!; [done..|]. apply fresh_handle.
Qed.

Lemma stopHeartbeat_kept T : preserves (timers_kept T) Discover.stopHeartbeat.
Proof. intros w Hw. left. by apply stopHeartbeat_cleans. Qed.

Lemma startHeartbeat_kept T : preserves (timers_kept T) Discover.startHeartbeat.
Proof. intros w Hw. right. by apply startHeartbeat_arms. Qed.

Lemma markJob_same_timers st : preserves same_timers (Discover.markJob st).
Proof.
  unfold Discover.markJob. preserving; apply request_same_timers.
Qed.

Lemma discover_loop_kept T cfg fuel :
  preserves (timers_kept T) (while_true fuel (Discover.iteration cfg)).
Proof.
  apply (preserves_while_true (timers_kept T)).
  apply same_timers_kept, same_process_same_timers, discover_iteration_same_process.
Qed.

Lemma discover_start_kept T WORKER_ID :
  preserves (timers_kept T) (Discover.start WORKER_ID).
Proof.
  unfold Discover.start. preserving; [..|apply startHeartbeat_kept];
    apply same_timers_kept.
  - unfold Discover.reapStale. preserving; apply request_same_timers.
  - unfold Discover.ensureRootQueued, Discover.insertDir.
    preserving; apply request_same_timers.
  - unfold Discover.choose_job, Discover.findHealthyRunningJob, Discover.createJob.
    preserving;
      first [apply request_same_timers | apply modify_current_job_same_timers].
Qed.

(** X20. The crawler does not leave its heartbeat timer behind: when
    [run] has ended, by leaving its loop or by an exception at any point,
    no heartbeat timer is registered and the other timers are as they
    were. *)
Theorem crawler_stops_its_heartbeat (cfg : config) (WORKER_ID : uuid)
    (fuel : nat) (w : world) :
  HEARTBEAT_TIMER w = None →
  (Discover.main cfg WORKER_ID fuel w).1 ≠ Ret false →
  let w' := (Discover.main cfg WORKER_ID fuel w).2 in
  HEARTBEAT_TIMER w' = None ∧ timers w' = timers w.
Proof.
  intros Hh _. set (T := timers w).
  assert (timers_clean T w ∨ timers_armed T w) as Hw by (by left).
  unfold Discover.main, try_catch, Discover.run, bind.
  pose proof (discover_start_kept T WORKER_ID w Hw) as H1.
  destruct (Discover.start WORKER_ID w) as [[[]|e1] w1]; simpl in *.
  - pose proof (discover_loop_kept T cfg fuel w1 H1) as H2.
    destruct (while_true fuel (Discover.iteration cfg) w1) as [[left|e2] w2];
      simpl in *.
    + destruct (stopHeartbeat_cleans T w2 H2) as [H3 H4].
      destruct (Discover.stopHeartbeat w2) as [[[]|e3] w3]; simpl in *; [done|done].
    + destruct (stopHeartbeat_cleans T w2 H2) as [H3 H4].
      destruct (Discover.stopHeartbeat w2) as [[[]|e3] w3]; simpl in *; [|done].
      destruct (markJob_same_timers failed w3) as [Ht Hht].
      destruct (Discover.markJob failed w3) as [[[]|e4] w4]; simpl in *;
        destruct H4; split; congruence.
  - destruct (stopHeartbeat_cleans T w1 H1) as [H3 H4].
    destruct (Discover.stopHeartbeat w1) as [[[]|e3] w3]; simpl in *; [|done].
    destruct (markJob_same_timers failed w3) as [Ht Hht].
    destruct (Discover.markJob failed w3) as [[[]|e4] w4]; simpl in *;
      destruct H4; split; congruence.
Qed.

Lemma crawler_stops_its_heartbeat_witness :
  let cur := Sample.discover_job running in
  let w := Sample.world_of (Sample.store_of []) 100 None in
  let w' := (Discover.main Sample.cfg 9 6 w).2 in
  HEARTBEAT_TIMER w' = None ∧ timers w' = [].
Proof.
  intros cur w w'.
  apply (crawler_stops_its_heartbeat Sample.cfg 9 6 w); [reflexivity|].
  vm_compute. discriminate.
Defined.

(** ** The migration worker empties the inventory *)

(** A request that the store answers. *)
Lemma request_ok {A} e (run : timestamp → store → (js_error + A) * store) w :
  faults w = [] →
  request e run w =
  (Ret (run (now w) (db w)).1, with_db (run (now w) (db w)).2 (emit e w)).
Proof.
  destruct w as [s t fl src tr tm ht cj evs]; simpl. intros ->.
  unfold request; simpl. by destruct (run t s).
Qed.

Lemma pending_files_fmap_le (f : file_row → file_row) (tbl : list file_row) :
  (∀ b, is_pending_file (f b) = true → is_pending_file b = true) →
  (pending_files (f <$> tbl) ≤ pending_files tbl)%nat.
Proof.
  intros Hf. unfold pending_files.
  induction tbl as [|b tbl IH]; [done|].
  rewrite fmap_cons, !filter_cons.
  destruct (decide (is_pending_file (f b) = true)) as [Hp|Hp].
  - rewrite decide_True by auto. simpl. lia.
  - destruct (decide (is_pending_file b = true)); simpl; lia.
Qed.

Lemma pending_files_fmap_lt (f : file_row → file_row) (tbl : list file_row)
    (b : file_row) :
  (∀ b, is_pending_file (f b) = true → is_pending_file b = true) →
  b ∈ tbl → is_pending_file b = true → is_pending_file (f b) = false →
  (pending_files (f <$> tbl) < pending_files tbl)%nat.
Proof.
  intros Hf Hb Hp Hfb.
  induction tbl as [|x tbl IH]; [by apply elem_of_nil in Hb|].
  pose proof (pending_files_fmap_le f tbl Hf) as Hle.
  unfold pending_files in *. rewrite fmap_cons, !filter_cons.
  apply elem_of_cons in Hb as [<-|Hb].
  - rewrite decide_False by (rewrite Hfb; done). rewrite decide_True by done.
    simpl. lia.
  - specialize (IH Hb).
    destruct (decide (is_pending_file (f x) = true)) as [Hx|Hx].
    + rewrite decide_True by auto. simpl. lia.
    + destruct (decide (is_pending_file x = true)); simpl; lia.
Qed.

Lemma pending_files_zero tbl b :
  pending_files tbl = 0%nat → b ∈ tbl → is_pending_file b = false.
Proof.
  unfold pending_files. intros Hz Hb.
  destruct (is_pending_file b) eqn:Hp; [|done].
  assert (b ∈ filter (λ b, is_pending_file b = true) tbl) as Hin
    by (by apply list_elem_of_filter).
  apply length_zero_iff_nil in Hz. rewrite Hz in Hin. by apply elem_of_nil in Hin.
Qed.

(** A batch claim takes files as long as some are pending. *)
Lemma claim_files_progress (n : nat) (tbl : list file_row) :
  let r := claim_files_to_migrate n tbl in
  (r.1 = [] ∧ r.2 = tbl ∧ (n = 0%nat ∨ pending_files tbl = 0%nat))
  ∨ (r.1 ≠ [] ∧ (pending_files r.2 < pending_files tbl)%nat).
Proof.
  unfold claim_files_to_migrate, claim_files_cte; simpl.
  pose proof (select_alone_length bf_id bf_path is_pending_file n tbl) as Hlen.
  destruct (select_skip_locked bf_id bf_path is_pending_file [] n tbl)
    as [|b cte] eqn:Hsel.
  - left. split_and!; [done| |].
    + unfold update_from_cte. rewrite <- (list_fmap_id tbl) at 2.
      apply list_fmap_ext. intros _ r _. simpl.
      by rewrite ?bool_decide_eq_false_2 by apply not_elem_of_nil.
    + simpl in Hlen. unfold pending_files. lia.
  - right. split; [done|].
    assert (b ∈ select_skip_locked bf_id bf_path is_pending_file [] n tbl) as Hb
      by (rewrite Hsel; left).
    apply select_elem_of in Hb as (Hin & Hp & _).
    apply (pending_files_fmap_lt _ tbl b); [|done|done|].
    + intros r. case_bool_decide; [|done]. unfold is_pending_file; simpl. done.
    + rewrite bool_decide_eq_true_2 by (rewrite fmap_cons; left). done.
Qed.

Lemma pending_files_finalize id st tbl :
  st ≠ pending →
  (pending_files (update_where bf_id id (set_file_final st) tbl) ≤ pending_files tbl)%nat.
Proof.
  intros Hst. apply pending_files_fmap_le. intros b.
  case_bool_decide; [|done]. unfold is_pending_file; simpl.
  by rewrite bool_decide_eq_false_2.
Qed.

Section Drain.
Variable cfg : config.
Variable WORKER_ID : uuid.

(** One file, whatever the transfers do and whatever [MAX_RETRIES] is. *)
Lemma migrateOne_ok job file w :
  faults w = [] →
  let r := Migrate.migrateOne cfg job file w in
  r.1 = Ret tt ∧ faults r.2 = [] ∧
  migration_jobs (db r.2) = migration_jobs (db w) ∧
  (pending_files (bunny_file_map (db r.2)) ≤ pending_files (bunny_file_map (db w)))%nat.
Proof.
  intros Hf. destruct (decide (0 < MAX_RETRIES cfg)) as [Hmax|Hmax].
  - destruct (attempts_outcome cfg job file (Z.to_nat (MAX_RETRIES cfg)) (now w) 0 w)
      as (H1 & Hf1 & k & ok & errs & tl & _ & _ & _ & _ & _ & _ & _ & _ & Hbfm & _
          & Hjobs & _); [done|lia|lia|].
    split_and!; [done..|].
    etrans; [|apply (pending_files_finalize (cf_id file)
                       (if ok then migrated else file_failed))];
      [by rewrite <- Hbfm | by destruct ok].
  - unfold Migrate.migrateOne, bind, get.
    replace (Z.to_nat (MAX_RETRIES cfg)) with 0%nat by lia. simpl. done.
Qed.

Lemma migrate_batch_ok job batch :
  ∀ w, faults w = [] →
    let r := Migrate.migrate_batch cfg job batch w in
    r.1 = Ret tt ∧ faults r.2 = [] ∧
    migration_jobs (db r.2) = migration_jobs (db w) ∧
    (pending_files (bunny_file_map (db r.2))
     ≤ pending_files (bunny_file_map (db w)))%nat.
Proof.
  unfold Migrate.migrate_batch.
  induction batch as [|f batch IH]; intros w Hf; simpl; [done|].
  unfold bind.
  destruct (migrateOne_ok job f w Hf) as (H1 & Hf1 & Hj1 & Hp1).
  destruct (Migrate.migrateOne cfg job f w) as [o1 w1]; simpl in *. subst o1.
  destruct (IH w1 Hf1) as (H2 & Hf2 & Hj2 & Hp2).
  split_and!; [done|done|congruence|lia].
Qed.

Lemma claimBatch_ok w :
  faults w = [] →
  0 ≤ BATCH_SIZE cfg →
  Migrate.claimBatch WORKER_ID (BATCH_SIZE cfg) w =
  (Ret (claim_files_to_migrate (Z.to_nat (BATCH_SIZE cfg)) (bunny_file_map (db w))).1,
   with_db (set_bunny_file_map
              (claim_files_to_migrate (Z.to_nat (BATCH_SIZE cfg))
                 (bunny_file_map (db w))).2 (db w))
     (emit (ev_rpc "claim_files_to_migrate") w)).
Proof.
  intros Hf Hn. unfold Migrate.claimBatch, bind.
  rewrite request_ok by done. unfold Migrate.rpc_claim_files_to_migrate.
  replace (BATCH_SIZE cfg <? 0) with false by lia.
  by destruct (claim_files_to_migrate _ _).
Qed.

#[local] Opaque claim_files_to_migrate Migrate.migrate_batch Migrate.claimBatch.

(** One turn of the worker on a running job: either no file is pending
    and the turn marks the job completed and leaves the loop, or it
    takes a batch and fewer files are pending after it. *)
Lemma migrate_iteration_drains job fresh w :
  faults w = [] →
  0 < BATCH_SIZE cfg →
  select_job (job_id job) (migration_jobs (db w)) = inr fresh →
  status fresh = running →
  ∃ o w',
    Migrate.iteration cfg WORKER_ID job w = (o, w') ∧
    faults w' = [] ∧
    ((pending_files (bunny_file_map (db w)) = 0%nat ∧ o = Ret Break ∧
      bunny_file_map (db w') = bunny_file_map (db w) ∧
      migration_jobs (db w') =
        update_where job_id (job_id job) (set_job_status completed)
          (migration_jobs (db w)))
     ∨ (o = Ret Continue ∧
        (pending_files (bunny_file_map (db w'))
         < pending_files (bunny_file_map (db w)))%nat ∧
        migration_jobs (db w') = migration_jobs (db w))).
Proof.
  intros Hf Hn Hsel Hst.
  unfold Migrate.iteration, Migrate.getJob. unfold bind at 1. unfold bind at 1.
  rewrite request_ok by done. simpl. rewrite Hsel. simpl.
  rewrite Hst. simpl.
  unfold bind at 1. rewrite claimBatch_ok by (done || lia). simpl.
  destruct (claim_files_progress (Z.to_nat (BATCH_SIZE cfg)) (bunny_file_map (db w)))
    as [(Hnil & Hsame & Hz)|(Hne & Hlt)].
  - rewrite Hnil, Hsame. unfold bind at 1. unfold sleep, modify at 1.
    unfold bind at 1. rewrite claimBatch_ok by (done || lia). simpl.
    rewrite Hnil, Hsame. unfold bind. rewrite request_ok by done. simpl.
    eexists _, _. split; [reflexivity|]. simpl.
    split; [done|]. left. split_and!; try done. lia.
  - destruct (claim_files_to_migrate _ _).1 as [|f batch] eqn:Hbatch; [done|].
    unfold bind.
    match goal with |- context [Migrate.migrate_batch cfg job ?b ?w1] =>
      destruct (migrate_batch_ok job b w1) as (H1 & Hf1 & Hj1 & Hp1); [done|];
      destruct (Migrate.migrate_batch cfg job b w1) as [o2 w2]
    end.
    simpl in *. subst o2.
    eexists _, _. split; [reflexivity|].
    split; [done|]. right. split_and!; [done|lia|done].
Qed.

#[local] Transparent claim_files_to_migrate Migrate.migrate_batch Migrate.claimBatch.
End Drain.

Section DrainRun.
Variable cfg : config.
Variable WORKER_ID : uuid.

Lemma migrate_loop_drains job fresh (fuel : nat) :
  ∀ w,
    faults w = [] →
    0 < BATCH_SIZE cfg →
    select_job (job_id job) (migration_jobs (db w)) = inr fresh →
    status fresh = running →
    (pending_files (bunny_file_map (db w)) < fuel)%nat →
    let r := while_true fuel (Migrate.iteration cfg WORKER_ID job) w in
    r.1 = Ret true ∧
    pending_files (bunny_file_map (db r.2)) = 0%nat ∧
    migration_jobs (db r.2) =
      update_where job_id (job_id job) (set_job_status completed)
        (migration_jobs (db w)).
Proof.
  induction fuel as [|fuel IH]; intros w Hf Hn Hsel Hst Hfuel; [lia|].
  simpl. unfold bind.
  destruct (migrate_iteration_drains cfg WORKER_ID job fresh w Hf Hn Hsel Hst)
    as (o & w' & -> & Hf' & [(Hz & -> & Hb & Hj)|(-> & Hlt & Hj)]).
  - simpl. split_and!; [done| |done]. by rewrite Hb.
  - destruct (IH w') as (H1 & H2 & H3); [done|done|by rewrite Hj|done|lia|].
    split_and!; [done..|]. by rewrite H3, Hj.
Qed.

Lemma migrate_createJob_ok note w :
  faults w = [] →
  ∃ w',
    let j := mk_job (fresh_id job_id (migration_jobs (db w))) migrate running note
               (now w) None None None in
    Migrate.createJob note w = (Ret j, w') ∧
    faults w' = [] ∧ timers w' = timers w ∧
    migration_jobs (db w') = migration_jobs (db w) ++ [j] ∧
    bunny_file_map (db w') = bunny_file_map (db w).
Proof.
  intros Hf. unfold Migrate.createJob, bind.
  rewrite request_ok by done. simpl.
  rewrite request_ok by done. simpl.
  eexists. split; [reflexivity|]. simpl.
  destruct (insert_progress _ _ _). by split_and!.
Qed.

Lemma select_job_fresh (j : job) (tbl : list job) :
  job_id j = fresh_id job_id tbl → select_job (job_id j) (tbl ++ [j]) = inr j.
Proof.
  intros Hid. unfold select_job. rewrite filter_app.
  assert (filter (λ x, job_id x = job_id j) tbl = []) as ->.
  { destruct (filter _ tbl) as [|x l] eqn:Hfl; [done|].
    assert (x ∈ filter (λ x, job_id x = job_id j) tbl) as Hx by (rewrite Hfl; left).
    apply list_elem_of_filter in Hx as [Heq Hx].
    destruct (fresh_id_fresh job_id tbl). rewrite <- Hid, <- Heq.
    apply list_elem_of_fmap. by exists x. }
  simpl. rewrite filter_cons_True by done. done.
Qed.
End DrainRun.

(** A run of the worker that the store answers, given more turns than
    there are pending files. *)
Lemma migrate_run_drains (cfg : config) (WORKER_ID : uuid) (fuel : nat)
    (w : world) :
  faults w = [] →
  0 < BATCH_SIZE cfg →
  (pending_files (bunny_file_map (db w)) < fuel)%nat →
  let r := Migrate.run cfg WORKER_ID fuel w in
  r.1 = Ret true ∧
  pending_files (bunny_file_map (db r.2)) = 0%nat ∧
  ∃ j, job_id j = fresh_id job_id (migration_jobs (db w)) ∧ kind j = migrate ∧
       migration_jobs (db r.2) =
         update_where job_id (job_id j) (set_job_status completed)
           (migration_jobs (db w) ++ [j]).
Proof.
  intros Hf Hn Hfuel.
  unfold Migrate.run, Migrate.start, bind.
  destruct (migrate_createJob_ok "Concurrent migration worker" w Hf)
    as (w1 & Hc & Hf1 & _ & Hj1 & Hb1).
  remember (mk_job (fresh_id job_id (migration_jobs (db w))) migrate running
              "Concurrent migration worker" (now w) None None None) as j eqn:Hj.
  assert (job_id j = fresh_id job_id (migration_jobs (db w)) ∧ kind j = migrate ∧
          status j = running) as (Hid & Hkind & Hst) by (by subst j).
  clear Hj. simpl in Hc. rewrite Hc. simpl.
  match goal with |- context [while_true fuel _ ?w2] =>
    destruct (migrate_loop_drains cfg WORKER_ID j j fuel w2) as (H1 & H2 & H3)
  end; simpl; try done.
  - rewrite Hj1. by apply select_job_fresh.
  - by rewrite Hb1.
  - split_and!; [done..|]. exists j. split_and!; [done..|].
    rewrite H3. simpl. by rewrite Hj1.
Qed.



(** ** A worker that is allowed no attempt *)

#[local] Instance claimed_at_most_preorder : PreOrder claimed_at_most.
Proof.
  split.
  - intros b. split_and!; auto.
  - intros a b c (? & ? & ? & Hab) (? & ? & ? & Hbc).
    split_and!; [congruence..|]. destruct Hbc as [Hbc|Hbc]; [|by right].
    rewrite Hbc. done.
Qed.

#[local] Instance nothing_migrated_preorder : PreOrder nothing_migrated.
Proof.
  split.
  - intros w. by split_and!.
  - intros a b c (? & ? & ?) (? & ? & ?). split_and!; [congruence..|by etrans].
Qed.

Lemma request_nothing_migrated {A} e
    (run : timestamp → store → (js_error + A) * store) :
  is_transfer e = false →
  (∀ now s, migration_logs (run now s).2 = migration_logs s ∧
            Forall2 claimed_at_most (bunny_file_map s) (bunny_file_map (run now s).2)) →
  preserves nothing_migrated (request e run).
Proof.
  intros He Hrun w. unfold request, nothing_migrated.
  destruct (faults (emit e w)) as [|[err|] rest]; simpl;
    try (destruct (Hrun (now w) (db w)) as [Hl Hb]; destruct (run _ _); simpl in *);
    rewrite count_snoc, He; split_and!; try done; lia.
Qed.

Lemma sleep_nothing_migrated ms : preserves nothing_migrated (sleep ms).
Proof.
  intros w. unfold nothing_migrated; simpl. rewrite count_snoc; simpl.
  split_and!; [done|lia|done].
Qed.

Lemma setInterval_nothing_migrated cb ms :
  preserves nothing_migrated (setInterval cb ms).
Proof. intros w. by split_and!. Qed.

Section NoAttempt.
Variable cfg : config.
Variable WORKER_ID : uuid.
Hypothesis no_attempt : MAX_RETRIES cfg ≤ 0.

Lemma migrateOne_noop job file w :
  Migrate.migrateOne cfg job file w = (Ret tt, w).
Proof.
  unfold Migrate.migrateOne, bind, get.
  by replace (Z.to_nat (MAX_RETRIES cfg)) with 0%nat by lia.
Qed.

Lemma migrate_batch_noop job batch w :
  Migrate.migrate_batch cfg job batch w = (Ret tt, w).
Proof.
  unfold Migrate.migrate_batch. induction batch as [|f batch IH]; [done|].
  simpl. unfold bind. rewrite migrateOne_noop. exact IH.
Qed.

Lemma migrate_run_nothing_migrated fuel :
  preserves nothing_migrated (Migrate.run cfg WORKER_ID fuel).
Proof.
  unfold Migrate.run, Migrate.start, Migrate.createJob.
  preserving; try apply setInterval_nothing_migrated;
    try (apply request_nothing_migrated; [done|]; intros t s; simpl;
         try destruct (insert_progress _ _ _); by split).
  apply (preserves_while_true nothing_migrated).
  unfold Migrate.iteration, Migrate.getJob, Migrate.claimBatch.
  preserving; try apply sleep_nothing_migrated;
    try (intros w; rewrite migrate_batch_noop; reflexivity);
    try (apply request_nothing_migrated; [done|]; intros t s; simpl; by split).
  all: apply request_nothing_migrated; [done|]; intros t s.
  all: unfold Migrate.rpc_claim_files_to_migrate.
  all: destruct (BATCH_SIZE cfg <? 0); [by split|].
  all: pose proof (worker_keeps_claim (Z.to_nat (BATCH_SIZE cfg)) s) as (_ & _ & Hall).
  all: unfold claim_files_to_migrate in *; simpl in *; split; [done|].
  all: apply Forall2_update; intros b; case_bool_decide; split_and!; auto.
Qed.
End NoAttempt.


